(** * gcs-unzip: bounded staging-and-upload pipeline

    A shallow embedding of [main.go] and [extractor.go] of
    github.com/orisano/gcs-unzip, and the properties of its specification
    that can be settled on it.

    Conventions.
    - Go [string]s are byte sequences: Rocq [string]s (lists of 8-bit [ascii]).
    - [uint64] and [int64] values are integers in [Z]; every conversion and
      every arithmetic operation that can wrap is written with [wrapU64] or
      [toInt64].
    - Slice indices and loop counters ([int] bounded by a slice length) are
      [nat].
    - Calls into the operating system, the network and the archive readers
      do not compute: their outcomes are inputs of the model. *)

From Stdlib Require Import ZArith List Bool String Ascii Lia Arith Permutation.
Import ListNotations.

Open Scope string_scope.
Open Scope Z_scope.

(** ** Machine integers *)

Definition wrapU64 (x : Z) : Z := x mod 2 ^ 64.

(** [int64(x)]: the two's complement reading of the low 64 bits. *)
Definition toInt64 (x : Z) : Z := (x + 2 ^ 63) mod 2 ^ 64 - 2 ^ 63.

Definition isU64 (x : Z) : Prop := 0 <= x < 2 ^ 64.

Definition maxUint64 : Z := 2 ^ 64 - 1.

(** ** The parts of Go's [strings], [strconv], [path] and [path/filepath]
       that the program calls (Unix build: the separator is [/]). *)

Module Strings.

(** [s[lo:hi]] *)
Definition slice (s : string) (lo hi : nat) : string :=
  substring lo (hi - lo) s.

Fixpoint HasPrefix (s prefix : string) : bool :=
  match prefix, s with
  | EmptyString, _ => true
  | String c p, String d s' => Ascii.eqb c d && HasPrefix s' p
  | String _ _, EmptyString => false
  end.

Definition HasSuffix (s suffix : string) : bool :=
  (length suffix <=? length s)%nat
  && String.eqb (slice s (length s - length suffix) (length s)) suffix.

Definition TrimPrefix (s prefix : string) : string :=
  if HasPrefix s prefix then slice s (length prefix) (length s) else s.

Definition TrimSuffix (s suffix : string) : string :=
  if HasSuffix s suffix then slice s 0 (length s - length suffix) else s.

(** [strings.Index], with [None] for -1. *)
Fixpoint Index (s sep : string) : option nat :=
  if HasPrefix s sep then Some O
  else match s with
       | EmptyString => None
       | String _ s' => option_map S (Index s' sep)
       end.

Definition Cut (s sep : string) : string * string * bool :=
  match Index s sep with
  | Some i => (slice s 0 i, slice s (i + length sep) (length s), true)
  | None => (s, "", false)
  end.

Definition byteOf (c : ascii) : Z := Z.of_nat (nat_of_ascii c).

Definition isASCII (s : string) : bool :=
  forallb (fun c => byteOf c <? 128) (list_ascii_of_string s).

Definition lowerByte (c : ascii) : ascii :=
  if (65 <=? byteOf c) && (byteOf c <=? 90)
  then ascii_of_nat (nat_of_ascii c + 32)
  else c.

Fixpoint mapBytes (f : ascii -> ascii) (s : string) : string :=
  match s with
  | EmptyString => EmptyString
  | String c s' => String (f c) (mapBytes f s')
  end.

Section ToLower.
(** [strings.Map(unicode.ToLower, s)], the path taken for a string with a
    byte above 0x7f; the Unicode tables are not modelled. *)
Variable unicodeLower : string -> string.

Definition ToLower (s : string) : string :=
  if isASCII s then mapBytes lowerByte s else unicodeLower s.
End ToLower.

(** [strings.ReplaceAll(s, old, new)] for a one-byte [old] and [new]. *)
Definition ReplaceAllByte (s : string) (old new : ascii) : string :=
  mapBytes (fun c => if Ascii.eqb c old then new else c) s.

End Strings.

Module Strconv.

Inductive NumError := ErrSyntax | ErrRange.

Definition base : Z := 10.
Definition cutoff : Z := maxUint64 / 10 + 1.
Definition maxVal : Z := wrapU64 (Z.shiftl 1 64 - 1).

(** The digit loop of [strconv.ParseUint(s, 10, 64)]. *)
Fixpoint parseLoop (s : string) (n : Z) : Z + NumError :=
  match s with
  | EmptyString => inl n
  | String c s' =>
      let b := Strings.byteOf c in
      let lower := Z.lor b 32 in
      let digit :=
        if (48 <=? b) && (b <=? 57) then Some (b - 48)
        else if (97 <=? lower) && (lower <=? 122) then Some (lower - 97 + 10)
        else None in
      match digit with
      | None => inr ErrSyntax
      | Some d =>
          if base <=? d then inr ErrSyntax
          else if cutoff <=? n then inr ErrRange
          else
            let n10 := wrapU64 (n * base) in
            let n1 := wrapU64 (n10 + d) in
            if (n1 <? n10) || (maxVal <? n1) then inr ErrRange
            else parseLoop s' n1
      end
  end.

Definition ParseUint (s : string) : Z + NumError :=
  match s with
  | EmptyString => inr ErrSyntax
  | _ => parseLoop s 0
  end.

Fixpoint formatLoop (fuel : nat) (x : Z) (acc : string) : string :=
  match fuel with
  | O => acc
  | S fuel' =>
      let acc' := String (ascii_of_nat (48 + Z.to_nat (x mod 10))) acc in
      if x <? 10 then acc' else formatLoop fuel' (x / 10) acc'
  end.

(** [strconv.FormatUint(x, 10)]; a [uint64] has at most 20 digits. *)
Definition FormatUint (x : Z) : string := formatLoop 20 x "".

End Strconv.

(** ** [bytesValue] (main.go) *)

Record bytesUnit := { suffix : string; value : Z }.

Definition bytesUnits : list bytesUnit :=
  [ {| suffix := "g";  value := 1 * 1024 * 1024 * 1024 |};
    {| suffix := "m";  value := 1 * 1024 * 1024 |};
    {| suffix := "k";  value := 1 * 1024 |};
    {| suffix := "gb"; value := 1 * 1024 * 1024 * 1024 |};
    {| suffix := "mb"; value := 1 * 1024 * 1024 |};
    {| suffix := "kb"; value := 1 * 1024 |};
    {| suffix := "b";  value := 1 |};
    {| suffix := "";   value := 1 |} ].

(** What a call of [bytesValue.Set] does: store a value and return nil,
    return an error wrapping the one of [ParseUint], or reach the [panic]
    after the loop. *)
Inductive SetResult :=
| SetOk (b : Z)
| SetError (s : string) (e : Strconv.NumError)
| SetPanic.

Fixpoint setLoop (s x : string) (us : list bytesUnit) : SetResult :=
  match us with
  | [] => SetPanic
  | u :: us' =>
      if negb (Strings.HasSuffix x (suffix u)) then setLoop s x us'
      else match Strconv.ParseUint (Strings.TrimSuffix x (suffix u)) with
           | inr e => SetError s e
           | inl v => SetOk (wrapU64 (v * value u))
           end
  end.

Fixpoint stringLoop (b : Z) (us : list bytesUnit) : string :=
  match us with
  | [] => "0"
  | u :: us' =>
      if value u <=? b then Strconv.FormatUint (b / value u) ++ suffix u
      else stringLoop b us'
  end.

Definition bytesValue_String (b : Z) : string := stringLoop b bytesUnits.

Definition bytesString (x : Z) : string := bytesValue_String x.

Section BytesValueSet.
Variable unicodeLower : string -> string.

Definition bytesValue_Set (s : string) : SetResult :=
  setLoop s (Strings.ToLower unicodeLower s) bytesUnits.
End BytesValueSet.


(** ** [path] and [path/filepath] *)

Module Path.

Definition slash : ascii := "/"%char.
Definition dot : ascii := "."%char.

(** The backward scan of [path.Ext] (and of [filepath.Ext]): [rs] is the
    part of the path not yet visited, last byte first; [acc] is the part
    already visited. *)
Fixpoint extLoop (rs acc : list ascii) : string :=
  match rs with
  | [] => ""
  | c :: rs' =>
      if Ascii.eqb c slash then ""
      else if Ascii.eqb c dot then string_of_list_ascii (c :: acc)
      else extLoop rs' (c :: acc)
  end.

Definition Ext (path : string) : string :=
  extLoop (rev (list_ascii_of_string path)) [].

Fixpoint dropSlashes (rs : list ascii) : list ascii :=
  match rs with
  | c :: rs' => if Ascii.eqb c slash then dropSlashes rs' else rs
  | [] => []
  end.

Fixpoint lastElement (rs acc : list ascii) : list ascii :=
  match rs with
  | c :: rs' => if Ascii.eqb c slash then acc else lastElement rs' (c :: acc)
  | [] => acc
  end.

Definition Base (path : string) : string :=
  if String.eqb path "" then "."
  else
    let stripped := dropSlashes (rev (list_ascii_of_string path)) in
    let elem := string_of_list_ascii (lastElement stripped []) in
    if String.eqb elem "" then "/" else elem.

(** [strings.Split(s, "/")] *)
Fixpoint splitSlash (s : string) : list string :=
  match s with
  | EmptyString => [""]
  | String c s' =>
      if Ascii.eqb c slash then "" :: splitSlash s'
      else match splitSlash s' with
           | h :: t => String c h :: t
           | [] => [String c ""]
           end
  end.

(** One path element handed to the output of [Clean]; [out] is the list of
    elements written so far, last one first. *)
Definition cleanStep (rooted : bool) (out : list string) (elem : string) : list string :=
  if String.eqb elem "" || String.eqb elem "." then out
  else if String.eqb elem ".." then
    match out with
    | top :: out' => if String.eqb top ".." then elem :: out else out'
    | [] => if rooted then out else [elem]
    end
  else elem :: out.

Fixpoint joinSlash (elems : list string) : string :=
  match elems with
  | [] => ""
  | [e] => e
  | e :: rest => e ++ "/" ++ joinSlash rest
  end.

(** [path.Clean]; [filepath.Clean] is the same function on Unix. *)
Definition Clean (path : string) : string :=
  if String.eqb path "" then "."
  else
    let rooted := Strings.HasPrefix path "/" in
    let out := fold_left (cleanStep rooted) (splitSlash path) [] in
    let body := joinSlash (rev out) in
    if rooted then "/" ++ body
    else if String.eqb body "" then "." else body.

(** [filepath.Join(a, b)] *)
Definition Join (a b : string) : string :=
  if negb (String.eqb a "") then Clean (a ++ "/" ++ b)
  else if negb (String.eqb b "") then Clean b
  else "".

(** [filepath.FromSlash] and [filepath.ToSlash] do nothing where the
    separator is a slash. *)
Definition FromSlash (s : string) : string := s.

End Path.

Definition trimExt (name : string) : string :=
  Strings.TrimSuffix name (Path.Ext name).

(** ** [isIgnoreMeta] (main.go) *)

Definition PathSeparator : string := "/".

(** The loop [for rest != ""] of [isIgnoreMeta]; every round shortens
    [rest], so [fuel] above its length is never used up. *)
Fixpoint isIgnoreMetaLoop (fuel : nat) (rest : string) : bool :=
  match fuel with
  | O => false
  | S fuel' =>
      if String.eqb rest "" then false
      else
        let '(n, after, found) := Strings.Cut rest PathSeparator in
        if negb found then
          String.eqb n ".DS_Store" || String.eqb n "Thumbs.db" || String.eqb n "__MACOSX"
        else if String.eqb n "__MACOSX" then true
        else isIgnoreMetaLoop fuel' after
  end.

Definition isIgnoreMeta (name : string) : bool :=
  isIgnoreMetaLoop (S (length name)) name.

(** The junk filter as the specification words it: some component other
    than the last is [__MACOSX], or the last component is one of the three
    names. *)
Definition junkBySpec (name : string) : bool :=
  let comps := Path.splitSlash name in
  existsb (String.eqb "__MACOSX") (removelast comps)
  || existsb (String.eqb (last comps "")) [".DS_Store"; "Thumbs.db"; "__MACOSX"].

(** ** [Extractor] (extractor.go) *)

Record FileHeader := {
  Name : string;
  UncompressedSize : Z;   (* uint64; [UncompressedSize64] for zip *)
  Mode : Z                (* the [fs.FileMode] returned by [Mode()], uint32 *)
}.

Definition ModeDir : Z := Z.shiftl 1 31.

(** The interface, without [Open], whose result is a stream. *)
Record Extractor := {
  Files : nat;
  FileName : nat -> string;
  FileSize : nat -> Z;
  IsDir : nat -> bool
}.

Definition noHeader : FileHeader :=
  {| Name := ""; UncompressedSize := 0; Mode := 0 |}.

Section Extractors.
(** [utf8.ValidString] and [japanese.ShiftJIS.NewDecoder().String]. *)
Variable ValidString : string -> bool.
Variable ShiftJISDecode : string -> option string.

Definition fallbackShiftJIS (s : string) : string :=
  if negb (ValidString s) then
    match ShiftJISDecode s with
    | Some d => d
    | None => s
    end
  else s.

(** Both readers are used with an index below [Files()] only. *)
Definition zipExtractor (File : list FileHeader) (oldWindows : bool) : Extractor :=
  {| Files := List.length File;
     FileName := fun i =>
       let name := fallbackShiftJIS (Name (nth i File noHeader)) in
       let name := if oldWindows
                   then Strings.ReplaceAllByte name "\"%char "/"%char
                   else name in
       Path.FromSlash name;
     FileSize := fun i => UncompressedSize (nth i File noHeader);
     IsDir := fun i => negb (Z.land (Mode (nth i File noHeader)) ModeDir =? 0) |}.

Definition sevenZipExtractor (File : list FileHeader) : Extractor :=
  {| Files := List.length File;
     FileName := fun i => Path.FromSlash (fallbackShiftJIS (Name (nth i File noHeader)));
     FileSize := fun i => UncompressedSize (nth i File noHeader);
     IsDir := fun i => negb (Z.land (Mode (nth i File noHeader)) ModeDir =? 0) |}.

Inductive NewExtractorResult :=
| ExtractorOk (e : Extractor)
| ExtractorError (msg : string)
| ExtractorPanic (msg : string).

(** [NewExtractor(f, oldWindows)]: [fname] is [f.Name()], [statOk] tells
    whether [f.Stat()] succeeds, and [reader] is what the reader of the
    archive format finds in the file, if it can read it. *)
Definition NewExtractor (fname : string) (statOk : bool)
    (reader : option (list FileHeader)) (oldWindows : bool) : NewExtractorResult :=
  if negb statOk then ExtractorError "stat"
  else
    let ext := Path.Ext fname in
    if String.eqb ext ".7z" then
      match reader with
      | None => ExtractorError "sevenzip"
      | Some File => ExtractorOk (sevenZipExtractor File)
      end
    else if String.eqb ext ".zip" then
      match reader with
      | None => ExtractorError "zip"
      | Some File => ExtractorOk (zipExtractor File oldWindows)
      end
    else ExtractorPanic "unreachable".

End Extractors.

(** ** [golang.org/x/sync/semaphore] (v0.3.0), as [run] uses it

    [size] and [cur] are [int64] fields; [waiters] is the FIFO list of the
    weights of the blocked [Acquire] calls. *)

Module Semaphore.

Record Weighted := { size : Z; cur : Z; waiters : list Z }.

Definition NewWeighted (n : Z) : Weighted :=
  {| size := n; cur := 0; waiters := [] |}.

Inductive AcquireEntry :=
| Granted (s : Weighted)     (* the fast path: returns nil at once *)
| Doomed                     (* [n > s.size]: waits for [ctx.Done()] only *)
| Enqueued (s : Weighted).   (* pushed on [waiters], waits for [ready] or [ctx.Done()] *)

(** [Acquire] up to the point where it returns or blocks. *)
Definition Acquire (s : Weighted) (n : Z) : AcquireEntry :=
  if (n <=? toInt64 (size s - cur s)) && (List.length (waiters s) =? 0)%nat then
    Granted {| size := size s; cur := toInt64 (cur s + n); waiters := waiters s |}
  else if size s <? n then Doomed
  else Enqueued {| size := size s; cur := cur s; waiters := waiters s ++ [n] |}.

(** [notifyWaiters]: the new [cur], the waiters left, and how many were woken. *)
Fixpoint notifyLoop (sz c : Z) (ws : list Z) : Z * list Z * nat :=
  match ws with
  | [] => (c, [], O)
  | w :: ws' =>
      if toInt64 (sz - c) <? w then (c, ws, O)
      else let '(c', rest, k) := notifyLoop sz (toInt64 (c + w)) ws' in (c', rest, S k)
  end.

Definition notifyWaiters (s : Weighted) : Weighted * nat :=
  let '(c, rest, k) := notifyLoop (size s) (cur s) (waiters s) in
  ({| size := size s; cur := c; waiters := rest |}, k).

Inductive ReleaseResult :=
| Released (s : Weighted) (woken : nat)
| ReleasePanic (s : Weighted).   (* "semaphore: released more than held" *)

Definition Release (s : Weighted) (n : Z) : ReleaseResult :=
  let s' := {| size := size s; cur := toInt64 (cur s - n); waiters := waiters s |} in
  if cur s' <? 0 then ReleasePanic s'
  else let '(s'', k) := notifyWaiters s' in Released s'' k.

(** The [ctx.Done()] branch of a blocked [Acquire] whose [ready] is still
    open, for the waiter at the front of the list. *)
Definition cancelFront (s : Weighted) : Weighted :=
  let s' := {| size := size s; cur := cur s; waiters := tl (waiters s) |} in
  if cur s' <? size s' then fst (notifyWaiters s') else s'.

End Semaphore.

(** ** [run] (main.go) *)

Definition local : bool := false.

Module Flag.
Record t := {
  n : Z;             (* -n, int *)
  diskLimit : Z;     (* -disk-limit, uint64 *)
  withMeta : bool;
  skipTop : bool;
  oldWindows : bool
}.
End Flag.

Inductive UploadError :=
| ErrOpenUploadFile     (* "open upload file: ..." *)
| ErrUpload             (* "upload: ..." *)
| ErrCloseWriter.       (* "close writer: ..." *)

Inductive RunError :=
| ErrInvalidArgs
| ErrParseSrc
| ErrParseDest
| ErrUnsupportedFormat (ext : string)
| ErrStorageClient
| ErrMakeWorkDir
| ErrDownloadZip
| ErrOpenZipFile
| ErrExtractor (msg : string)
| ErrNoEnoughSpace (file size : string)
| ErrMkdir
| ErrAcquireDiskSem
| ErrWriteTemp (i : nat)
| ErrUploads (e : UploadError).

(** How one call of [upload] ended. *)
Inductive UploadResult :=
| Skipped                (* [ctx.Done()] at the start: returns nil *)
| Failed (e : UploadError)
| Completed.             (* copied, writer closed, [count] incremented: returns nil *)

(** What the run does that can be observed from outside, and the
    operations on the quota and on the job channel. The index is the one of
    the archive entry concerned. *)
Inductive Event :=
| EvMkdirTemp
| EvDownload
| EvOpenArchive
| EvRemoveAll
| EvMkdirAll (i : nat)
| EvAcquire (i : nat)
| EvWriteTemp (i : nat) (ok : bool)
| EvSend (i : nat)
| EvClose
| EvRecv (i : nat)
| EvSpawn (i : nat)
| EvUpload (i : nat) (r : UploadResult)
| EvRemove (i : nat) (ok : bool)
| EvLog (msg : string)
| EvRelease (i : nat).

(** The value [upload] returns. *)
Definition uploadErr (r : UploadResult) : option UploadError :=
  match r with
  | Failed e => Some e
  | Skipped | Completed => None
  end.

(** Whether the call created the destination object writer and wrote to it. *)
Definition writesDestination (r : UploadResult) : bool :=
  match r with
  | Skipped | Failed ErrOpenUploadFile => false
  | Failed ErrUpload | Failed ErrCloseWriter | Completed => true
  end.

(** What the staged file and the destination do to an upload that is not
    skipped. *)
Inductive UploadOutcome := OpenFails | CopyFails | CloseFails | Succeeds.

(** The closure [upload]: [done] is whether [ctx.Done()] is closed when it
    starts, [count] the atomic counter. It returns the result and the new
    counter. *)
Definition upload (done : bool) (o : UploadOutcome) (count : Z) : UploadResult * Z :=
  if done then (Skipped, count)
  else match o with
       | OpenFails => (Failed ErrOpenUploadFile, count)
       | CopyFails => (Failed ErrUpload, count)
       | CloseFails => (Failed ErrCloseWriter, count)
       | Succeeds => (Completed, toInt64 (count + 1))
       end.

Record Scan := {
  largestFile : string;
  largestSize : Z;
  filesCount : nat;
  topDirOnly : bool
}.

Record uploadJob := {
  jobEntry : nat;      (* not in the source: the index of the entry *)
  jobName : string;
  jobSize : Z          (* int64 *)
}.

(** Where the main goroutine stands in the second half of [run]. *)
Inductive Producer :=
| PStart                         (* before [uploadGroup.Go] of the dispatcher *)
| PTop (i : nat)                 (* loop head: the [select] on [ctx.Done()] *)
| PAcquire (i : nat)             (* calling [diskSem.Acquire] *)
| PDoomed (i : nat)              (* in [Acquire], waiting for [ctx.Done()] *)
| PQueued (i : nat) (ready : bool)   (* in [Acquire], on the waiters list *)
| PWrite (i : nat)               (* calling [writeTemporary] *)
| PSend (i : nat)                (* sending on [uploadJobCh] *)
| PWait                          (* in [uploadGroup.Wait] *)
| PDone (r : option RunError).   (* [run] has returned *)

Inductive Dispatcher :=
| DIdle                          (* not started yet *)
| DSelect                        (* at its [select] *)
| DSpawn (job : uploadJob)       (* calling [uploadGroup.Go] for a job *)
| DExit.

Inductive WorkerPc :=
| WUpload                              (* about to call [upload] *)
| WRemove (r : UploadResult)           (* first deferred call: [os.Remove] *)
| WRelease (r : UploadResult)          (* second deferred call: [diskSem.Release] *)
| WReturn (r : UploadResult)           (* returning to the errgroup *)
| WExit.

Record Worker := { wjob : uploadJob; wpc : WorkerPc }.

Record State := {
  prod : Producer;
  ch : list uploadJob;        (* the buffer of [uploadJobCh] *)
  closed : bool;
  disp : Dispatcher;
  workers : list Worker;      (* every goroutine started for a job, in order *)
  sem : Semaphore.Weighted;   (* [diskSem] *)
  cancelled : bool;           (* [ctx.Done()] is closed *)
  gerr : option UploadError;  (* the error kept by the errgroup *)
  count : Z;                  (* the atomic counter of [upload] *)
  crashed : bool;             (* a goroutine has panicked *)
  trace : list Event          (* latest first *)
}.

(** One move of one goroutine, with the outcome of the external call it
    makes, if it makes one. *)
Inductive Action :=
| AProd (ok : bool)
| ADispDone                  (* the dispatcher takes the [ctx.Done()] case *)
| ADispRecv                  (* the dispatcher takes the channel case *)
| ADispSpawn
| AUpload (k : nat) (o : UploadOutcome)
| ARemove (k : nat) (ok : bool)
| ARelease (k : nat)
| AReturn (k : nat).

Definition setProd (p : Producer) (st : State) : State :=
  {| prod := p; ch := ch st; closed := closed st; disp := disp st;
     workers := workers st; sem := sem st; cancelled := cancelled st;
     gerr := gerr st; count := count st; crashed := crashed st; trace := trace st |}.

Definition setCh (c : list uploadJob) (st : State) : State :=
  {| prod := prod st; ch := c; closed := closed st; disp := disp st;
     workers := workers st; sem := sem st; cancelled := cancelled st;
     gerr := gerr st; count := count st; crashed := crashed st; trace := trace st |}.

Definition setClosed (b : bool) (st : State) : State :=
  {| prod := prod st; ch := ch st; closed := b; disp := disp st;
     workers := workers st; sem := sem st; cancelled := cancelled st;
     gerr := gerr st; count := count st; crashed := crashed st; trace := trace st |}.

Definition setDisp (d : Dispatcher) (st : State) : State :=
  {| prod := prod st; ch := ch st; closed := closed st; disp := d;
     workers := workers st; sem := sem st; cancelled := cancelled st;
     gerr := gerr st; count := count st; crashed := crashed st; trace := trace st |}.

Definition setWorkers (ws : list Worker) (st : State) : State :=
  {| prod := prod st; ch := ch st; closed := closed st; disp := disp st;
     workers := ws; sem := sem st; cancelled := cancelled st;
     gerr := gerr st; count := count st; crashed := crashed st; trace := trace st |}.

Definition setSem (s : Semaphore.Weighted) (st : State) : State :=
  {| prod := prod st; ch := ch st; closed := closed st; disp := disp st;
     workers := workers st; sem := s; cancelled := cancelled st;
     gerr := gerr st; count := count st; crashed := crashed st; trace := trace st |}.

Definition setCancelled (b : bool) (st : State) : State :=
  {| prod := prod st; ch := ch st; closed := closed st; disp := disp st;
     workers := workers st; sem := sem st; cancelled := b;
     gerr := gerr st; count := count st; crashed := crashed st; trace := trace st |}.

Definition setGerr (g : option UploadError) (st : State) : State :=
  {| prod := prod st; ch := ch st; closed := closed st; disp := disp st;
     workers := workers st; sem := sem st; cancelled := cancelled st;
     gerr := g; count := count st; crashed := crashed st; trace := trace st |}.

Definition setCount (c : Z) (st : State) : State :=
  {| prod := prod st; ch := ch st; closed := closed st; disp := disp st;
     workers := workers st; sem := sem st; cancelled := cancelled st;
     gerr := gerr st; count := c; crashed := crashed st; trace := trace st |}.

Definition setCrashed (b : bool) (st : State) : State :=
  {| prod := prod st; ch := ch st; closed := closed st; disp := disp st;
     workers := workers st; sem := sem st; cancelled := cancelled st;
     gerr := gerr st; count := count st; crashed := b; trace := trace st |}.

Definition pushEv (ev : Event) (st : State) : State :=
  {| prod := prod st; ch := ch st; closed := closed st; disp := disp st;
     workers := workers st; sem := sem st; cancelled := cancelled st;
     gerr := gerr st; count := count st; crashed := crashed st;
     trace := ev :: trace st |}.

Fixpoint updNth {A : Type} (k : nat) (f : A -> A) (l : list A) : list A :=
  match l, k with
  | [], _ => []
  | x :: l', O => f x :: l'
  | x :: l', S k' => x :: updNth k' f l'
  end.

Definition setWorkerPc (k : nat) (pc : WorkerPc) (st : State) : State :=
  setWorkers (updNth k (fun w => {| wjob := wjob w; wpc := pc |}) (workers st)) st.

Definition alive (w : Worker) : bool :=
  match wpc w with
  | WExit => false
  | _ => true
  end.

Section Pipeline.
Variable e : Extractor.
Variable fl : Flag.t.
Variable archiveName : string.

Definition skipMeta (name : string) : bool :=
  negb (Flag.withMeta fl) && isIgnoreMeta name.

(** One round of the first loop over the entries. *)
Definition scanStep (a : Scan) (i : nat) : Scan :=
  if IsDir e i then a
  else
    let name := FileName e i in
    if skipMeta name then a
    else
      let tdo :=
        if Flag.skipTop fl && topDirOnly a then
          let '(top, _, _) := Strings.Cut name PathSeparator in
          if negb (String.eqb top archiveName) then false else topDirOnly a
        else topDirOnly a in
      let size := FileSize e i in
      if largestSize a <? size then
        {| largestFile := name; largestSize := size;
           filesCount := S (filesCount a); topDirOnly := tdo |}
      else
        {| largestFile := largestFile a; largestSize := largestSize a;
           filesCount := S (filesCount a); topDirOnly := tdo |}.

Definition scanFrom (a : Scan) (lo len : nat) : Scan :=
  fold_left scanStep (seq lo len) a.

Definition scan : Scan :=
  scanFrom {| largestFile := ""; largestSize := 0; filesCount := 0; topDirOnly := true |}
           0 (Files e).

(** The local path of entry [i], below the work directory. *)
Definition entryPath (i : nat) : string :=
  let name := FileName e i in
  let name :=
    if Flag.skipTop fl && topDirOnly scan then
      let name := Strings.TrimPrefix name archiveName in
      if negb (String.eqb name "") then Strings.slice name 1 (length name) else name
    else name in
  Path.Join archiveName name.

Definition jobOf (i : nat) : uploadJob :=
  {| jobEntry := i; jobName := entryPath i; jobSize := toInt64 (FileSize e i) |}.

(** [uploadGroup.SetLimit] of [n + 1]: a negative limit is no limit. *)
Definition limit : Z := toInt64 (Flag.n fl + 1).

(** The goroutines of the group that have not returned. *)
Definition active (st : State) : Z :=
  (match disp st with
   | DSelect | DSpawn _ => 1
   | DIdle | DExit => 0
   end) + Z.of_nat (List.length (filter alive (workers st))).

(** Whether [uploadGroup.Go] can start its goroutine now. *)
Definition canGo (st : State) : bool :=
  (limit <? 0) || (active st <? limit).

Definition initState : State :=
  {| prod := PStart; ch := []; closed := false; disp := DIdle; workers := [];
     sem := Semaphore.NewWeighted (toInt64 (Flag.diskLimit fl));
     cancelled := false; gerr := None; count := 0; crashed := false; trace := [] |}.

(** [run] returns: the deferred [os.RemoveAll(workDir)] runs. *)
Definition finish (r : option RunError) (st : State) : State :=
  pushEv EvRemoveAll (setProd (PDone r) st).

(** Leaving the loop: [close(uploadJobCh)], then [uploadGroup.Wait()]. *)
Definition closeCh (st : State) : State :=
  pushEv EvClose (setClosed true (setProd PWait st)).

Definition stepProd (ok : bool) (st : State) : option State :=
  match prod st with
  | PStart =>
      if canGo st then Some (setDisp DSelect (setProd (PTop 0) st)) else None
  | PTop i =>
      if (Files e <=? i)%nat then Some (closeCh st)
      else if cancelled st then Some (closeCh st)
      else if skipMeta (FileName e i) then Some (setProd (PTop (S i)) st)
      else if IsDir e i then
        if ok then Some (pushEv (EvMkdirAll i) (setProd (PTop (S i)) st))
        else Some (finish (Some ErrMkdir) (pushEv (EvMkdirAll i) st))
      else Some (setProd (PAcquire i) st)
  | PAcquire i =>
      match Semaphore.Acquire (sem st) (toInt64 (FileSize e i)) with
      | Semaphore.Granted s =>
          Some (pushEv (EvAcquire i) (setSem s (setProd (PWrite i) st)))
      | Semaphore.Doomed => Some (setProd (PDoomed i) st)
      | Semaphore.Enqueued s => Some (setSem s (setProd (PQueued i false) st))
      end
  | PDoomed i =>
      if cancelled st then Some (finish (Some ErrAcquireDiskSem) st) else None
  | PQueued i true => Some (setProd (PWrite i) st)
  | PQueued i false =>
      if cancelled st
      then Some (finish (Some ErrAcquireDiskSem)
                        (setSem (Semaphore.cancelFront (sem st)) st))
      else None
  | PWrite i =>
      if ok then Some (pushEv (EvWriteTemp i true) (setProd (PSend i) st))
      else Some (finish (Some (ErrWriteTemp i)) (pushEv (EvWriteTemp i false) st))
  | PSend i =>
      (* a send blocks while the buffer is full *)
      if (List.length (ch st) <? filesCount scan)%nat
      then Some (pushEv (EvSend i) (setCh (ch st ++ [jobOf i]) (setProd (PTop (S i)) st)))
      else None
  | PWait =>
      (* [Wait] returns once every goroutine of the group has returned,
         and cancels the context *)
      if (active st =? 0)
      then Some (finish (option_map ErrUploads (gerr st)) (setCancelled true st))
      else None
  | PDone _ => None
  end.

Definition stepDispDone (st : State) : option State :=
  match disp st with
  | DSelect => if cancelled st then Some (setDisp DExit st) else None
  | _ => None
  end.

Definition stepDispRecv (st : State) : option State :=
  match disp st with
  | DSelect =>
      match ch st with
      | job :: rest =>
          Some (pushEv (EvRecv (jobEntry job)) (setCh rest (setDisp (DSpawn job) st)))
      | [] => if closed st then Some (setDisp DExit st) else None
      end
  | _ => None
  end.

Definition stepDispSpawn (st : State) : option State :=
  match disp st with
  | DSpawn job =>
      if canGo st
      then Some (pushEv (EvSpawn (jobEntry job))
                  (setWorkers (workers st ++ [{| wjob := job; wpc := WUpload |}])
                    (setDisp DSelect st)))
      else None
  | _ => None
  end.

Definition stepUpload (k : nat) (o : UploadOutcome) (st : State) : option State :=
  match nth_error (workers st) k with
  | Some w =>
      match wpc w with
      | WUpload =>
          let '(r, c) := upload (cancelled st) o (count st) in
          Some (pushEv (EvUpload (jobEntry (wjob w)) r)
                 (setCount c (setWorkerPc k (WRemove r) st)))
      | _ => None
      end
  | None => None
  end.

Definition stepRemove (k : nat) (ok : bool) (st : State) : option State :=
  match nth_error (workers st) k with
  | Some w =>
      match wpc w with
      | WRemove r =>
          if local then Some (setWorkerPc k (WRelease r) st)
          else
            let st1 := pushEv (EvRemove (jobEntry (wjob w)) ok)
                              (setWorkerPc k (WRelease r) st) in
            Some (if ok then st1 else pushEv (EvLog "failed to remove temp file") st1)
      | _ => None
      end
  | None => None
  end.

Definition stepRelease (k : nat) (st : State) : option State :=
  match nth_error (workers st) k with
  | Some w =>
      match wpc w with
      | WRelease r =>
          match Semaphore.Release (sem st) (jobSize (wjob w)) with
          | Semaphore.ReleasePanic s =>
              Some (setCrashed true
                     (pushEv (EvRelease (jobEntry (wjob w)))
                             (setSem s (setWorkerPc k WExit st))))
          | Semaphore.Released s woken =>
              let st1 := pushEv (EvRelease (jobEntry (wjob w)))
                                (setSem s (setWorkerPc k (WReturn r) st)) in
              Some (match prod st, woken with
                    | PQueued i false, S _ =>
                        (* [notifyWaiters] grants the blocked [Acquire] *)
                        pushEv (EvAcquire i) (setProd (PQueued i true) st1)
                    | _, _ => st1
                    end)
          end
      | _ => None
      end
  | None => None
  end.

Definition stepReturn (k : nat) (st : State) : option State :=
  match nth_error (workers st) k with
  | Some w =>
      match wpc w with
      | WReturn r =>
          let st1 := setWorkerPc k WExit st in
          Some (match uploadErr r, gerr st with
                | Some err, None => setCancelled true (setGerr (Some err) st1)
                | _, _ => st1
                end)
      | _ => None
      end
  | None => None
  end.

Definition step (a : Action) (st : State) : option State :=
  if crashed st then None
  else match a with
       | AProd ok => stepProd ok st
       | ADispDone => stepDispDone st
       | ADispRecv => stepDispRecv st
       | ADispSpawn => stepDispSpawn st
       | AUpload k o => stepUpload k o st
       | ARemove k ok => stepRemove k ok st
       | ARelease k => stepRelease k st
       | AReturn k => stepReturn k st
       end.

Fixpoint exec (acts : list Action) (st : State) : option State :=
  match acts with
  | [] => Some st
  | a :: acts' =>
      match step a st with
      | Some st' => exec acts' st'
      | None => None
      end
  end.

(** The states of the pipeline that some interleaving of the goroutines
    reaches. Once [run] has returned ([PDone]) the process is about to
    exit; the goroutines still alive may move until it does, so their
    moves stay possible here. *)
Inductive Reachable : State -> Prop :=
| ReachInit : Reachable initState
| ReachStep a st st' : Reachable st -> step a st = Some st' -> Reachable st'.

End Pipeline.

(** *** The first half of [run], up to the check of the largest entry *)

(** What the command line, the object store and the file system answer. *)
Record World := {
  nargs : nat;                        (* [flag.NArg()] *)
  srcPath : option string;            (* [Path] of the parsed source URL *)
  destOk : bool;                      (* the destination URL parses *)
  clientOk : bool;                    (* [storage.NewClient] *)
  workDir : option string;            (* [os.MkdirTemp] *)
  downloadOk : bool;                  (* [download] *)
  openOk : bool;                      (* [os.Open(zipPath)] *)
  statOk : bool;                      (* [f.Stat()] *)
  archive : option (list FileHeader)  (* what the archive reader finds *)
}.

Inductive SetupResult :=
| SetupFailed (tr : list Event) (err : RunError)
| SetupPanic (tr : list Event) (msg : string)
| SetupReady (tr : list Event) (e : Extractor) (archiveName : string).

Section Setup.
Variable unicodeLower : string -> string.
Variable ValidString : string -> bool.
Variable ShiftJISDecode : string -> option string.

(** The [switch] on the extension of the source object. *)
Definition supportedFormat (src : string) : bool :=
  let ext := Strings.ToLower unicodeLower (Path.Ext src) in
  String.eqb ext ".7z" || String.eqb ext ".zip".

(** The path [download] returns ([local] is false). *)
Definition zipPathOf (dir src : string) : string :=
  Path.Join dir (Path.Base src).

Definition setup (w : World) (fl : Flag.t) : SetupResult :=
  if negb (nargs w =? 2)%nat then SetupFailed [] ErrInvalidArgs
  else match srcPath w with
  | None => SetupFailed [] ErrParseSrc
  | Some src =>
  if negb (destOk w) then SetupFailed [] ErrParseDest
  else if negb (supportedFormat src)
  then SetupFailed [] (ErrUnsupportedFormat (Path.Ext src))
  else if negb (clientOk w) then SetupFailed [] ErrStorageClient
  else match workDir w with
  | None => SetupFailed [] ErrMakeWorkDir
  | Some dir =>
  (* from here on every return runs the deferred [os.RemoveAll] *)
  if negb (downloadOk w)
  then SetupFailed [EvRemoveAll; EvDownload; EvMkdirTemp] ErrDownloadZip
  else
  let zipPath := zipPathOf dir src in
  if negb (openOk w)
  then SetupFailed [EvRemoveAll; EvDownload; EvMkdirTemp] ErrOpenZipFile
  else
  let tr := [EvOpenArchive; EvDownload; EvMkdirTemp] in
  let archiveName := trimExt (Path.Base zipPath) in
  match NewExtractor ValidString ShiftJISDecode zipPath (statOk w) (archive w)
                     (Flag.oldWindows fl) with
  | ExtractorError msg => SetupFailed (EvRemoveAll :: tr) (ErrExtractor msg)
  | ExtractorPanic msg => SetupPanic tr msg
  | ExtractorOk e =>
      let sc := scan e fl archiveName in
      if Flag.diskLimit fl <? largestSize sc
      then SetupFailed (EvRemoveAll :: tr)
             (ErrNoEnoughSpace (largestFile sc) (bytesString (largestSize sc)))
      else SetupReady tr e archiveName
  end
  end
  end.

(** A state of the whole run that can be reached in the world [w]: the
    events of the first half, then those of the pipeline. *)
Definition RunReaches (w : World) (fl : Flag.t) (tr : list Event) : Prop :=
  match setup w fl with
  | SetupFailed tr0 _ => tr = tr0
  | SetupPanic tr0 _ => tr = tr0
  | SetupReady tr0 e archiveName =>
      exists st, Reachable e fl archiveName st /\ tr = (trace st ++ tr0)%list
  end.

End Setup.

(** *** Reading a trace *)

Definition isAcquire (i : nat) (ev : Event) : bool :=
  match ev with
  | EvAcquire j => (j =? i)%nat
  | _ => false
  end.

Definition isRelease (i : nat) (ev : Event) : bool :=
  match ev with
  | EvRelease j => (j =? i)%nat
  | _ => false
  end.

(** The entries whose quota was granted, latest first. *)
Fixpoint acquiredOf (tr : list Event) : list nat :=
  match tr with
  | [] => []
  | EvAcquire i :: tr' => i :: acquiredOf tr'
  | _ :: tr' => acquiredOf tr'
  end.

(** The entries whose quota was released, latest first, once per release. *)
Fixpoint releasedOf (tr : list Event) : list nat :=
  match tr with
  | [] => []
  | EvRelease i :: tr' => i :: releasedOf tr'
  | _ :: tr' => releasedOf tr'
  end.

Definition memNat (i : nat) (l : list nat) : bool :=
  existsb (Nat.eqb i) l.

(** The reservations granted and not yet released. *)
Definition outstanding (tr : list Event) : list nat :=
  filter (fun i => negb (memNat i (releasedOf tr))) (acquiredOf tr).

Definition sumZ (l : list Z) : Z := fold_right Z.add 0 l.

(** Their sum, in bytes of declared size. *)
Definition outstandingBytes (e : Extractor) (tr : list Event) : Z :=
  sumZ (map (FileSize e) (outstanding tr)).

(** The archive entry an event is about. *)
Definition entryOf (ev : Event) : option nat :=
  match ev with
  | EvMkdirAll i | EvAcquire i | EvWriteTemp i _ | EvSend i | EvRecv i
  | EvSpawn i | EvUpload i _ | EvRemove i _ | EvRelease i => Some i
  | EvMkdirTemp | EvDownload | EvOpenArchive | EvRemoveAll | EvClose | EvLog _ => None
  end.

Definition isCompleted (ev : Event) : bool :=
  match ev with
  | EvUpload _ Completed => true
  | _ => false
  end.

(** Upload attempts that returned nil. *)
Definition isNilUpload (ev : Event) : bool :=
  match ev with
  | EvUpload _ r => match uploadErr r with None => true | Some _ => false end
  | _ => false
  end.

Definition isDestWrite (ev : Event) : bool :=
  match ev with
  | EvUpload _ r => writesDestination r
  | _ => false
  end.

Definition countEv (p : Event -> bool) (tr : list Event) : nat :=
  List.length (filter p tr).

(** The value a call of [Set] stores, if it stores one. *)
Definition stored (r : SetResult) : option Z :=
  match r with
  | SetOk b => Some b
  | SetError _ _ | SetPanic => None
  end.

(** *** What a state of the pipeline holds *)

Fixpoint sentOf (tr : list Event) : list nat :=
  match tr with
  | [] => []
  | EvSend i :: tr' => i :: sentOf tr'
  | _ :: tr' => sentOf tr'
  end.

(** After every release in the trace come, earlier in time, the upload
    attempt of the same entry and, unless [local], the removal of its
    file. *)
Fixpoint releasesFollowUploads (tr : list Event) : Prop :=
  match tr with
  | [] => True
  | EvRelease i :: tr' =>
      (exists r, In (EvUpload i r) tr')
      /\ (local = false -> exists ok, In (EvRemove i ok) tr')
      /\ releasesFollowUploads tr'
  | _ :: tr' => releasesFollowUploads tr'
  end.

(** The entry whose reservation the producer holds. *)
Definition heldP (p : Producer) : list nat :=
  match p with
  | PQueued i true | PWrite i | PSend i => [i]
  | PDone (Some (ErrWriteTemp i)) => [i]
  | _ => []
  end.

Definition heldD (d : Dispatcher) : list nat :=
  match d with
  | DSpawn job => [jobEntry job]
  | _ => []
  end.

Definition heldAt (job : uploadJob) (pc : WorkerPc) : list nat :=
  match pc with
  | WUpload | WRemove _ | WRelease _ => [jobEntry job]
  | WReturn _ | WExit => []
  end.

Definition heldW (w : Worker) : list nat := heldAt (wjob w) (wpc w).

(** Every reservation that some goroutine, or a job in the channel, still
    carries. *)
Definition held (st : State) : list nat :=
  (heldP (prod st) ++ map jobEntry (ch st) ++ heldD (disp st)
   ++ flat_map heldW (workers st))%list.

Section Accounting.
Variable e : Extractor.
Variable fl : Flag.t.
Variable archiveName : string.

(** The entries that the two loops of [run] treat as files to upload. *)
Definition isJob (i : nat) : bool :=
  negb (skipMeta fl (FileName e i)) && negb (IsDir e i).

Definition jobsBelow (k : nat) : nat :=
  List.length (filter isJob (seq 0 k)).

(** The first entry the producer has not yet asked quota for. *)
Definition acqBound (p : Producer) : nat :=
  match p with
  | PStart => 0
  | PTop i | PAcquire i | PDoomed i | PQueued i false => i
  | PQueued i true | PWrite i | PSend i => S i
  | PWait | PDone _ => Files e
  end.

(** The first entry the producer has not yet sent a job for. *)
Definition sendBound (p : Producer) : nat :=
  match p with
  | PStart => 0
  | PTop i | PAcquire i | PDoomed i | PQueued i _ | PWrite i | PSend i => i
  | PWait | PDone _ => Files e
  end.

Definition posOK (p : Producer) : Prop :=
  match p with
  | PTop i => (i <= Files e)%nat
  | PAcquire i | PDoomed i | PQueued i _ | PWrite i | PSend i =>
      (i < Files e)%nat /\ isJob i = true
  | PDone (Some (ErrWriteTemp i)) => (i < Files e)%nat /\ isJob i = true
  | PStart | PWait | PDone _ => True
  end.

Definition jobOK (job : uploadJob) : Prop :=
  job = jobOf e fl archiveName (jobEntry job)
  /\ (jobEntry job < Files e)%nat
  /\ isJob (jobEntry job) = true.

Definition evOK (ev : Event) : Prop :=
  match ev with
  | EvMkdirAll i =>
      (i < Files e)%nat /\ skipMeta fl (FileName e i) = false /\ IsDir e i = true
  | EvAcquire i | EvWriteTemp i _ | EvSend i | EvRecv i | EvSpawn i
  | EvUpload i _ | EvRemove i _ | EvRelease i =>
      (i < Files e)%nat /\ isJob i = true
  | EvMkdirTemp | EvDownload | EvOpenArchive | EvRemoveAll | EvClose | EvLog _ => True
  end.

(** What the worker has done when it stands at [wpc w]. *)
Definition workerOK (tr : list Event) (w : Worker) : Prop :=
  jobOK (wjob w)
  /\ match wpc w with
     | WUpload => True
     | WRemove r => In (EvUpload (jobEntry (wjob w)) r) tr
     | WRelease r | WReturn r =>
         In (EvUpload (jobEntry (wjob w)) r) tr
         /\ (local = false -> exists ok, In (EvRemove (jobEntry (wjob w)) ok) tr)
     | WExit => True
     end.

(** The invariant of the pipeline that does not depend on the arithmetic
    of the semaphore. *)
Record Inv (st : State) : Prop := {
  inv_start : prod st = PStart -> disp st = DIdle;
  inv_pos : posOK (prod st);
  inv_ch : Forall jobOK (ch st);
  inv_disp : match disp st with DSpawn job => jobOK job | _ => True end;
  inv_workers : Forall (workerOK (trace st)) (workers st);
  inv_trace : Forall evOK (trace st);
  inv_acq_bound :
    Forall (fun j => (j < acqBound (prod st))%nat) (acquiredOf (trace st));
  inv_acq_nodup : NoDup (acquiredOf (trace st));
  inv_sent_bound :
    Forall (fun j => (j < sendBound (prod st))%nat) (sentOf (trace st));
  inv_sent_nodup : NoDup (sentOf (trace st));
  inv_ch_len : (List.length (ch st) <= List.length (sentOf (trace st)))%nat;
  inv_held : forall x,
    count_occ Nat.eq_dec (acquiredOf (trace st)) x
    = (count_occ Nat.eq_dec (releasedOf (trace st)) x
       + count_occ Nat.eq_dec (held st) x)%nat;
  inv_waiters :
    Semaphore.waiters (sem st)
    = match prod st with
      | PQueued i false => [toInt64 (FileSize e i)]
      | _ => []
      end;
  inv_size : Semaphore.size (sem st) = toInt64 (Flag.diskLimit fl);
  inv_count : count st = toInt64 (Z.of_nat (countEv isCompleted (trace st)));
  inv_gerr : forall err,
    gerr st = Some err -> exists i, In (EvUpload i (Failed err)) (trace st);
  inv_order : releasesFollowUploads (trace st)
}.

(** The part that does: [cur] is the sum of the reservations held. *)
Definition InvSem (st : State) : Prop :=
  Semaphore.cur (sem st) = sumZ (map (FileSize e) (held st))
  /\ Semaphore.cur (sem st) <= Flag.diskLimit fl
  /\ crashed st = false.

End Accounting.

Definition junkComps (comps : list string) : bool :=
  existsb (String.eqb "__MACOSX") (removelast comps)
  || existsb (String.eqb (last comps "")) [".DS_Store"; "Thumbs.db"; "__MACOSX"].


(** *** Concrete archives and runs, for the examples *)

Definition utf8Always (s : string) : bool := true.
Definition noDecode (s : string) : option string := Some s.
Definition asciiOnly (s : string) : string := s.

Definition regularFile (name : string) (size : Z) : FileHeader :=
  {| Name := name; UncompressedSize := size; Mode := 420 |}.

Definition directory (name : string) : FileHeader :=
  {| Name := name; UncompressedSize := 0; Mode := Z.lor ModeDir 493 |}.

(** [data.zip] of the specification: a file, a directory, a file in it. *)
Definition dataZip : list FileHeader :=
  [ regularFile "a.txt" 10; directory "b/"; regularFile "b/c.txt" 20 ].

(** An archive with junk entries beside a real file. *)
Definition junkZip : list FileHeader :=
  [ regularFile "__MACOSX/resource" 100; regularFile "Thumbs.db" 7;
    regularFile "real.txt" 10 ].

(** Three files, for a run that is cancelled. *)
Definition threeZip : list FileHeader :=
  [ regularFile "a" 10; regularFile "b" 20; regularFile "c" 30 ].

(** Two entries that each declare 2^64 - 2^62 bytes. *)
Definition hugeZip : list FileHeader :=
  [ regularFile "x" (2 ^ 64 - 2 ^ 62); regularFile "y" (2 ^ 64 - 2 ^ 62) ].

Definition zipOf (File : list FileHeader) : Extractor :=
  zipExtractor utf8Always noDecode File false.

Definition flagsWith (limit : Z) (meta : bool) : Flag.t :=
  {| Flag.n := 2; Flag.diskLimit := limit; Flag.withMeta := meta;
     Flag.skipTop := false; Flag.oldWindows := false |}.

(** A world in which everything before the check of the largest entry
    succeeds. *)
Definition worldOf (src : string) (File : list FileHeader) : World :=
  {| nargs := 2; srcPath := Some src; destOk := true; clientOk := true;
     workDir := Some "/tmp/gcs-unzip1"; downloadOk := true; openOk := true;
     statOk := true; archive := Some File |}.


(** The state after the moves [acts], from the start of the pipeline; the
    start itself when some move of [acts] is not possible. *)
Definition runFrom (e : Extractor) (fl : Flag.t) (archiveName : string)
    (acts : list Action) : State :=
  match exec e fl archiveName acts (initState fl) with
  | Some st => st
  | None => initState fl
  end.

(** The producer stages the first file of [data.zip], creates the
    directory and stages the second file; the dispatcher starts a worker
    for the first job. *)
Definition dataMoves : list Action :=
  [ AProd true; AProd true; AProd true; AProd true; AProd true;
    AProd true; AProd true; AProd true; AProd true; AProd true;
    ADispRecv; ADispSpawn ].

(** The same, and the worker uploads, fails to remove the file, releases. *)
Definition dataMovesUploaded : list Action :=
  (dataMoves ++ [ AUpload 0 Succeeds; ARemove 0 false; ARelease 0 ])%list.

(** Staging the first file fails. *)
Definition failedStaging : list Action :=
  [ AProd true; AProd true; AProd true; AProd false ].

(** Both entries of [hugeZip] get their quota. *)
Definition hugeMoves : list Action :=
  [ AProd true; AProd true; AProd true; AProd true; AProd true;
    AProd true; AProd true ].

(** Three files are staged; two workers start; the first upload
    completes, the second fails and cancels the run; the third worker
    starts after that. *)
Definition cancelledRun : list Action :=
  [ AProd true;
    AProd true; AProd true; AProd true; AProd true;
    AProd true; AProd true; AProd true; AProd true;
    AProd true; AProd true; AProd true; AProd true;
    ADispRecv; ADispSpawn; ADispRecv; ADispSpawn; ADispRecv;
    AUpload 0 Succeeds;
    AUpload 1 CopyFails; ARemove 1 true; ARelease 1; AReturn 1;
    ADispSpawn; AUpload 2 Succeeds ].

(** The only entry of [junkZip] that is not junk is staged and handed to
    a worker. *)
Definition junkMoves : list Action :=
  [ AProd true; AProd true; AProd true; AProd true; AProd true;
    AProd true; AProd true; ADispRecv; ADispSpawn ].


(** Whether the first half of [run] got past the check of the largest
    entry. *)
Definition started (r : SetupResult) : bool :=
  match r with
  | SetupReady _ _ _ => true
  | SetupFailed _ _ | SetupPanic _ _ => false
  end.


(** *** The life of a job, read from a trace and from the workers *)

(** The entries an upload was attempted for, latest first. *)
Fixpoint uploadedOf (tr : list Event) : list nat :=
  match tr with
  | [] => []
  | EvUpload i _ :: tr' => i :: uploadedOf tr'
  | _ :: tr' => uploadedOf tr'
  end.

(** The entries whose temp file a worker tried to remove, latest first. *)
Fixpoint removedOf (tr : list Event) : list nat :=
  match tr with
  | [] => []
  | EvRemove i _ :: tr' => i :: removedOf tr'
  | _ :: tr' => removedOf tr'
  end.

Definition isClose (ev : Event) : bool :=
  match ev with
  | EvClose => true
  | _ => false
  end.

Definition isRemoveAll (ev : Event) : bool :=
  match ev with
  | EvRemoveAll => true
  | _ => false
  end.

(** No job is sent on the channel once it is closed. *)
Fixpoint sendsBeforeClose (tr : list Event) : Prop :=
  match tr with
  | [] => True
  | EvSend _ :: tr' => ~ In EvClose tr' /\ sendsBeforeClose tr'
  | _ :: tr' => sendsBeforeClose tr'
  end.

Definition anyPc (pc : WorkerPc) : bool := true.

Definition pastUpload (pc : WorkerPc) : bool :=
  match pc with
  | WUpload => false
  | _ => true
  end.

Definition pastRemove (pc : WorkerPc) : bool :=
  match pc with
  | WUpload | WRemove _ => false
  | _ => true
  end.

Definition pastRelease (pc : WorkerPc) : bool :=
  match pc with
  | WReturn _ | WExit => true
  | _ => false
  end.

Definition entryIf (p : WorkerPc -> bool) (job : uploadJob) (pc : WorkerPc) : list nat :=
  if p pc then [jobEntry job] else [].

(** The entries of the workers that stand at a place where [p] holds. *)
Definition entriesAt (p : WorkerPc -> bool) (ws : list Worker) : list nat :=
  flat_map (fun w => entryIf p (wjob w) (wpc w)) ws.

(** The producer has left its loop through [close(uploadJobCh)]. *)
Definition afterLoop (p : Producer) : bool :=
  match p with
  | PWait | PDone None | PDone (Some (ErrUploads _)) => true
  | _ => false
  end.

(** Inside the loop, the entries below this index have been dealt with. *)
Definition sentUpTo (p : Producer) : nat :=
  match p with
  | PTop i | PAcquire i | PDoomed i | PQueued i _ | PWrite i | PSend i => i
  | PStart | PWait | PDone _ => 0
  end.

Definition aliveWorkers (st : State) : Z :=
  Z.of_nat (List.length (filter alive (workers st))).

(** A worker that has returned either completed its upload, or the group
    has an error, or a release panicked. *)
Definition exitOK (tr : list Event) (g : option UploadError) (c : bool)
    (w : Worker) : Prop :=
  wpc w = WExit ->
  In (EvUpload (jobEntry (wjob w)) Completed) tr \/ g <> None \/ c = true.

Section Lifecycle.
Variable e : Extractor.
Variable fl : Flag.t.

(** Every job sent is in the channel, with the dispatcher or with a worker;
    every upload, removal and release in the trace is the one of a worker
    that has passed that point. *)
Record Life (st : State) : Prop := {
  life_sent : forall x,
    count_occ Nat.eq_dec (sentOf (trace st)) x
    = (count_occ Nat.eq_dec (map jobEntry (ch st)) x
       + count_occ Nat.eq_dec (heldD (disp st)) x
       + count_occ Nat.eq_dec (entriesAt anyPc (workers st)) x)%nat;
  life_up : forall x,
    count_occ Nat.eq_dec (uploadedOf (trace st)) x
    = count_occ Nat.eq_dec (entriesAt pastUpload (workers st)) x;
  life_rm : forall x,
    count_occ Nat.eq_dec (removedOf (trace st)) x
    = count_occ Nat.eq_dec (entriesAt pastRemove (workers st)) x;
  life_rel : forall x,
    count_occ Nat.eq_dec (releasedOf (trace st)) x
    = count_occ Nat.eq_dec (entriesAt pastRelease (workers st)) x
}.

(** How the producer, the dispatcher, the cancellation and the error of the
    group depend on each other. *)
Record Flow (st : State) : Prop := {
  flow_idle : disp st = DIdle -> prod st = PStart;
  flow_start : prod st = PStart -> workers st = [];
  flow_closed : closed st = afterLoop (prod st);
  flow_close_ev : countEv isClose (trace st) = if closed st then 1%nat else 0%nat;
  flow_removeall :
    countEv isRemoveAll (trace st)
    = match prod st with PDone _ => 1%nat | _ => 0%nat end;
  flow_order : sendsBeforeClose (trace st);
  flow_cancel : cancelled st = true -> gerr st <> None \/ prod st = PDone None;
  flow_skip : forall i, In (EvUpload i Skipped) (trace st) -> gerr st <> None;
  flow_waited : forall r,
    prod st = PDone r -> afterLoop (PDone r) = true ->
    r = option_map ErrUploads (gerr st) /\ disp st = DExit
    /\ Forall (fun w => wpc w = WExit) (workers st) /\ crashed st = false;
  flow_exit : Forall (exitOK (trace st) (gerr st) (crashed st)) (workers st);
  flow_dexit : disp st = DExit -> gerr st <> None \/ (closed st = true /\ ch st = []);
  flow_upto : forall j,
    (j < sentUpTo (prod st))%nat -> isJob e fl j = true -> In j (sentOf (trace st));
  flow_all :
    afterLoop (prod st) = true -> gerr st = None ->
    forall j, (j < Files e)%nat -> isJob e fl j = true -> In j (sentOf (trace st))
}.

(** The bound on the goroutines of the group when the limit is not negative:
    the dispatcher holds one of the places while it runs, and is the only one
    to start a worker. *)
Definition Conc (st : State) : Prop :=
  0 <= limit fl ->
  aliveWorkers st <= Z.max 0 (limit fl - 1)
  /\ active st <= limit fl
  /\ (limit fl <= 1 -> workers st = []).

End Lifecycle.



(** *** More runs, for the examples *)

(** [data.zip] from the first move to the return of [run]: both files are
    staged, the channel is closed, each job is uploaded by a worker of its
    own, the dispatcher sees the closed channel and [Wait] returns. *)
Definition completeRun : list Action :=
  (dataMoves
   ++ [ AProd true;
        AUpload 0 Succeeds; ARemove 0 true; ARelease 0; AReturn 0;
        ADispRecv; ADispSpawn;
        AUpload 1 Succeeds; ARemove 1 true; ARelease 1; AReturn 1;
        ADispRecv; AProd true ])%list.

(** [cancelledRun] to its end: the skipped worker and the first one
    return, the dispatcher sees the cancellation, [Wait] returns the
    error. *)
Definition cancelledRunToEnd : list Action :=
  (cancelledRun
   ++ [ ARemove 2 true; ARelease 2; AReturn 2;
        ARemove 0 true; ARelease 0; AReturn 0;
        ADispDone; AProd true; AProd true ])%list.

(** The flags of [flagsWith], with [-n] given. *)
Definition flagsN (n limit : Z) : Flag.t :=
  {| Flag.n := n; Flag.diskLimit := limit; Flag.withMeta := false;
     Flag.skipTop := false; Flag.oldWindows := false |}.

(** With [-n 0]: both files are staged and the channel closed; the
    dispatcher has received the first job. *)
Definition stuckMoves : list Action :=
  [ AProd true; AProd true; AProd true; AProd true; AProd true;
    AProd true; AProd true; AProd true; AProd true; AProd true;
    AProd true; ADispRecv ].

(** An archive whose files all lie below a directory named as the
    archive, and the flags with [-skip-top]. *)
Definition topZip : list FileHeader :=
  [ directory "top/"; regularFile "top/a.txt" 10; regularFile "top/b/c.txt" 20 ].

Definition flagsSkipTop : Flag.t :=
  {| Flag.n := 2; Flag.diskLimit := 1000; Flag.withMeta := false;
     Flag.skipTop := true; Flag.oldWindows := false |}.


(** * Properties *)

(** ** [bytesValue] *)

Example set_10gb : bytesValue_Set (fun s => s) "10GB" = SetOk 10737418240.
Proof. vm_compute. reflexivity. Qed.

Example set_50g : bytesValue_Set (fun s => s) "50g" = SetOk (50 * 1024 * 1024 * 1024).
Proof. vm_compute. reflexivity. Qed.

Example set_plain : bytesValue_Set (fun s => s) "512" = SetOk 512.
Proof. vm_compute. reflexivity. Qed.

Example set_bad : bytesValue_Set (fun s => s) "1.5g" = SetError "1.5g" Strconv.ErrSyntax.
Proof. vm_compute. reflexivity. Qed.

Example set_empty : bytesValue_Set (fun s => s) "" = SetError "" Strconv.ErrSyntax.
Proof. vm_compute. reflexivity. Qed.

Example set_range :
  bytesValue_Set (fun s => s) "18446744073709551616"
  = SetError "18446744073709551616" Strconv.ErrRange.
Proof. vm_compute. reflexivity. Qed.

Example set_max :
  bytesValue_Set (fun s => s) "18446744073709551615" = SetOk 18446744073709551615.
Proof. vm_compute. reflexivity. Qed.

Example string_50g : bytesString (50 * 1024 * 1024 * 1024) = "50g".
Proof. vm_compute. reflexivity. Qed.

Example string_30 : bytesString 30 = "30b".
Proof. vm_compute. reflexivity. Qed.

Example string_0 : bytesString 0 = "0".
Proof. vm_compute. reflexivity. Qed.

Lemma substring_zero_length (s : string) (k : nat) : substring k 0 s = "".
Proof.
  revert k. induction s as [|c s IH]; intros [|k]; simpl; auto.
Qed.

Lemma HasSuffix_empty (x : string) : Strings.HasSuffix x "" = true.
Proof.
  unfold Strings.HasSuffix, Strings.slice. simpl.
  rewrite Nat.sub_0_r, Nat.sub_diag, substring_zero_length. reflexivity.
Qed.

(** The loop of [Set] stops at the first unit of the list whose suffix
    matches. *)
Lemma setLoop_first_match (s x : string) (us : list bytesUnit) :
  (exists u, In u us /\ Strings.HasSuffix x (suffix u) = true) ->
  exists pre u post,
    us = (pre ++ u :: post)%list
    /\ Forall (fun u' => Strings.HasSuffix x (suffix u') = false) pre
    /\ Strings.HasSuffix x (suffix u) = true
    /\ setLoop s x us =
       match Strconv.ParseUint (Strings.TrimSuffix x (suffix u)) with
       | inr err => SetError s err
       | inl v => SetOk (wrapU64 (v * value u))
       end.
Proof.
  induction us as [|u0 us IH]; intros [u [Hin Hu]].
  - destruct Hin.
  - destruct (Strings.HasSuffix x (suffix u0)) eqn:H0.
    + exists [], u0, us. simpl. rewrite H0. simpl. auto.
    + destruct Hin as [->|Hin]; [congruence|].
      destruct IH as (pre & u1 & post & -> & Hpre & H1 & Heq); [eauto|].
      exists (u0 :: pre), u1, post. simpl. rewrite H0. simpl. auto.
Qed.

Lemma setLoop_stored (s1 s2 x : string) (us : list bytesUnit) :
  stored (setLoop s1 x us) = stored (setLoop s2 x us).
Proof.
  induction us as [|u us IH]; simpl; auto.
  destruct (Strings.HasSuffix x (suffix u)); simpl; auto.
  destruct (Strconv.ParseUint _); reflexivity.
Qed.

(** C10 (as amended): [bytesValue.Set] never reaches its [panic]. It
    lower-cases the input, takes the first entry of [bytesUnits], in the
    order of the table, whose suffix ends the lower-cased input (the empty
    suffix of the last entry ends every string), and either returns the
    error of [ParseUint] on the rest or stores the parsed number times the
    value of that unit, which is the exact product whenever the product
    fits 64 bits. Two inputs with the same lower-cased form store the same
    value. *)
Theorem bytesValue_Set_total (unicodeLower : string -> string) (s : string) :
  let x := Strings.ToLower unicodeLower s in
  bytesValue_Set unicodeLower s <> SetPanic
  /\ (exists pre u post,
        bytesUnits = (pre ++ u :: post)%list
        /\ Forall (fun u' => Strings.HasSuffix x (suffix u') = false) pre
        /\ Strings.HasSuffix x (suffix u) = true
        /\ match Strconv.ParseUint (Strings.TrimSuffix x (suffix u)) with
           | inr err => bytesValue_Set unicodeLower s = SetError s err
           | inl v =>
               bytesValue_Set unicodeLower s = SetOk (wrapU64 (v * value u))
               /\ (0 <= v * value u < 2 ^ 64 ->
                   bytesValue_Set unicodeLower s = SetOk (v * value u))
           end)
  /\ (forall s', Strings.ToLower unicodeLower s' = x ->
        stored (bytesValue_Set unicodeLower s') = stored (bytesValue_Set unicodeLower s)).
Proof.
  intros x.
  assert (Hex : exists u, In u bytesUnits /\ Strings.HasSuffix x (suffix u) = true).
  { exists {| suffix := ""; value := 1 |}. split.
    - unfold bytesUnits. simpl. tauto.
    - apply HasSuffix_empty. }
  destruct (setLoop_first_match s x bytesUnits Hex) as (pre & u & post & Hsplit & Hpre & Hu & Heq).
  fold x in Heq. unfold bytesValue_Set. fold x.
  split; [|split].
  - rewrite Heq. destruct (Strconv.ParseUint _); discriminate.
  - exists pre, u, post. repeat split; auto.
    destruct (Strconv.ParseUint _) as [v|err]; auto.
    split; auto. intros Hfit. rewrite Heq. unfold wrapU64.
    rewrite Z.mod_small; auto.
  - intros s' Hs'. rewrite Hs'. apply setLoop_stored.
Qed.

(** C10 (as stated) fails twice: the table tries [k] (1024) before [gb]
    (2^30), and a product that does not fit 64 bits is stored reduced
    modulo 2^64. *)
Lemma bytesValue_Set_not_as_stated :
  (exists u1 u2,
      nth_error bytesUnits 2 = Some u1 /\ nth_error bytesUnits 3 = Some u2
      /\ value u1 < value u2)
  /\ bytesValue_Set (fun s => s) "18014398509481984k" = SetOk 0
  /\ 18014398509481984 * 1024 <> 0.
Proof.
  split; [|split].
  - eexists _, _. split; [reflexivity|]. split; [reflexivity|]. vm_compute. reflexivity.
  - vm_compute. reflexivity.
  - lia.
Qed.

(** ** [isIgnoreMeta] *)

Example ignore_macosx_resource : isIgnoreMeta "__MACOSX/resource" = true.
Proof. vm_compute. reflexivity. Qed.

Example ignore_thumbs : isIgnoreMeta "photos/Thumbs.db" = true.
Proof. vm_compute. reflexivity. Qed.

Example keep_real_file : isIgnoreMeta "photos/a.txt" = false.
Proof. vm_compute. reflexivity. Qed.

Example keep_thumbs_directory : isIgnoreMeta "Thumbs.db/x" = false.
Proof. vm_compute. reflexivity. Qed.

Example ignore_macosx_directory : isIgnoreMeta "a/__MACOSX/" = true.
Proof. vm_compute. reflexivity. Qed.

Lemma length_substring_le (s : string) (k m : nat) :
  (length (substring k m s) <= m)%nat.
Proof.
  revert k m. induction s as [|c s IH]; intros [|k] [|m]; simpl; try lia.
  - specialize (IH 0%nat m). lia.
  - apply (IH k 0%nat).
  - apply (IH k (S m)).
Qed.

Lemma substring_all (s : string) : substring 0 (length s) s = s.
Proof.
  induction s as [|c s IH]; simpl; [reflexivity|]. rewrite IH. reflexivity.
Qed.

Lemma Index_slash_cons (c : ascii) (s : string) :
  Strings.Index (String c s) PathSeparator
  = if Ascii.eqb c Path.slash then Some 0%nat
    else option_map S (Strings.Index s PathSeparator).
Proof.
  unfold PathSeparator, Path.slash. cbn [Strings.Index Strings.HasPrefix].
  rewrite (Ascii.eqb_sym "/"%char c).
  destruct (Ascii.eqb c "/"%char); cbn [andb]; [|reflexivity].
  destruct s; reflexivity.
Qed.

Lemma splitSlash_not_nil (s : string) : Path.splitSlash s <> [].
Proof.
  induction s as [|c s IH]; simpl; [discriminate|].
  destruct (Ascii.eqb c Path.slash); [discriminate|].
  destruct (Path.splitSlash s); discriminate.
Qed.

(** [Cut] on the separator takes the first component of [Split] off. *)
Lemma Cut_splitSlash (s : string) :
  match Strings.Cut s PathSeparator with
  | (n, after, true) => Path.splitSlash s = n :: Path.splitSlash after
                        /\ (length after < length s)%nat
  | (n, _, false) => n = s /\ Path.splitSlash s = [s]
  end.
Proof.
  unfold Strings.Cut.
  induction s as [|c s IH].
  - simpl. auto.
  - rewrite Index_slash_cons. simpl Path.splitSlash.
    destruct (Ascii.eqb c Path.slash) eqn:Hc.
    + unfold Strings.slice. simpl. rewrite Nat.sub_0_r.
      split; [|apply Nat.lt_succ_r, length_substring_le].
      rewrite substring_all. reflexivity.
    + destruct (Strings.Index s PathSeparator) as [k|]; simpl.
      * destruct IH as [IH1 IH2]. unfold Strings.slice in *. simpl.
        rewrite Nat.sub_0_r in *. rewrite IH1. split; [reflexivity|].
        simpl in IH2. lia.
      * destruct IH as [_ IH]. rewrite IH. auto.
Qed.

Lemma junkComps_cons (n : string) (comps : list string) :
  comps <> [] ->
  junkComps (n :: comps) = String.eqb n "__MACOSX" || junkComps comps.
Proof.
  intros Hne. unfold junkComps. destruct comps as [|c comps]; [congruence|].
  cbn [removelast last existsb]. rewrite (String.eqb_sym n "__MACOSX").
  rewrite <- orb_assoc. reflexivity.
Qed.

Lemma isIgnoreMetaLoop_junkComps (fuel : nat) (rest : string) :
  (length rest < fuel)%nat ->
  isIgnoreMetaLoop fuel rest = junkComps (Path.splitSlash rest).
Proof.
  revert rest. induction fuel as [|fuel IH]; intros rest Hlen; [lia|].
  cbn [isIgnoreMetaLoop].
  destruct (String.eqb rest "") eqn:Hempty.
  - apply String.eqb_eq in Hempty. subst. reflexivity.
  - pose proof (Cut_splitSlash rest) as Hcut.
    destruct (Strings.Cut rest PathSeparator) as [[n after] found].
    destruct found; cbn [negb].
    + destruct Hcut as [Hsplit Hshort]. rewrite Hsplit.
      rewrite junkComps_cons by apply splitSlash_not_nil.
      destruct (String.eqb n "__MACOSX"); [reflexivity|].
      cbn [orb]. apply IH. lia.
    + destruct Hcut as [-> Hsplit]. rewrite Hsplit. unfold junkComps.
      cbn [removelast last existsb orb].
      rewrite orb_false_r, orb_assoc. reflexivity.
Qed.

(** The loop of the source, one round unfolded: the fuel never runs out. *)
Lemma isIgnoreMeta_unfold (name : string) :
  isIgnoreMeta name =
  if String.eqb name "" then false
  else
    let '(n, after, found) := Strings.Cut name PathSeparator in
    if negb found then
      String.eqb n ".DS_Store" || String.eqb n "Thumbs.db" || String.eqb n "__MACOSX"
    else if String.eqb n "__MACOSX" then true
    else isIgnoreMeta after.
Proof.
  unfold isIgnoreMeta at 1. cbn [isIgnoreMetaLoop].
  destruct (String.eqb name ""); [reflexivity|].
  pose proof (Cut_splitSlash name) as Hcut.
  destruct (Strings.Cut name PathSeparator) as [[n after] found].
  destruct found; cbn [negb]; [|reflexivity].
  destruct (String.eqb n "__MACOSX"); [reflexivity|].
  destruct Hcut as [_ Hshort]. unfold isIgnoreMeta.
  rewrite !isIgnoreMetaLoop_junkComps by lia. reflexivity.
Qed.

Lemma isIgnoreMeta_junkBySpec (name : string) :
  isIgnoreMeta name = junkBySpec name.
Proof.
  unfold isIgnoreMeta. rewrite isIgnoreMetaLoop_junkComps by lia. reflexivity.
Qed.

(** ** The pipeline: list lemmas *)

Lemma nth_error_updNth {A : Type} (f : A -> A) (l : list A) (k m : nat) :
  nth_error (updNth k f l) m
  = if (m =? k)%nat then option_map f (nth_error l m) else nth_error l m.
Proof.
  revert k m. induction l as [|x l IH]; intros k m.
  - destruct k, m; simpl; try reflexivity; destruct (_ =? _)%nat; reflexivity.
  - destruct k, m; simpl; try reflexivity. apply IH.
Qed.

Lemma length_updNth {A : Type} (f : A -> A) (l : list A) (k : nat) :
  List.length (updNth k f l) = List.length l.
Proof.
  revert k. induction l as [|x l IH]; intros [|k]; simpl; auto.
Qed.

Lemma Forall_updNth {A : Type} (P : A -> Prop) (f : A -> A) (l : list A) (k : nat) :
  Forall P l ->
  (forall x, nth_error l k = Some x -> P x -> P (f x)) ->
  Forall P (updNth k f l).
Proof.
  revert k. induction l as [|x l IH]; intros [|k] Hl Hf; simpl; auto;
    inversion Hl; subst; constructor; auto.
Qed.

Lemma count_flat_map_updNth {A : Type} (h : A -> list nat) (f : A -> A)
    (l : list A) (k : nat) (w : A) (x : nat) :
  nth_error l k = Some w ->
  (count_occ Nat.eq_dec (flat_map h (updNth k f l)) x
   + count_occ Nat.eq_dec (h w) x
   = count_occ Nat.eq_dec (flat_map h l) x
     + count_occ Nat.eq_dec (h (f w)) x)%nat.
Proof.
  revert k. induction l as [|y l IH]; intros [|k] Hk; simpl in *; try discriminate.
  - inversion Hk; subst. rewrite !count_occ_app. lia.
  - rewrite !count_occ_app. specialize (IH k Hk). lia.
Qed.

Lemma sumZ_app (l1 l2 : list Z) : sumZ (l1 ++ l2) = sumZ l1 + sumZ l2.
Proof.
  induction l1 as [|x l1 IH]; simpl; lia.
Qed.

Lemma sum_flat_map_updNth {A : Type} (h : A -> list nat) (g : nat -> Z) (f : A -> A)
    (l : list A) (k : nat) (w : A) :
  nth_error l k = Some w ->
  sumZ (map g (flat_map h (updNth k f l))) + sumZ (map g (h w))
  = sumZ (map g (flat_map h l)) + sumZ (map g (h (f w))).
Proof.
  revert k. induction l as [|y l IH]; intros [|k] Hk; simpl in *; try discriminate.
  - inversion Hk; subst. rewrite !map_app, !sumZ_app. lia.
  - rewrite !map_app, !sumZ_app. specialize (IH k Hk). lia.
Qed.

Lemma sumZ_permutation (l1 l2 : list Z) : Permutation l1 l2 -> sumZ l1 = sumZ l2.
Proof.
  induction 1; simpl; lia.
Qed.

Lemma memNat_In (i : nat) (l : list nat) : memNat i l = true <-> In i l.
Proof.
  unfold memNat. rewrite existsb_exists. split.
  - intros [x [Hin Heq]]. apply Nat.eqb_eq in Heq. subst. assumption.
  - intros Hin. exists i. split; [assumption|apply Nat.eqb_refl].
Qed.

(** A duplicate-free list of acquisitions, each either released or held:
    what is acquired and not released is what is held. *)
Lemma outstanding_permutation (A R H : list nat) :
  NoDup A ->
  (forall x, count_occ Nat.eq_dec A x
             = (count_occ Nat.eq_dec R x + count_occ Nat.eq_dec H x)%nat) ->
  Permutation (filter (fun i => negb (memNat i R)) A) H.
Proof.
  intros Hnd Hcount.
  apply (Permutation_count_occ Nat.eq_dec). intros x.
  pose proof (proj1 (NoDup_count_occ Nat.eq_dec A) Hnd x) as Hle.
  specialize (Hcount x).
  destruct (memNat x R) eqn:Hmem.
  - assert (count_occ Nat.eq_dec R x > 0)%nat
      by (apply count_occ_In, memNat_In; assumption).
    assert (Hnot : ~ In x (filter (fun i => negb (memNat i R)) A)).
    { rewrite filter_In. intros [_ Hx]. rewrite Hmem in Hx. discriminate. }
    apply (count_occ_not_In Nat.eq_dec) in Hnot. lia.
  - assert (Hnot : ~ In x R).
    { intros Hin. apply memNat_In in Hin. congruence. }
    apply (count_occ_not_In Nat.eq_dec) in Hnot.
    rewrite Hnot in Hcount. simpl in Hcount. rewrite <- Hcount.
    clear Hcount Hle Hnd Hnot.
    induction A as [|a A IH]; simpl; auto.
    destruct (memNat a R) eqn:Ha; simpl.
    + destruct (Nat.eq_dec a x); [subst; congruence|assumption].
    + destruct (Nat.eq_dec a x); simpl; auto.
Qed.

(** ** The pipeline: the invariant *)

Ltac simpl_state :=
  cbn [prod ch closed disp workers sem cancelled gerr count crashed trace
       setProd setCh setClosed setDisp setWorkers setSem setCancelled setGerr
       setCount setCrashed pushEv finish closeCh setWorkerPc] in *.

Ltac step_cases H :=
  unfold step, stepProd, stepDispDone, stepDispRecv, stepDispSpawn, stepUpload,
    stepRemove, stepRelease, stepReturn, upload in H;
  cbv beta iota delta [local] in H;
  repeat match type of H with
         | context [match ?x with _ => _ end] => destruct x eqn:?
         end;
  try discriminate; injection H as <-; simpl_state;
  repeat match goal with
         | Heq : prod ?st = _ |- context [prod ?st] => rewrite Heq
         | Heq : disp ?st = _ |- context [disp ?st] => rewrite Heq
         | Heq : ch ?st = _ |- context [ch ?st] => rewrite Heq
         | Heq : gerr ?st = _ |- context [gerr ?st] => rewrite Heq
         end.

Ltac norm_hyps :=
  repeat match goal with
         | H : (_ <=? _)%nat = true |- _ => apply Nat.leb_le in H
         | H : (_ <=? _)%nat = false |- _ => apply Nat.leb_gt in H
         | H : (_ <? _)%nat = true |- _ => apply Nat.ltb_lt in H
         | H : (_ <? _)%nat = false |- _ => apply Nat.ltb_ge in H
         | H : _ /\ _ |- _ => destruct H
         end.

Ltac destruct_inv H :=
  destruct H as [inv_start inv_pos inv_ch inv_disp inv_workers inv_trace
                 inv_acq_bound inv_acq_nodup inv_sent_bound inv_sent_nodup
                 inv_ch_len inv_held inv_waiters inv_size inv_count inv_gerr
                 inv_order].

Section PipelineInvariant.
Variable e : Extractor.
Variable fl : Flag.t.
Variable archiveName : string.

Lemma jobOK_jobOf (i : nat) :
  (i < Files e)%nat -> isJob e fl i = true -> jobOK e fl archiveName (jobOf e fl archiveName i).
Proof.
  intros Hlt Hjob. unfold jobOK. simpl. auto.
Qed.

Lemma isJob_inv (i : nat) :
  isJob e fl i = true <-> skipMeta fl (FileName e i) = false /\ IsDir e i = false.
Proof.
  unfold isJob. rewrite andb_true_iff, !negb_true_iff. tauto.
Qed.

Lemma step_pos (a : Action) (st st' : State) :
  Inv e fl archiveName st -> step e fl archiveName a st = Some st' ->
  posOK e fl (prod st').
Proof.
  intros Hinv0 Hstep. destruct_inv Hinv0. step_cases Hstep; cbn [posOK] in *; norm_hyps;
    auto; try lia; try (split; [lia|apply isJob_inv; auto]).
  destruct (gerr st); exact I.
Qed.

Lemma step_ch (a : Action) (st st' : State) :
  Inv e fl archiveName st -> step e fl archiveName a st = Some st' ->
  Forall (jobOK e fl archiveName) (ch st').
Proof.
  intros Hinv0 Hstep. destruct_inv Hinv0. step_cases Hstep; auto.
  - apply Forall_app. split; auto. constructor; auto.
    cbn [posOK] in *. apply jobOK_jobOf; tauto.
  - inversion inv_ch; auto.
Qed.

Lemma step_disp (a : Action) (st st' : State) :
  Inv e fl archiveName st -> step e fl archiveName a st = Some st' ->
  match disp st' with DSpawn job => jobOK e fl archiveName job | _ => True end.
Proof.
  intros Hinv0 Hstep. destruct_inv Hinv0. step_cases Hstep; auto.
  inversion inv_ch; auto.
Qed.

Lemma workerOK_incl (tr tr' : list Event) (w : Worker) :
  incl tr tr' ->
  workerOK e fl archiveName tr w -> workerOK e fl archiveName tr' w.
Proof.
  unfold workerOK. intros Hincl [Hjob Hpc]. split; auto.
  destruct (wpc w); auto.
  - destruct Hpc as [Hup Hrm]. split; auto.
    intros Hl. destruct (Hrm Hl) as [ok Hin]. exists ok. auto.
  - destruct Hpc as [Hup Hrm]. split; auto.
    intros Hl. destruct (Hrm Hl) as [ok Hin]. exists ok. auto.
Qed.

Lemma workersOK_incl (tr tr' : list Event) (ws : list Worker) :
  incl tr tr' ->
  Forall (workerOK e fl archiveName tr) ws ->
  Forall (workerOK e fl archiveName tr') ws.
Proof.
  intros Hincl H. eapply Forall_impl; [|exact H].
  intros w. apply workerOK_incl. assumption.
Qed.

Lemma workersOK_upd (tr tr' : list Event) (ws : list Worker) (k : nat)
    (w : Worker) (pc : WorkerPc) :
  incl tr tr' ->
  Forall (workerOK e fl archiveName tr) ws ->
  nth_error ws k = Some w ->
  (workerOK e fl archiveName tr w ->
   workerOK e fl archiveName tr' {| wjob := wjob w; wpc := pc |}) ->
  Forall (workerOK e fl archiveName tr')
         (updNth k (fun w0 => {| wjob := wjob w0; wpc := pc |}) ws).
Proof.
  intros Hincl Hall Hk Hnew. apply Forall_updNth.
  - apply (workersOK_incl tr); assumption.
  - intros x Hx _. rewrite Hk in Hx. injection Hx as <-. apply Hnew.
    rewrite Forall_forall in Hall. apply Hall. eapply nth_error_In. eassumption.
Qed.

Ltac incl_tac := intros ? ?; simpl; tauto.

Lemma step_workers (a : Action) (st st' : State) :
  Inv e fl archiveName st -> step e fl archiveName a st = Some st' ->
  Forall (workerOK e fl archiveName (trace st')) (workers st').
Proof.
  intros Hinv0 Hstep. destruct_inv Hinv0. step_cases Hstep; auto;
    try (apply (workersOK_incl (trace st)); [incl_tac|assumption]);
    try (apply Forall_app; split;
         [ apply (workersOK_incl (trace st)); [incl_tac|assumption]
         | constructor; [|constructor]; split; simpl; auto ]);
    try (eapply (workersOK_upd (trace st)); [incl_tac|assumption|eassumption|];
         unfold workerOK; cbn [wjob wpc];
         match goal with H : wpc _ = _ |- _ => rewrite H end;
         intros [Hjob Hpc]; (split; [assumption|]); simpl; auto; try tauto;
         try (split; [tauto|]; intros Hl;
              first [ destruct Hpc as [_ Hrm]; destruct (Hrm Hl) as [ok' Hin];
                      exists ok'; simpl; tauto
                    | eexists; simpl; eauto 6 ])).
Qed.

Lemma evOK_job (job : uploadJob) :
  jobOK e fl archiveName job ->
  (jobEntry job < Files e)%nat /\ isJob e fl (jobEntry job) = true.
Proof.
  unfold jobOK. tauto.
Qed.

Lemma evOK_worker (tr : list Event) (ws : list Worker) (k : nat) (w : Worker) :
  Forall (workerOK e fl archiveName tr) ws -> nth_error ws k = Some w ->
  (jobEntry (wjob w) < Files e)%nat /\ isJob e fl (jobEntry (wjob w)) = true.
Proof.
  intros Hall Hk. rewrite Forall_forall in Hall.
  destruct (Hall w) as [Hjob _]; [eapply nth_error_In; eassumption|].
  apply evOK_job. assumption.
Qed.

Lemma step_trace (a : Action) (st st' : State) :
  Inv e fl archiveName st -> step e fl archiveName a st = Some st' ->
  Forall (evOK e fl) (trace st').
Proof.
  intros Hinv0 Hstep. destruct_inv Hinv0. step_cases Hstep; auto;
    repeat (constructor; auto); cbn [evOK posOK] in *; norm_hyps; auto;
    try (eapply evOK_worker; eassumption);
    try (apply evOK_job; inversion inv_ch; assumption);
    try (apply evOK_job; assumption).
Qed.

Lemma Forall_lt_le (b b' : nat) (l : list nat) :
  (b <= b')%nat -> Forall (fun j => (j < b)%nat) l -> Forall (fun j => (j < b')%nat) l.
Proof.
  intros Hle H. eapply Forall_impl; [|exact H]. simpl. intros. lia.
Qed.

Lemma step_acq_bound (a : Action) (st st' : State) :
  Inv e fl archiveName st -> step e fl archiveName a st = Some st' ->
  Forall (fun j => (j < acqBound e (prod st'))%nat) (acquiredOf (trace st')).
Proof.
  intros Hinv0 Hstep. destruct_inv Hinv0. step_cases Hstep; auto;
    cbn [acquiredOf acqBound posOK] in *; norm_hyps; auto;
    try (constructor; [lia|]);
    try (eapply Forall_lt_le; [|eassumption]; lia).
Qed.

Lemma Forall_lt_not_In (b : nat) (l : list nat) :
  Forall (fun j => (j < b)%nat) l -> ~ In b l.
Proof.
  rewrite Forall_forall. intros H Hin. specialize (H b Hin). lia.
Qed.

Lemma step_acq_nodup (a : Action) (st st' : State) :
  Inv e fl archiveName st -> step e fl archiveName a st = Some st' ->
  NoDup (acquiredOf (trace st')).
Proof.
  intros Hinv0 Hstep. destruct_inv Hinv0. step_cases Hstep; auto;
    cbn [acquiredOf acqBound] in *; auto;
    constructor; auto; apply Forall_lt_not_In; assumption.
Qed.

Lemma step_sent_bound (a : Action) (st st' : State) :
  Inv e fl archiveName st -> step e fl archiveName a st = Some st' ->
  Forall (fun j => (j < sendBound e (prod st'))%nat) (sentOf (trace st')).
Proof.
  intros Hinv0 Hstep. destruct_inv Hinv0. step_cases Hstep; auto;
    cbn [sentOf sendBound posOK] in *; norm_hyps; auto;
    try (constructor; [lia|]);
    try (eapply Forall_lt_le; [|eassumption]; lia).
Qed.

Lemma step_sent_nodup (a : Action) (st st' : State) :
  Inv e fl archiveName st -> step e fl archiveName a st = Some st' ->
  NoDup (sentOf (trace st')).
Proof.
  intros Hinv0 Hstep. destruct_inv Hinv0. step_cases Hstep; auto;
    cbn [sentOf sendBound] in *; auto;
    constructor; auto; apply Forall_lt_not_In; assumption.
Qed.

Lemma step_ch_len (a : Action) (st st' : State) :
  Inv e fl archiveName st -> step e fl archiveName a st = Some st' ->
  (List.length (ch st') <= List.length (sentOf (trace st')))%nat.
Proof.
  intros Hinv0 Hstep. destruct_inv Hinv0. step_cases Hstep; auto;
    cbn [sentOf] in *; rewrite ?length_app; simpl in *; try lia.
Qed.

Lemma step_start (a : Action) (st st' : State) :
  Inv e fl archiveName st -> step e fl archiveName a st = Some st' ->
  prod st' = PStart -> disp st' = DIdle.
Proof.
  intros Hinv0 Hstep. destruct_inv Hinv0. step_cases Hstep; auto; try discriminate;
    intros Hp; specialize (inv_start Hp); congruence.
Qed.

Lemma count_held_setPc (ws : list Worker) (k : nat) (w : Worker) (pc : WorkerPc) (x : nat) :
  nth_error ws k = Some w ->
  (count_occ Nat.eq_dec
     (flat_map heldW (updNth k (fun w0 => {| wjob := wjob w0; wpc := pc |}) ws)) x
   + count_occ Nat.eq_dec (heldAt (wjob w) (wpc w)) x
   = count_occ Nat.eq_dec (flat_map heldW ws) x
     + count_occ Nat.eq_dec (heldAt (wjob w) pc) x)%nat.
Proof.
  intros Hk.
  apply (count_flat_map_updNth heldW (fun w0 => {| wjob := wjob w0; wpc := pc |}) ws k w x Hk).
Qed.

Lemma step_held (a : Action) (st st' : State) :
  Inv e fl archiveName st -> step e fl archiveName a st = Some st' ->
  forall x,
    count_occ Nat.eq_dec (acquiredOf (trace st')) x
    = (count_occ Nat.eq_dec (releasedOf (trace st')) x
       + count_occ Nat.eq_dec (held st') x)%nat.
Proof.
  intros Hinv0 Hstep x. destruct_inv Hinv0. specialize (inv_held x). unfold held in *.
  step_cases Hstep; auto;
    try match goal with
        | Hk : nth_error (workers ?s) ?k = Some ?w
          |- context [updNth ?k (fun w0 => {| wjob := wjob w0; wpc := ?pc |}) _] =>
            pose proof (count_held_setPc (workers s) k w pc x Hk) as Hupd
        end;
    repeat match goal with
           | Heq : wpc _ = _ |- _ => rewrite Heq in Hupd; clear Heq
           end;
    try (pose proof (inv_start eq_refl) as Hidle; rewrite Hidle in * );
    try match goal with
        | |- context [option_map ErrUploads (gerr ?s)] => destruct (gerr s)
        end;
    rewrite ?map_app, ?flat_map_app in *;
    cbn [acquiredOf releasedOf heldP heldD option_map] in *;
    rewrite ?count_occ_app in *;
    cbn [heldW heldAt wjob wpc map flat_map app jobOf jobEntry count_occ] in *;
    repeat match goal with
           | |- context [Nat.eq_dec ?u ?v] => destruct (Nat.eq_dec u v)
           | H : context [Nat.eq_dec ?u ?v] |- _ => destruct (Nat.eq_dec u v)
           end;
    try lia.
Qed.

Lemma Acquire_waiters (s : Semaphore.Weighted) (n : Z) :
  match Semaphore.Acquire s n with
  | Semaphore.Granted s' => Semaphore.waiters s' = Semaphore.waiters s
  | Semaphore.Doomed => True
  | Semaphore.Enqueued s' => Semaphore.waiters s' = (Semaphore.waiters s ++ [n])%list
  end.
Proof.
  unfold Semaphore.Acquire.
  destruct (_ && _); [reflexivity|]. destruct (_ <? _); reflexivity.
Qed.

Lemma Release_waiters (s : Semaphore.Weighted) (n : Z) :
  match Semaphore.Release s n with
  | Semaphore.ReleasePanic s' => Semaphore.waiters s' = Semaphore.waiters s
  | Semaphore.Released s' k =>
      match Semaphore.waiters s with
      | [] => Semaphore.waiters s' = [] /\ k = O
      | [w] => (k = O /\ Semaphore.waiters s' = [w])
               \/ (k = 1%nat /\ Semaphore.waiters s' = [])
      | _ => True
      end
  end.
Proof.
  unfold Semaphore.Release, Semaphore.notifyWaiters. cbn [Semaphore.cur Semaphore.size Semaphore.waiters].
  destruct (_ <? 0); [reflexivity|].
  destruct (Semaphore.waiters s) as [|w [|w' ws]].
  - cbn. auto.
  - cbn [Semaphore.notifyLoop]. destruct (_ <? w); cbn; auto.
  - destruct (Semaphore.notifyLoop _ _ _) as [[c rest] k]. exact I.
Qed.

Lemma cancelFront_waiters (s : Semaphore.Weighted) (w : Z) :
  Semaphore.waiters s = [w] -> Semaphore.waiters (Semaphore.cancelFront s) = [].
Proof.
  intros Hw. unfold Semaphore.cancelFront, Semaphore.notifyWaiters.
  rewrite Hw. cbn. destruct (_ <? _); reflexivity.
Qed.

Lemma step_waiters (a : Action) (st st' : State) :
  Inv e fl archiveName st -> step e fl archiveName a st = Some st' ->
  Semaphore.waiters (sem st')
  = match prod st' with
    | PQueued i false => [toInt64 (FileSize e i)]
    | _ => []
    end.
Proof.
  intros Hinv0 Hstep. destruct_inv Hinv0. step_cases Hstep; auto;
    try match goal with
        | |- context [option_map ErrUploads (gerr ?s)] => destruct (gerr s)
        end; auto;
    try (eapply cancelFront_waiters; eassumption);
    try match goal with
        | Heq : Semaphore.Acquire ?s ?n = _ |- _ =>
            pose proof (Acquire_waiters s n) as Hw; rewrite Heq, inv_waiters in Hw;
            exact Hw
        | Heq : Semaphore.Release ?s ?n = _ |- _ =>
            pose proof (Release_waiters s n) as Hw; rewrite Heq, inv_waiters in Hw;
            cbn in Hw; intuition (try congruence; try discriminate)
        end.
Qed.

Lemma Acquire_size (s : Semaphore.Weighted) (n : Z) :
  match Semaphore.Acquire s n with
  | Semaphore.Granted s' | Semaphore.Enqueued s' => Semaphore.size s' = Semaphore.size s
  | Semaphore.Doomed => True
  end.
Proof.
  unfold Semaphore.Acquire.
  destruct (_ && _); [reflexivity|]. destruct (_ <? _); reflexivity.
Qed.

Lemma notifyWaiters_size (s : Semaphore.Weighted) :
  Semaphore.size (fst (Semaphore.notifyWaiters s)) = Semaphore.size s.
Proof.
  unfold Semaphore.notifyWaiters.
  destruct (Semaphore.notifyLoop _ _ _) as [[c rest] k]. reflexivity.
Qed.

Lemma Release_size (s : Semaphore.Weighted) (n : Z) :
  match Semaphore.Release s n with
  | Semaphore.ReleasePanic s' | Semaphore.Released s' _ =>
      Semaphore.size s' = Semaphore.size s
  end.
Proof.
  unfold Semaphore.Release. cbn [Semaphore.cur].
  destruct (_ <? 0); [reflexivity|].
  pose proof (notifyWaiters_size
    {| Semaphore.size := Semaphore.size s;
       Semaphore.cur := toInt64 (Semaphore.cur s - n);
       Semaphore.waiters := Semaphore.waiters s |}) as H.
  destruct (Semaphore.notifyWaiters _) as [s' k]. exact H.
Qed.

Lemma cancelFront_size (s : Semaphore.Weighted) :
  Semaphore.size (Semaphore.cancelFront s) = Semaphore.size s.
Proof.
  unfold Semaphore.cancelFront. destruct (_ <? _); [|reflexivity].
  rewrite notifyWaiters_size. reflexivity.
Qed.

Lemma step_size (a : Action) (st st' : State) :
  Inv e fl archiveName st -> step e fl archiveName a st = Some st' ->
  Semaphore.size (sem st') = toInt64 (Flag.diskLimit fl).
Proof.
  intros Hinv0 Hstep. destruct_inv Hinv0. step_cases Hstep; auto;
    try (rewrite cancelFront_size; assumption);
    match goal with
    | Heq : Semaphore.Acquire ?s ?n = _ |- _ =>
        pose proof (Acquire_size s n) as Hw; rewrite Heq in Hw; congruence
    | Heq : Semaphore.Release ?s ?n = _ |- _ =>
        pose proof (Release_size s n) as Hw; rewrite Heq in Hw; congruence
    end.
Qed.

Lemma toInt64_succ (x : Z) : toInt64 (toInt64 x + 1) = toInt64 (x + 1).
Proof.
  unfold toInt64. f_equal.
  replace ((x + 2 ^ 63) mod 2 ^ 64 - 2 ^ 63 + 1 + 2 ^ 63)
    with ((x + 2 ^ 63) mod 2 ^ 64 + 1) by lia.
  rewrite Z.add_mod_idemp_l by lia. f_equal. lia.
Qed.

Lemma step_count (a : Action) (st st' : State) :
  Inv e fl archiveName st -> step e fl archiveName a st = Some st' ->
  count st' = toInt64 (Z.of_nat (countEv isCompleted (trace st'))).
Proof.
  intros Hinv0 Hstep. destruct_inv Hinv0. step_cases Hstep; auto.
  destruct (cancelled st); [|destruct o];
    match goal with H : (_, _) = (_, _) |- _ => injection H as <- <- end;
    auto.
  unfold countEv in *. cbn [filter isCompleted List.length].
  rewrite inv_count, toInt64_succ. f_equal. lia.
Qed.

Lemma uploadErr_Failed (r : UploadResult) (err : UploadError) :
  uploadErr r = Some err -> r = Failed err.
Proof.
  destruct r; simpl; congruence.
Qed.

Lemma step_gerr (a : Action) (st st' : State) :
  Inv e fl archiveName st -> step e fl archiveName a st = Some st' ->
  forall err, gerr st' = Some err -> exists i, In (EvUpload i (Failed err)) (trace st').
Proof.
  intros Hinv0 Hstep. destruct_inv Hinv0. step_cases Hstep; auto;
    intros err Herr;
    try (destruct (inv_gerr err Herr) as [j Hj]; exists j; simpl; tauto).
  injection Herr as <-.
  rewrite Forall_forall in inv_workers.
  destruct (inv_workers w) as [_ Hpc]; [eapply nth_error_In; eassumption|].
  rewrite Heqw0 in Hpc. destruct Hpc as [Hup _].
  apply uploadErr_Failed in Heqo0. subst r. eauto.
Qed.

Lemma step_order (a : Action) (st st' : State) :
  Inv e fl archiveName st -> step e fl archiveName a st = Some st' ->
  releasesFollowUploads (trace st').
Proof.
  intros Hinv0 Hstep. destruct_inv Hinv0. step_cases Hstep; auto; cbn [releasesFollowUploads];
    auto;
    rewrite Forall_forall in inv_workers;
    (destruct (inv_workers w) as [_ Hpc]; [eapply nth_error_In; eassumption|]);
    match goal with H : wpc _ = _ |- _ => rewrite H in Hpc end;
    destruct Hpc as [Hup Hrm]; eauto.
Qed.

Lemma inv_init : Inv e fl archiveName (initState fl).
Proof.
  constructor; simpl; auto; try constructor; try discriminate.
Qed.

Lemma inv_step (a : Action) (st st' : State) :
  Inv e fl archiveName st -> step e fl archiveName a st = Some st' ->
  Inv e fl archiveName st'.
Proof.
  intros Hinv Hstep. constructor.
  - eapply step_start; eassumption.
  - eapply step_pos; eassumption.
  - eapply step_ch; eassumption.
  - eapply step_disp; eassumption.
  - eapply step_workers; eassumption.
  - eapply step_trace; eassumption.
  - eapply step_acq_bound; eassumption.
  - eapply step_acq_nodup; eassumption.
  - eapply step_sent_bound; eassumption.
  - eapply step_sent_nodup; eassumption.
  - eapply step_ch_len; eassumption.
  - eapply step_held; eassumption.
  - eapply step_waiters; eassumption.
  - eapply step_size; eassumption.
  - eapply step_count; eassumption.
  - eapply step_gerr; eassumption.
  - eapply step_order; eassumption.
Qed.

Lemma reachable_inv (st : State) :
  Reachable e fl archiveName st -> Inv e fl archiveName st.
Proof.
  induction 1; [apply inv_init|eapply inv_step; eassumption].
Qed.

End PipelineInvariant.

(** ** The pipeline: the accounting of the semaphore *)

Lemma toInt64_small (x : Z) : - 2 ^ 63 <= x < 2 ^ 63 -> toInt64 x = x.
Proof.
  intros H. unfold toInt64. rewrite Z.mod_small; lia.
Qed.

Lemma Acquire_sound (s s' : Semaphore.Weighted) (n L : Z) :
  Semaphore.size s = L -> 0 <= L < 2 ^ 63 -> 0 <= Semaphore.cur s <= L -> 0 <= n ->
  Semaphore.Acquire s n = Semaphore.Granted s' ->
  Semaphore.cur s' = Semaphore.cur s + n /\ Semaphore.cur s' <= L.
Proof.
  intros Hsize HL Hcur Hn. unfold Semaphore.Acquire.
  destruct (_ && _) eqn:Hcond; [|destruct (_ <? _); discriminate].
  intros Heq. injection Heq as <-. cbn [Semaphore.cur].
  apply andb_true_iff in Hcond. destruct Hcond as [Hle _].
  apply Z.leb_le in Hle. rewrite Hsize, toInt64_small in Hle by lia.
  rewrite toInt64_small by lia. lia.
Qed.

Lemma Acquire_enqueued (s s' : Semaphore.Weighted) (n : Z) :
  Semaphore.Acquire s n = Semaphore.Enqueued s' ->
  Semaphore.cur s' = Semaphore.cur s.
Proof.
  unfold Semaphore.Acquire.
  destruct (_ && _); [discriminate|]. destruct (_ <? _); [discriminate|].
  intros Heq. injection Heq as <-. reflexivity.
Qed.

Lemma Release_sound (s : Semaphore.Weighted) (n L : Z) :
  Semaphore.size s = L -> 0 <= L < 2 ^ 63 ->
  0 <= n <= Semaphore.cur s -> Semaphore.cur s <= L ->
  match Semaphore.Release s n with
  | Semaphore.ReleasePanic _ => False
  | Semaphore.Released s' k =>
      (k = O /\ Semaphore.cur s' = Semaphore.cur s - n)
      \/ (exists w, Semaphore.waiters s = [w] /\ k = 1%nat
                    /\ (0 <= w -> Semaphore.cur s' = Semaphore.cur s - n + w
                                  /\ Semaphore.cur s' <= L))
      \/ (exists w w' ws, Semaphore.waiters s = w :: w' :: ws)
  end.
Proof.
  intros Hsize HL Hn Hcur.
  unfold Semaphore.Release, Semaphore.notifyWaiters.
  cbn [Semaphore.cur Semaphore.size Semaphore.waiters].
  rewrite (toInt64_small (Semaphore.cur s - n)) by lia.
  destruct (_ <? 0) eqn:Hneg; [apply Z.ltb_lt in Hneg; lia|].
  destruct (Semaphore.waiters s) as [|w [|w' ws]].
  - cbn. auto.
  - cbn [Semaphore.notifyLoop]. rewrite Hsize, toInt64_small by lia.
    destruct (_ <? w) eqn:Hw; cbn; [auto|].
    right. left. exists w. repeat split; auto.
    + rewrite toInt64_small; lia.
    + apply Z.ltb_ge in Hw. rewrite toInt64_small; lia.
  - destruct (Semaphore.notifyLoop _ _ _) as [[c rest] k].
    right. right. eauto.
Qed.

Lemma cancelFront_cur (s : Semaphore.Weighted) (w : Z) :
  Semaphore.waiters s = [w] ->
  Semaphore.cur (Semaphore.cancelFront s) = Semaphore.cur s.
Proof.
  intros Hw. unfold Semaphore.cancelFront, Semaphore.notifyWaiters.
  rewrite Hw. cbn. destruct (_ <? _); reflexivity.
Qed.

Lemma In_acquiredOf (x : nat) (tr : list Event) :
  In x (acquiredOf tr) -> In (EvAcquire x) tr.
Proof.
  induction tr as [|ev tr IH]; simpl; [tauto|].
  destruct ev; simpl; auto. intros [->|H]; auto.
Qed.

Lemma In_releasedOf (x : nat) (tr : list Event) :
  In x (releasedOf tr) <-> In (EvRelease x) tr.
Proof.
  induction tr as [|ev tr IH]; simpl; [tauto|].
  destruct ev; simpl; rewrite ?IH; split; intros H;
    try (destruct H as [H|H]; [discriminate|assumption]); auto.
  - destruct H as [->|H]; auto.
  - destruct H as [H|H]; [injection H as ->|]; auto.
Qed.

Lemma In_sentOf (x : nat) (tr : list Event) :
  In x (sentOf tr) <-> In (EvSend x) tr.
Proof.
  induction tr as [|ev tr IH]; simpl; [tauto|].
  destruct ev; simpl; rewrite ?IH; split; intros H;
    try (destruct H as [H|H]; [discriminate|assumption]); auto.
  - destruct H as [->|H]; auto.
  - destruct H as [H|H]; [injection H as ->|]; auto.
Qed.

Section Scan.
Variable e : Extractor.
Variable fl : Flag.t.
Variable archiveName : string.

Lemma scanStep_spec (a : Scan) (i : nat) :
  let a' := scanStep e fl archiveName a i in
  filesCount a' = (filesCount a + if isJob e fl i then 1 else 0)%nat
  /\ largestSize a <= largestSize a'
  /\ (isJob e fl i = true -> FileSize e i <= largestSize a')
  /\ ((largestSize a' = largestSize a /\ largestFile a' = largestFile a)
      \/ (isJob e fl i = true /\ largestSize a < FileSize e i
          /\ largestSize a' = FileSize e i /\ largestFile a' = FileName e i)).
Proof.
  unfold scanStep, isJob.
  destruct (IsDir e i); cbn [negb andb].
  - rewrite andb_false_r. repeat split; auto; try lia; discriminate.
  - destruct (skipMeta fl (FileName e i)); cbn [negb andb].
    + repeat split; auto; try lia; discriminate.
    + destruct (largestSize a <? FileSize e i) eqn:Hlt; cbn.
      * apply Z.ltb_lt in Hlt. repeat split; auto; try lia; right; auto.
      * apply Z.ltb_ge in Hlt. repeat split; auto; try lia; left; auto.
Qed.

Lemma scanFrom_spec (len lo : nat) (a : Scan) :
  let a' := scanFrom e fl archiveName a lo len in
  filesCount a' = (filesCount a + List.length (filter (isJob e fl) (seq lo len)))%nat
  /\ largestSize a <= largestSize a'
  /\ (forall i, (lo <= i < lo + len)%nat -> isJob e fl i = true ->
        FileSize e i <= largestSize a')
  /\ ((largestSize a' = largestSize a /\ largestFile a' = largestFile a)
      \/ (exists i, (lo <= i < lo + len)%nat /\ isJob e fl i = true
            /\ largestSize a < FileSize e i
            /\ largestSize a' = FileSize e i /\ largestFile a' = FileName e i
            /\ forall j, (lo <= j < i)%nat -> isJob e fl j = true ->
                 FileSize e j < FileSize e i)).
Proof.
  revert lo a. induction len as [|len IH]; intros lo a; cbn zeta.
  - unfold scanFrom. simpl. repeat split; auto; try lia; intros; lia.
  - unfold scanFrom. cbn [seq fold_left filter].
    pose proof (scanStep_spec a lo) as Hstep. cbn zeta in Hstep.
    set (a1 := scanStep e fl archiveName a lo) in *.
    specialize (IH (S lo) a1). cbn zeta in IH. unfold scanFrom in IH.
    set (a2 := fold_left (scanStep e fl archiveName) (seq (S lo) len) a1) in *.
    destruct Hstep as (Hc1 & Hm1 & Hj1 & Hl1).
    destruct IH as (Hc2 & Hm2 & Hj2 & Hl2).
    split; [|split; [|split]].
    + rewrite Hc2, Hc1. destruct (isJob e fl lo); simpl; lia.
    + lia.
    + intros i Hi Hjob. destruct (Nat.eq_dec i lo) as [->|Hne].
      * specialize (Hj1 Hjob). lia.
      * apply Hj2; [lia|assumption].
    + destruct Hl2 as [[Hs2 Hf2]|(i & Hi & Hjob & Hlt & Hs2 & Hf2 & Hfirst)].
      * destruct Hl1 as [[Hs1 Hf1]|(Hjob & Hlt & Hs1 & Hf1)].
        -- left. split; congruence.
        -- right. exists lo. repeat split; try lia; try congruence.
      * right. exists i. repeat split; try lia; try assumption.
        intros j Hj Hjob'. destruct (Nat.eq_dec j lo) as [->|Hne].
        -- specialize (Hj1 Hjob'). lia.
        -- apply Hfirst; [lia|assumption].
Qed.

Lemma scan_filesCount :
  filesCount (scan e fl archiveName) = jobsBelow e fl (Files e).
Proof.
  unfold scan, jobsBelow.
  destruct (scanFrom_spec (Files e) 0
    {| largestFile := ""; largestSize := 0; filesCount := 0; topDirOnly := true |})
    as (Hc & _). rewrite Hc. reflexivity.
Qed.

Lemma scan_largest (i : nat) :
  (i < Files e)%nat -> isJob e fl i = true ->
  FileSize e i <= largestSize (scan e fl archiveName).
Proof.
  intros Hi Hjob. unfold scan.
  destruct (scanFrom_spec (Files e) 0
    {| largestFile := ""; largestSize := 0; filesCount := 0; topDirOnly := true |})
    as (_ & _ & Hj & _). apply Hj; [lia|assumption].
Qed.

End Scan.

Section QuotaBound.
Variable e : Extractor.
Variable fl : Flag.t.
Variable archiveName : string.

(** The limit fits [int64], the sizes are [uint64] values, and the check
    of the largest entry has passed. *)
Hypothesis Hlimit : 0 <= Flag.diskLimit fl < 2 ^ 63.
Hypothesis Hsizes : forall i, (i < Files e)%nat -> isU64 (FileSize e i).
Hypothesis Hcheck : largestSize (scan e fl archiveName) <= Flag.diskLimit fl.

Lemma job_size (i : nat) :
  (i < Files e)%nat -> isJob e fl i = true ->
  0 <= FileSize e i <= Flag.diskLimit fl
  /\ toInt64 (FileSize e i) = FileSize e i.
Proof.
  intros Hi Hjob. pose proof (Hsizes i Hi) as [Hlo _].
  pose proof (scan_largest e fl archiveName i Hi Hjob).
  split; [lia|]. apply toInt64_small. lia.
Qed.

Lemma held_jobs (st : State) (x : nat) :
  Inv e fl archiveName st -> In x (held st) ->
  (x < Files e)%nat /\ isJob e fl x = true.
Proof.
  intros Hinv Hin.
  assert (Hacq : In x (acquiredOf (trace st))).
  { apply (count_occ_In Nat.eq_dec). rewrite (inv_held _ _ _ _ Hinv).
    apply (count_occ_In Nat.eq_dec) in Hin. lia. }
  apply In_acquiredOf in Hacq.
  pose proof (inv_trace _ _ _ _ Hinv) as Htr. rewrite Forall_forall in Htr.
  apply (Htr _ Hacq).
Qed.

Lemma sum_held_setPc (ws : list Worker) (k : nat) (w : Worker) (pc : WorkerPc) :
  nth_error ws k = Some w ->
  sumZ (map (FileSize e)
     (flat_map heldW (updNth k (fun w0 => {| wjob := wjob w0; wpc := pc |}) ws)))
   + sumZ (map (FileSize e) (heldAt (wjob w) (wpc w)))
   = sumZ (map (FileSize e) (flat_map heldW ws))
     + sumZ (map (FileSize e) (heldAt (wjob w) pc)).
Proof.
  intros Hk.
  apply (sum_flat_map_updNth heldW (FileSize e)
           (fun w0 => {| wjob := wjob w0; wpc := pc |}) ws k w Hk).
Qed.

Lemma sumZ_nonneg (l : list nat) :
  (forall x, In x l -> 0 <= FileSize e x) -> 0 <= sumZ (map (FileSize e) l).
Proof.
  induction l as [|x l IH]; simpl; intros H; [lia|].
  pose proof (H x (or_introl eq_refl)). specialize (IH (fun y Hy => H y (or_intror Hy))). lia.
Qed.

Lemma held_parts_nonneg (st : State) :
  Inv e fl archiveName st ->
  0 <= sumZ (map (FileSize e) (heldP (prod st)))
  /\ 0 <= sumZ (map (FileSize e) (map jobEntry (ch st)))
  /\ 0 <= sumZ (map (FileSize e) (heldD (disp st)))
  /\ 0 <= sumZ (map (FileSize e) (flat_map heldW (workers st))).
Proof.
  intros Hinv.
  assert (H : forall x, In x (held st) -> 0 <= FileSize e x).
  { intros x Hx. destruct (held_jobs st x Hinv Hx) as [Hlt Hjob].
    apply (job_size x Hlt Hjob). }
  unfold held in H.
  repeat split; apply sumZ_nonneg; intros x Hx; apply H;
    rewrite !in_app_iff; tauto.
Qed.

Lemma worker_job_size (tr : list Event) (ws : list Worker) (k : nat) (w : Worker) :
  Forall (workerOK e fl archiveName tr) ws -> nth_error ws k = Some w ->
  jobSize (wjob w) = FileSize e (jobEntry (wjob w))
  /\ 0 <= FileSize e (jobEntry (wjob w)) <= Flag.diskLimit fl.
Proof.
  intros Hall Hk. rewrite Forall_forall in Hall.
  destruct (Hall w) as [(Hjob & Hlt & Hisjob) _]; [eapply nth_error_In; eassumption|].
  destruct (job_size _ Hlt Hisjob) as [Hrange Hconv].
  split; [|assumption]. rewrite Hjob at 1. simpl. assumption.
Qed.

Lemma step_sem (a : Action) (st st' : State) :
  Inv e fl archiveName st -> InvSem e fl st ->
  step e fl archiveName a st = Some st' -> InvSem e fl st'.
Proof.
  intros Hinv (Hcur & Hle & Hcr) Hstep.
  pose proof (held_parts_nonneg st Hinv) as Hnn.
  pose proof (held_parts_nonneg st' (inv_step e fl archiveName a st st' Hinv Hstep)) as Hnn'.
  pose proof Hinv as Hinv0. destruct_inv Hinv0.
  assert (Hsz : Semaphore.size (sem st) = Flag.diskLimit fl)
    by (rewrite inv_size; apply toInt64_small; lia).
  unfold InvSem, held in *.
  step_cases Hstep;
    try match goal with
        | Hk : nth_error (workers ?s) ?k = Some ?w
          |- context [updNth ?k (fun w0 => {| wjob := wjob w0; wpc := ?pc |}) _] =>
            pose proof (sum_held_setPc (workers s) k w pc Hk) as Hupd;
            destruct (worker_job_size _ _ k w inv_workers Hk) as [Hws Hwr]
        end;
    repeat match goal with
           | Heq : wpc _ = _ |- _ => rewrite Heq in Hupd
           end;
    try (pose proof (inv_start eq_refl) as Hidle; rewrite Hidle in * );
    try match goal with
        | |- context [option_map ErrUploads (gerr ?s)] => destruct (gerr s)
        end;
    rewrite ?map_app, ?flat_map_app in *;
    cbn [heldP heldD option_map posOK] in *;
    rewrite ?map_app, ?sumZ_app in *;
    cbn [heldW heldAt wjob wpc map flat_map app jobOf jobEntry sumZ fold_right] in *;
    change (fold_right Z.add 0) with sumZ in *;
    try (split; [|split]; [lia|lia|assumption]);
    try match goal with
        | Hp : (?i < Files e)%nat /\ isJob e fl ?i = true |- _ =>
            destruct (job_size i (proj1 Hp) (proj2 Hp)) as [Hjs Hconv]
        end;
    try match goal with
        | Heq : Semaphore.Acquire ?s ?n = Semaphore.Granted ?s' |- _ =>
            rewrite Hconv in Heq;
            apply (Acquire_sound s s' _ (Flag.diskLimit fl) Hsz Hlimit) in Heq;
            [destruct Heq as [Hc1 Hc2]|lia|lia]
        | Heq : Semaphore.Acquire ?s ?n = Semaphore.Enqueued ?s' |- _ =>
            pose proof (Acquire_enqueued s s' n Heq) as Hc1
        | |- context [Semaphore.cancelFront ?s] =>
            rewrite (cancelFront_cur s _ inv_waiters)
        | Heq : Semaphore.Release ?s ?n = _ |- _ =>
            rewrite Hws in Heq;
            match type of Heq with
            | Semaphore.Release _ ?m = _ =>
                pose proof (Release_sound s m (Flag.diskLimit fl) Hsz Hlimit) as Hrel
            end;
            rewrite Heq in Hrel; rewrite ?inv_waiters in Hrel;
            specialize (Hrel ltac:(lia) ltac:(lia))
        end;
    try (split; [|split]; [lia|lia|assumption]);
    try (exfalso; exact Hrel);
    try (destruct Hrel as [[Hk Hc]|[(w' & Hwt & Hk & Hc)|(w1 & w2 & ws' & Hwt)]];
         try discriminate; try (injection Hwt as <-);
         try (rewrite Hconv in Hc; specialize (Hc ltac:(lia)));
         split; [|split]; [lia|lia|assumption]).
Qed.

Lemma sem_init : InvSem e fl (initState fl).
Proof.
  unfold InvSem. simpl. repeat split; lia.
Qed.

Lemma reachable_sem (st : State) :
  Reachable e fl archiveName st -> InvSem e fl st.
Proof.
  induction 1 as [|a st st' Hreach IH Hstep]; [apply sem_init|].
  eapply step_sem; [apply reachable_inv|exact IH|]; eassumption.
Qed.

Lemma outstanding_held (st : State) :
  Inv e fl archiveName st -> Permutation (outstanding (trace st)) (held st).
Proof.
  intros Hinv. apply outstanding_permutation.
  - apply (inv_acq_nodup _ _ _ _ Hinv).
  - apply (inv_held _ _ _ _ Hinv).
Qed.

(** C1 (as amended): while the limit is below 2^63, in every state the
    pipeline can reach, the declared sizes of the entries whose quota has
    been granted and not yet released add up to at most the limit. *)
Theorem quota_bound (st : State) :
  Reachable e fl archiveName st ->
  outstandingBytes e (trace st) <= Flag.diskLimit fl.
Proof.
  intros Hreach.
  destruct (reachable_sem st Hreach) as (Hcur & Hle & _).
  unfold outstandingBytes.
  rewrite (sumZ_permutation _ (map (FileSize e) (held st))).
  - lia.
  - apply Permutation_map, outstanding_held, reachable_inv. assumption.
Qed.

End QuotaBound.

(** ** The claims about the pipeline *)

Section PipelineClaims.
Variable e : Extractor.
Variable fl : Flag.t.
Variable archiveName : string.

Lemma exec_reachable (acts : list Action) (st st' : State) :
  Reachable e fl archiveName st -> exec e fl archiveName acts st = Some st' ->
  Reachable e fl archiveName st'.
Proof.
  revert st. induction acts as [|a acts IH]; intros st Hreach; simpl.
  - intros Heq. injection Heq as <-. assumption.
  - destruct (step e fl archiveName a st) as [st1|] eqn:Hstep; [|discriminate].
    apply IH. eapply ReachStep; eassumption.
Qed.

Lemma released_nodup (st : State) :
  Inv e fl archiveName st -> NoDup (releasedOf (trace st)).
Proof.
  intros Hinv. apply (NoDup_count_occ Nat.eq_dec). intros x.
  pose proof (proj1 (NoDup_count_occ Nat.eq_dec _) (inv_acq_nodup _ _ _ _ Hinv) x).
  pose proof (inv_held _ _ _ _ Hinv x). lia.
Qed.

Lemma released_acquired (st : State) (i : nat) :
  Inv e fl archiveName st -> In (EvRelease i) (trace st) -> In (EvAcquire i) (trace st).
Proof.
  intros Hinv Hrel. apply In_acquiredOf. apply In_releasedOf in Hrel.
  apply (count_occ_In Nat.eq_dec). apply (count_occ_In Nat.eq_dec) in Hrel.
  pose proof (inv_held _ _ _ _ Hinv i). lia.
Qed.

Lemma producer_never_releases (ok : bool) (st st' : State) :
  step e fl archiveName (AProd ok) st = Some st' ->
  releasedOf (trace st') = releasedOf (trace st).
Proof.
  intros Hstep. step_cases Hstep; try reflexivity;
    destruct (gerr st); reflexivity.
Qed.

Lemma failed_staging_stays_held (st : State) (i : nat) :
  Inv e fl archiveName st -> prod st = PDone (Some (ErrWriteTemp i)) ->
  In i (outstanding (trace st)).
Proof.
  intros Hinv Hp.
  apply (Permutation_in i (Permutation_sym (outstanding_held e fl archiveName st Hinv))).
  unfold held. rewrite Hp. simpl. auto.
Qed.

Lemma In_outstanding (i : nat) (tr : list Event) :
  In i (outstanding tr) <-> In (EvAcquire i) tr /\ ~ In (EvRelease i) tr.
Proof.
  unfold outstanding. rewrite filter_In, negb_true_iff, <- In_releasedOf.
  split.
  - intros [Hacq Hmem]. split; [apply In_acquiredOf; assumption|].
    intros Hin. apply memNat_In in Hin. congruence.
  - intros [Hacq Hrel]. split.
    + clear Hrel. induction tr as [|ev tr IH]; simpl in *; [tauto|].
      destruct Hacq as [->|Hacq]; [simpl; auto|].
      destruct ev; simpl; auto.
    + destruct (memNat i (releasedOf tr)) eqn:Hmem; [|reflexivity].
      apply memNat_In in Hmem. contradiction.
Qed.

(** C4 (as amended): a reservation is released at most once, and only after
    it was granted; every release is made by a worker, after the upload
    attempt and the removal of the file of the same entry; no step of the
    producer releases anything, and when staging has failed the reservation
    of that entry is still held after [run] has returned. *)
Theorem release_at_most_once (st : State) :
  Reachable e fl archiveName st ->
  NoDup (releasedOf (trace st))
  /\ (forall i, In (EvRelease i) (trace st) -> In (EvAcquire i) (trace st))
  /\ releasesFollowUploads (trace st)
  /\ (forall ok st', step e fl archiveName (AProd ok) st = Some st' ->
        releasedOf (trace st') = releasedOf (trace st))
  /\ (forall i, prod st = PDone (Some (ErrWriteTemp i)) ->
        In (EvAcquire i) (trace st) /\ ~ In (EvRelease i) (trace st)).
Proof.
  intros Hreach. pose proof (reachable_inv e fl archiveName st Hreach) as Hinv.
  split; [|split; [|split; [|split]]].
  - apply released_nodup. assumption.
  - intros i. apply released_acquired. assumption.
  - apply (inv_order _ _ _ _ Hinv).
  - intros ok st'. apply producer_never_releases.
  - intros i Hp. apply In_outstanding. apply failed_staging_stays_held; assumption.
Qed.

Lemma nth_error_setWorkerPc (st : State) (k : nat) (w : Worker) (pc : WorkerPc) :
  nth_error (workers st) k = Some w ->
  nth_error (workers (setWorkerPc k pc st)) k = Some {| wjob := wjob w; wpc := pc |}.
Proof.
  intros Hk. unfold setWorkerPc. simpl.
  rewrite nth_error_updNth, Nat.eqb_refl, Hk. reflexivity.
Qed.


Lemma event_entry_kind (st : State) (ev : Event) (i : nat) :
  Inv e fl archiveName st -> In ev (trace st) -> entryOf ev = Some i ->
  (i < Files e)%nat /\ skipMeta fl (FileName e i) = false
  /\ (IsDir e i = true -> ev = EvMkdirAll i)
  /\ (IsDir e i = false -> ev <> EvMkdirAll i).
Proof.
  intros Hinv Hin Hentry.
  pose proof (inv_trace _ _ _ _ Hinv) as Htr. rewrite Forall_forall in Htr.
  specialize (Htr ev Hin).
  destruct ev; simpl in *; try discriminate; injection Hentry as ->;
    try (destruct Htr as [Hlt Hjob]; apply isJob_inv in Hjob;
         destruct Hjob as [Hskip Hdir];
         repeat split; auto; [congruence|discriminate]).
  destruct Htr as (Hlt & Hskip & Hdir). repeat split; auto. congruence.
Qed.


Lemma jobsBelow_S (k : nat) :
  jobsBelow e fl (S k) = (jobsBelow e fl k + if isJob e fl k then 1 else 0)%nat.
Proof.
  unfold jobsBelow. rewrite seq_S, filter_app, length_app. simpl.
  destruct (isJob e fl k); reflexivity.
Qed.

Lemma jobsBelow_le (k m : nat) :
  (k <= m)%nat -> (jobsBelow e fl k <= jobsBelow e fl m)%nat.
Proof.
  induction 1 as [|m Hle IH]; [lia|]. rewrite jobsBelow_S. lia.
Qed.

Lemma sent_count (st : State) :
  Inv e fl archiveName st ->
  (List.length (sentOf (trace st)) <= jobsBelow e fl (sendBound e (prod st)))%nat.
Proof.
  intros Hinv. unfold jobsBelow.
  apply NoDup_incl_length; [apply (inv_sent_nodup _ _ _ _ Hinv)|].
  intros x Hx. apply filter_In. split.
  - apply in_seq.
    pose proof (inv_sent_bound _ _ _ _ Hinv) as Hb. rewrite Forall_forall in Hb.
    specialize (Hb x Hx). lia.
  - apply In_sentOf in Hx.
    pose proof (inv_trace _ _ _ _ Hinv) as Htr. rewrite Forall_forall in Htr.
    apply (Htr _ Hx).
Qed.

Lemma sendBound_le (st : State) :
  Inv e fl archiveName st -> (sendBound e (prod st) <= Files e)%nat.
Proof.
  intros Hinv. pose proof (inv_pos _ _ _ _ Hinv) as Hpos.
  destruct (prod st) as [| | | |j b| | | |r]; simpl in *; lia.
Qed.

(** C7: the capacity of the job channel is the number of entries that
    are neither directories nor excluded; the jobs sent are for distinct
    such entries, so there are never more of them than the capacity; and
    whenever the producer stands at its send, the buffer has room: the send
    goes through at once. *)
Theorem send_never_blocks (st : State) :
  Reachable e fl archiveName st ->
  filesCount (scan e fl archiveName) = jobsBelow e fl (Files e)
  /\ NoDup (sentOf (trace st))
  /\ (forall i, In i (sentOf (trace st)) -> (i < Files e)%nat /\ isJob e fl i = true)
  /\ (List.length (ch st) <= List.length (sentOf (trace st))
      <= filesCount (scan e fl archiveName))%nat
  /\ (forall i, prod st = PSend i ->
        (List.length (ch st) < filesCount (scan e fl archiveName))%nat
        /\ (crashed st = false -> forall ok,
              step e fl archiveName (AProd ok) st
              = Some (pushEv (EvSend i)
                        (setCh (ch st ++ [jobOf e fl archiveName i])
                               (setProd (PTop (S i)) st))))).
Proof.
  intros Hreach.
  pose proof (reachable_inv e fl archiveName st Hreach) as Hinv.
  pose proof (scan_filesCount e fl archiveName) as Hcap.
  pose proof (sent_count st Hinv) as Hsent.
  pose proof (inv_ch_len _ _ _ _ Hinv) as Hlen.
  split; [exact Hcap|]. split; [apply (inv_sent_nodup _ _ _ _ Hinv)|].
  split; [|split].
  - intros i Hi. apply In_sentOf in Hi.
    pose proof (inv_trace _ _ _ _ Hinv) as Htr. rewrite Forall_forall in Htr.
    apply (Htr _ Hi).
  - rewrite Hcap. split; [assumption|].
    pose proof (jobsBelow_le _ _ (sendBound_le st Hinv)). lia.
  - intros i Hp. pose proof (inv_pos _ _ _ _ Hinv) as Hpos.
    rewrite Hp in Hpos, Hsent. simpl in Hpos, Hsent. destruct Hpos as [Hlt Hjob].
    assert (Hroom : (List.length (ch st) < filesCount (scan e fl archiveName))%nat).
    { rewrite Hcap. pose proof (jobsBelow_S i) as HS. rewrite Hjob in HS.
      pose proof (jobsBelow_le (S i) (Files e) Hlt). lia. }
    split; [exact Hroom|].
    intros Hcr ok. unfold step, stepProd. rewrite Hcr, Hp.
    apply Nat.ltb_lt in Hroom. rewrite Hroom. reflexivity.
Qed.

(** C8: [isIgnoreMeta] holds exactly of the names that have [__MACOSX] as
    a component other than the last, or whose last component is
    [.DS_Store], [Thumbs.db] or [__MACOSX]; the two loops of [run] skip an
    entry exactly when its name is such a name and [-with-meta] is not set;
    and in every reachable state no event is about a skipped entry. *)
Theorem junk_entries_excluded (st : State) :
  Reachable e fl archiveName st ->
  (forall name, isIgnoreMeta name = junkBySpec name)
  /\ (forall name,
        skipMeta fl name = negb (Flag.withMeta fl) && junkBySpec name)
  /\ (forall i, isJob e fl i = true -> skipMeta fl (FileName e i) = false)
  /\ (forall ev i, In ev (trace st) -> entryOf ev = Some i ->
        skipMeta fl (FileName e i) = false).
Proof.
  intros Hreach.
  pose proof (reachable_inv e fl archiveName st Hreach) as Hinv.
  split; [exact isIgnoreMeta_junkBySpec|]. split; [|split].
  - intros name. unfold skipMeta. rewrite isIgnoreMeta_junkBySpec. reflexivity.
  - intros i Hjob. apply isJob_inv in Hjob. tauto.
  - intros ev i Hin Hentry.
    destruct (event_entry_kind st ev i Hinv Hin Hentry) as (_ & H & _). exact H.
Qed.

Lemma completed_le_nil (tr : list Event) :
  (countEv isCompleted tr <= countEv isNilUpload tr)%nat.
Proof.
  unfold countEv. induction tr as [|ev tr IH]; simpl; [lia|].
  destruct ev; simpl; try lia. destruct r; simpl; lia.
Qed.

(** C9 (as amended): an upload attempt that finds the context cancelled
    when it starts writes nothing to the destination, leaves the counter
    alone and returns nil, as a completed upload does; so the attempts that
    returned nil can be more than the uploads that completed. The counter
    [count] itself is incremented by completed uploads only: in every
    reachable state it is the number of completed uploads. *)
Theorem skipped_upload_returns_nil (st : State) :
  Reachable e fl archiveName st ->
  (forall o c, upload true o c = (Skipped, c))
  /\ uploadErr Skipped = None
  /\ writesDestination Skipped = false
  /\ uploadErr Completed = uploadErr Skipped
  /\ (forall k w o, crashed st = false -> cancelled st = true ->
        nth_error (workers st) k = Some w -> wpc w = WUpload ->
        exists st', step e fl archiveName (AUpload k o) st = Some st'
          /\ trace st' = EvUpload (jobEntry (wjob w)) Skipped :: trace st
          /\ count st' = count st /\ gerr st' = gerr st)
  /\ count st = toInt64 (Z.of_nat (countEv isCompleted (trace st)))
  /\ (countEv isCompleted (trace st) <= countEv isNilUpload (trace st))%nat.
Proof.
  intros Hreach.
  pose proof (reachable_inv e fl archiveName st Hreach) as Hinv.
  split; [reflexivity|]. split; [reflexivity|]. split; [reflexivity|].
  split; [reflexivity|]. split; [|split].
  - intros k w o Hcr Hcan Hk Hpc. unfold step, stepUpload, upload.
    rewrite Hcr, Hk, Hpc, Hcan. eexists. split; [reflexivity|]. simpl. auto.
  - apply (inv_count _ _ _ _ Hinv).
  - apply completed_le_nil.
Qed.

End PipelineClaims.

(** ** The first half of [run] *)

Section SetupClaims.
Variable unicodeLower : string -> string.
Variable ValidString : string -> bool.
Variable ShiftJISDecode : string -> option string.

Lemma setup_rejects_unsupported (w : World) (fl : Flag.t) (src : string) :
  nargs w = 2%nat -> srcPath w = Some src -> destOk w = true ->
  supportedFormat unicodeLower src = false ->
  setup unicodeLower ValidString ShiftJISDecode w fl
  = SetupFailed [] (ErrUnsupportedFormat (Path.Ext src)).
Proof.
  intros Hn Hsrc Hdest Hfmt. unfold setup.
  rewrite Hn, Hsrc, Hdest, Hfmt. reflexivity.
Qed.

Lemma NewExtractor_exact_extension (fname : string) (statOk : bool)
    (reader : option (list FileHeader)) (oldWindows : bool) :
  Path.Ext fname = ".zip" \/ Path.Ext fname = ".7z" ->
  forall msg,
    NewExtractor ValidString ShiftJISDecode fname statOk reader oldWindows
    <> ExtractorPanic msg.
Proof.
  intros Hext msg. unfold NewExtractor.
  destruct statOk; cbn [negb]; [|discriminate].
  destruct Hext as [-> | ->]; cbn; destruct reader; discriminate.
Qed.

(** C2 (as amended): when everything up to the opening of the archive
    has succeeded, and some entry that is neither a directory nor excluded
    declares more bytes than the limit, [run] returns the error
    "no enough space" that names the first entry of largest declared size
    among these and renders that size with [bytesString]. By then the
    archive has been downloaded and opened, and nothing else has happened:
    no quota granted, no temp file written, no upload attempted. *)
Theorem capacity_check_fails_fast (w : World) (fl : Flag.t) (src dir : string)
    (e : Extractor) :
  nargs w = 2%nat -> srcPath w = Some src -> destOk w = true ->
  supportedFormat unicodeLower src = true -> clientOk w = true ->
  workDir w = Some dir -> downloadOk w = true -> openOk w = true ->
  NewExtractor ValidString ShiftJISDecode (zipPathOf dir src) (statOk w)
               (archive w) (Flag.oldWindows fl) = ExtractorOk e ->
  0 <= Flag.diskLimit fl ->
  (exists i, (i < Files e)%nat /\ isJob e fl i = true
             /\ Flag.diskLimit fl < FileSize e i) ->
  exists i,
    (i < Files e)%nat /\ isJob e fl i = true
    /\ (forall j, (j < Files e)%nat -> isJob e fl j = true ->
          FileSize e j <= FileSize e i)
    /\ (forall j, (j < i)%nat -> isJob e fl j = true ->
          FileSize e j < FileSize e i)
    /\ setup unicodeLower ValidString ShiftJISDecode w fl
       = SetupFailed [EvRemoveAll; EvOpenArchive; EvDownload; EvMkdirTemp]
           (ErrNoEnoughSpace (FileName e i) (bytesString (FileSize e i)))
    /\ (forall tr, RunReaches unicodeLower ValidString ShiftJISDecode w fl tr ->
          tr = [EvRemoveAll; EvOpenArchive; EvDownload; EvMkdirTemp]).
Proof.
  intros Hn Hsrc Hdest Hfmt Hclient Hdir Hdl Hopen Hnew Hlimit (i0 & Hi0 & Hjob0 & Hbig).
  set (archiveName := trimExt (Path.Base (zipPathOf dir src))).
  pose proof (scanFrom_spec e fl archiveName (Files e) 0
    {| largestFile := ""; largestSize := 0; filesCount := 0; topDirOnly := true |})
    as (_ & _ & Hmax & Hwho).
  cbn zeta in Hmax, Hwho. fold (scan e fl archiveName) in Hmax, Hwho.
  cbn [largestSize largestFile] in Hwho.
  pose proof (Hmax i0 ltac:(lia) Hjob0) as Hle0.
  destruct Hwho as [[Hzero _]|(i & Hi & Hjob & _ & Hsize & Hname & Hfirst)]; [lia|].
  assert (Hsetup :
    setup unicodeLower ValidString ShiftJISDecode w fl
    = SetupFailed [EvRemoveAll; EvOpenArchive; EvDownload; EvMkdirTemp]
        (ErrNoEnoughSpace (FileName e i) (bytesString (FileSize e i)))).
  { unfold setup. rewrite Hn, Hsrc, Hdest, Hfmt, Hclient, Hdir, Hdl, Hopen, Hnew.
    cbn [negb Nat.eqb]. fold archiveName.
    assert (Hlt : (Flag.diskLimit fl <? largestSize (scan e fl archiveName)) = true)
      by (apply Z.ltb_lt; lia).
    rewrite Hlt, Hsize, Hname. reflexivity. }
  exists i. split; [lia|]. split; [assumption|]. split; [|split; [|split]].
  - intros j Hj Hjobj. rewrite <- Hsize. apply Hmax; [lia|assumption].
  - intros j Hj Hjobj. apply Hfirst; [lia|assumption].
  - exact Hsetup.
  - intros tr. unfold RunReaches. rewrite Hsetup. auto.
Qed.

End SetupClaims.

(** ** The claims on concrete archives *)

Lemma runFrom_reachable (e : Extractor) (fl : Flag.t) (archiveName : string)
    (acts : list Action) :
  Reachable e fl archiveName (runFrom e fl archiveName acts).
Proof.
  unfold runFrom.
  destruct (exec e fl archiveName acts (initState fl)) as [st|] eqn:Hexec.
  - apply (exec_reachable e fl archiveName acts (initState fl)); [constructor|assumption].
  - constructor.
Qed.

Lemma dataZip_sizes (i : nat) :
  (i < Files (zipOf dataZip))%nat -> isU64 (FileSize (zipOf dataZip) i).
Proof.
  intros Hi. unfold isU64.
  destruct i as [|[|[|i]]]; simpl in *; lia.
Qed.

Lemma quota_bound_witness :
  0 <= Flag.diskLimit (flagsWith 1000 false) < 2 ^ 63
  /\ largestSize (scan (zipOf dataZip) (flagsWith 1000 false) "data") <= 1000
  /\ outstandingBytes (zipOf dataZip)
       (trace (runFrom (zipOf dataZip) (flagsWith 1000 false) "data" dataMoves))
     <= 1000.
Proof.
  assert (H1 : 0 <= Flag.diskLimit (flagsWith 1000 false) < 2 ^ 63) by (simpl; lia).
  assert (H3 : largestSize (scan (zipOf dataZip) (flagsWith 1000 false) "data")
               <= Flag.diskLimit (flagsWith 1000 false))
    by (vm_compute; discriminate).
  split; [exact H1|]. split; [exact H3|].
  exact (quota_bound (zipOf dataZip) (flagsWith 1000 false) "data" H1 dataZip_sizes H3
           (runFrom (zipOf dataZip) (flagsWith 1000 false) "data" dataMoves)
           (runFrom_reachable _ _ _ _)).
Defined.

(** C1 (as stated) fails when the limit does not fit [int64]: with the
    limit 2^64 - 1 and two entries that declare 2^64 - 2^62 bytes each, the
    check of the largest entry passes, both acquisitions are granted, and
    the two reservations together exceed the limit. *)
Lemma quota_bound_fails_beyond_int64 :
  let e := zipOf hugeZip in
  let fl := flagsWith (2 ^ 64 - 1) false in
  let st := runFrom e fl "huge" hugeMoves in
  isU64 (Flag.diskLimit fl)
  /\ isU64 (FileSize e 0) /\ isU64 (FileSize e 1)
  /\ largestSize (scan e fl "huge") <= Flag.diskLimit fl
  /\ Reachable e fl "huge" st
  /\ outstanding (trace st) = [1; 0]%nat
  /\ Flag.diskLimit fl < outstandingBytes e (trace st).
Proof.
  cbv zeta. unfold isU64.
  split; [vm_compute; split; congruence|].
  split; [vm_compute; split; congruence|].
  split; [vm_compute; split; congruence|].
  split; [vm_compute; congruence|].
  split; [apply runFrom_reachable|].
  split; vm_compute; reflexivity.
Qed.

Lemma capacity_check_fails_fast_witness :
  exists i,
    (i < Files (zipOf dataZip))%nat
    /\ setup asciiOnly utf8Always noDecode (worldOf "/data.zip" dataZip) (flagsWith 5 false)
       = SetupFailed [EvRemoveAll; EvOpenArchive; EvDownload; EvMkdirTemp]
           (ErrNoEnoughSpace (FileName (zipOf dataZip) i)
                             (bytesString (FileSize (zipOf dataZip) i))).
Proof.
  destruct (capacity_check_fails_fast asciiOnly utf8Always noDecode
              (worldOf "/data.zip" dataZip) (flagsWith 5 false)
              "/data.zip" "/tmp/gcs-unzip1" (zipOf dataZip)
              eq_refl eq_refl eq_refl eq_refl eq_refl eq_refl eq_refl eq_refl
              eq_refl ltac:(simpl; lia)
              (ex_intro _ 2%nat (conj (Nat.lt_succ_diag_r 2) (conj eq_refl eq_refl))))
    as (i & Hi & _ & _ & _ & Hsetup & _).
  exists i. split; [exact Hi|exact Hsetup].
Defined.

(** C2 (as stated) fails twice: when [run] fails on the largest entry the
    download has been made; and an entry that the junk filter excludes
    does not make it fail, however large. *)
Lemma capacity_failure_follows_download :
  setup asciiOnly utf8Always noDecode (worldOf "/data.zip" dataZip) (flagsWith 5 false)
  = SetupFailed [EvRemoveAll; EvOpenArchive; EvDownload; EvMkdirTemp]
                (ErrNoEnoughSpace "b/c.txt" "20b")
  /\ IsDir (zipOf junkZip) 0 = false
  /\ Flag.diskLimit (flagsWith 50 false) < FileSize (zipOf junkZip) 0
  /\ started (setup asciiOnly utf8Always noDecode (worldOf "/junk.zip" junkZip)
                     (flagsWith 50 false)) = true.
Proof.
  split; [vm_compute; reflexivity|].
  split; [vm_compute; reflexivity|].
  split; vm_compute; reflexivity.
Qed.

(** C3: an extension that passes the check of the source object only
    because that check lower-cases it makes [NewExtractor] reach its
    [panic]. *)
Theorem NewExtractor_panics_on_upper_case_extension :
  supportedFormat asciiOnly "/data.ZIP" = true
  /\ setup asciiOnly utf8Always noDecode (worldOf "/data.ZIP" dataZip) (flagsWith 1000 false)
     = SetupPanic [EvOpenArchive; EvDownload; EvMkdirTemp] "unreachable".
Proof.
  split; vm_compute; reflexivity.
Qed.

Lemma release_at_most_once_witness :
  Reachable (zipOf dataZip) (flagsWith 1000 false) "data"
            (runFrom (zipOf dataZip) (flagsWith 1000 false) "data" dataMovesUploaded)
  /\ NoDup (releasedOf
       (trace (runFrom (zipOf dataZip) (flagsWith 1000 false) "data" dataMovesUploaded))).
Proof.
  split; [apply runFrom_reachable|].
  exact (proj1 (release_at_most_once (zipOf dataZip) (flagsWith 1000 false) "data" _
                  (runFrom_reachable _ _ _ _))).
Defined.

(** C4 (as stated) fails where staging fails: [run] returns and the
    reservation of the entry has been granted and not released. *)
Lemma failed_staging_leaks_reservation :
  let st := runFrom (zipOf dataZip) (flagsWith 1000 false) "data" failedStaging in
  prod st = PDone (Some (ErrWriteTemp 0))
  /\ trace st = [EvRemoveAll; EvWriteTemp 0 false; EvAcquire 0]
  /\ outstanding (trace st) = [0%nat]
  /\ Semaphore.cur (sem st) = 10.
Proof.
  split; [vm_compute; reflexivity|].
  split; [vm_compute; reflexivity|].
  split; vm_compute; reflexivity.
Qed.



Lemma send_never_blocks_witness :
  filesCount (scan (zipOf dataZip) (flagsWith 1000 false) "data")
  = jobsBelow (zipOf dataZip) (flagsWith 1000 false) (Files (zipOf dataZip)).
Proof.
  exact (proj1 (send_never_blocks (zipOf dataZip) (flagsWith 1000 false) "data"
                  (runFrom (zipOf dataZip) (flagsWith 1000 false) "data" dataMoves)
                  (runFrom_reachable _ _ _ _))).
Defined.

Lemma junk_sent :
  In (EvSend 2) (trace (runFrom (zipOf junkZip) (flagsWith 1000 false) "junk" junkMoves)).
Proof.
  vm_compute. tauto.
Qed.

Lemma junk_entries_excluded_witness :
  Reachable (zipOf junkZip) (flagsWith 1000 false) "junk"
            (runFrom (zipOf junkZip) (flagsWith 1000 false) "junk" junkMoves)
  /\ skipMeta (flagsWith 1000 false) (FileName (zipOf junkZip) 2) = false.
Proof.
  split; [apply runFrom_reachable|].
  exact (proj2 (proj2 (proj2
            (junk_entries_excluded (zipOf junkZip) (flagsWith 1000 false) "junk"
               (runFrom (zipOf junkZip) (flagsWith 1000 false) "junk" junkMoves)
               (runFrom_reachable _ _ _ _)))) (EvSend 2) 2%nat junk_sent eq_refl).
Defined.

Example junk_run_default :
  trace (runFrom (zipOf junkZip) (flagsWith 1000 false) "junk" junkMoves)
  = [EvSpawn 2; EvRecv 2; EvSend 2; EvWriteTemp 2 true; EvAcquire 2].
Proof. vm_compute. reflexivity. Qed.

Example junk_run_with_meta :
  trace (runFrom (zipOf junkZip) (flagsWith 1000 true) "junk" dataMoves)
  = [EvSpawn 0; EvRecv 0; EvSend 1; EvWriteTemp 1 true; EvAcquire 1;
     EvSend 0; EvWriteTemp 0 true; EvAcquire 0].
Proof. vm_compute. reflexivity. Qed.

Lemma skipped_upload_returns_nil_witness :
  count (runFrom (zipOf threeZip) (flagsWith 1000 false) "three" cancelledRun)
  = toInt64 (Z.of_nat (countEv isCompleted
      (trace (runFrom (zipOf threeZip) (flagsWith 1000 false) "three" cancelledRun)))).
Proof.
  exact (proj1 (proj2 (proj2 (proj2 (proj2 (proj2
           (skipped_upload_returns_nil (zipOf threeZip) (flagsWith 1000 false) "three" _
              (runFrom_reachable _ _ _ _)))))))).
Defined.

(** C9 (as stated) fails in its last part: after a cancelled run in which
    an upload attempt was skipped, the counter is the number of uploads
    that completed; it is the number of attempts that returned nil that
    is larger. *)
Lemma upload_count_exact_after_cancel :
  let st := runFrom (zipOf threeZip) (flagsWith 1000 false) "three" cancelledRun in
  cancelled st = true
  /\ In (EvUpload 2 Skipped) (trace st)
  /\ count st = 1
  /\ countEv isCompleted (trace st) = 1%nat
  /\ countEv isNilUpload (trace st) = 2%nat.
Proof.
  cbv zeta.
  split; [vm_compute; reflexivity|].
  split; [vm_compute; auto|].
  split; [vm_compute; reflexivity|].
  split; vm_compute; reflexivity.
Qed.

Lemma bytesValue_Set_total_witness :
  bytesValue_Set asciiOnly "10GB" <> SetPanic
  /\ bytesValue_Set asciiOnly "10GB" = SetOk (10 * 1024 * 1024 * 1024).
Proof.
  split; [exact (proj1 (bytesValue_Set_total asciiOnly "10GB"))|].
  vm_compute. reflexivity.
Defined.


(** ** The pipeline: the life of a job *)

Ltac destruct_life H :=
  destruct H as [life_sent life_up life_rm life_rel].

Lemma count_entriesAt_setPc (p : WorkerPc -> bool) (ws : list Worker) (k : nat)
    (w : Worker) (pc : WorkerPc) (x : nat) :
  nth_error ws k = Some w ->
  (count_occ Nat.eq_dec
     (entriesAt p (updNth k (fun w0 => {| wjob := wjob w0; wpc := pc |}) ws)) x
   + count_occ Nat.eq_dec (entryIf p (wjob w) (wpc w)) x
   = count_occ Nat.eq_dec (entriesAt p ws) x
     + count_occ Nat.eq_dec (entryIf p (wjob w) pc) x)%nat.
Proof.
  intros Hk.
  apply (count_flat_map_updNth (fun w0 => entryIf p (wjob w0) (wpc w0))
           (fun w0 => {| wjob := wjob w0; wpc := pc |}) ws k w x Hk).
Qed.

Lemma entriesAt_app (p : WorkerPc -> bool) (ws ws' : list Worker) :
  entriesAt p (ws ++ ws') = (entriesAt p ws ++ entriesAt p ws')%list.
Proof.
  unfold entriesAt. apply flat_map_app.
Qed.

Section LifeInvariant.
Variable e : Extractor.
Variable fl : Flag.t.
Variable archiveName : string.

Lemma life_step (a : Action) (st st' : State) :
  Inv e fl archiveName st ->
  Life st -> step e fl archiveName a st = Some st' -> Life st'.
Proof.
  intros Hinv Hlife Hstep. destruct_life Hlife.
  pose proof (inv_start _ _ _ _ Hinv) as Hidle.
  constructor; intros x;
    specialize (life_sent x); specialize (life_up x);
    specialize (life_rm x); specialize (life_rel x);
    step_cases Hstep; auto;
    try (rewrite (Hidle eq_refl) in * );
    try match goal with
        | Hk : nth_error (workers ?s) ?k = Some ?w
          |- context [updNth ?k (fun w0 => {| wjob := wjob w0; wpc := ?pc |}) _] =>
            pose proof (count_entriesAt_setPc anyPc (workers s) k w pc x Hk) as Hu0;
            pose proof (count_entriesAt_setPc pastUpload (workers s) k w pc x Hk) as Hu1;
            pose proof (count_entriesAt_setPc pastRemove (workers s) k w pc x Hk) as Hu2;
            pose proof (count_entriesAt_setPc pastRelease (workers s) k w pc x Hk) as Hu3
        end;
    repeat match goal with
           | Heq : wpc _ = _ |- _ =>
               rewrite Heq in Hu0, Hu1, Hu2, Hu3; clear Heq
           end;
    rewrite ?map_app, ?entriesAt_app in *;
    cbn [sentOf uploadedOf removedOf releasedOf heldD] in *;
    rewrite ?count_occ_app in *;
    cbn [entriesAt entryIf anyPc pastUpload pastRemove pastRelease
         wjob wpc map flat_map app jobOf jobEntry count_occ] in *;
    repeat match goal with
           | |- context [Nat.eq_dec ?u ?v] => destruct (Nat.eq_dec u v)
           | H : context [Nat.eq_dec ?u ?v] |- _ => destruct (Nat.eq_dec u v)
           end;
    try lia.
Qed.

Lemma life_init : Life (initState fl).
Proof.
  constructor; intros x; reflexivity.
Qed.

Lemma reachable_life (st : State) :
  Reachable e fl archiveName st -> Life st.
Proof.
  induction 1; [apply life_init|].
  eapply life_step; [eapply reachable_inv| |]; eassumption.
Qed.

End LifeInvariant.


(** ** The pipeline: producer, dispatcher, cancellation and error *)

Ltac destruct_flow H :=
  destruct H as [flow_idle flow_start flow_closed flow_close_ev flow_removeall
                 flow_order flow_cancel flow_skip flow_waited flow_exit
                 flow_dexit flow_upto flow_all].

Lemma countEv_zero (p : Event -> bool) (tr : list Event) (ev : Event) :
  countEv p tr = 0%nat -> In ev tr -> p ev = false.
Proof.
  unfold countEv. induction tr as [|ev' tr IH]; simpl; [tauto|].
  destruct (p ev') eqn:Hp; simpl; [discriminate|].
  intros Hz [->|Hin]; auto.
Qed.

Lemma no_alive_all_exit (ws : list Worker) :
  List.length (filter alive ws) = 0%nat -> Forall (fun w => wpc w = WExit) ws.
Proof.
  induction ws as [|w ws IH]; simpl; [constructor|].
  unfold alive at 1. destruct (wpc w) eqn:Hpc; simpl; try discriminate.
  intros H. constructor; auto.
Qed.

Lemma all_exit_nth (ws : list Worker) (k : nat) (w : Worker) :
  Forall (fun w => wpc w = WExit) ws -> nth_error ws k = Some w -> wpc w = WExit.
Proof.
  intros Hall Hk. rewrite Forall_forall in Hall. apply Hall.
  eapply nth_error_In. eassumption.
Qed.

(** When [run] has come back from [uploadGroup.Wait], nothing moves. *)
Ltac frozen_by flow_waited Ha :=
  match goal with
  | Hp : prod ?st = PDone ?r, Hk : nth_error (workers ?st) ?k = Some ?w,
    Hpc : wpc ?w = _ |- _ =>
      let H := fresh in
      destruct (flow_waited r Hp Ha) as (_ & _ & H & _);
      rewrite (all_exit_nth _ _ _ H Hk) in Hpc; discriminate
  | Hp : prod ?st = PDone ?r, Hd : disp ?st = _ |- _ =>
      let H := fresh in
      destruct (flow_waited r Hp Ha) as (_ & H & _);
      rewrite H in Hd; discriminate
  end.

Ltac trace_grows := intros ? ?; simpl; tauto.

Ltac frozen flow_waited := frozen_by flow_waited (@eq_refl bool true).

Section FlowInvariant.
Variable e : Extractor.
Variable fl : Flag.t.
Variable archiveName : string.

Lemma active_zero (st : State) :
  active st = 0 ->
  (disp st = DIdle \/ disp st = DExit)
  /\ Forall (fun w => wpc w = WExit) (workers st).
Proof.
  unfold active. intros H.
  split; [destruct (disp st); auto; lia|].
  apply no_alive_all_exit. destruct (disp st); lia.
Qed.

Lemma gerr_monotone (a : Action) (st st' : State) (err : UploadError) :
  step e fl archiveName a st = Some st' -> gerr st = Some err -> gerr st' = Some err.
Proof.
  intros Hstep Herr. step_cases Hstep; auto; congruence.
Qed.

Lemma crashed_before (a : Action) (st st' : State) :
  step e fl archiveName a st = Some st' -> crashed st = false.
Proof.
  unfold step. destruct (crashed st); [discriminate|reflexivity].
Qed.

Lemma flow_step_idle (a : Action) (st st' : State) :
  Inv e fl archiveName st -> Flow e fl st ->
  step e fl archiveName a st = Some st' ->
  disp st' = DIdle -> prod st' = PStart.
Proof.
  intros Hinv Hflow Hstep. destruct_flow Hflow.
  step_cases Hstep; intros Hd; try discriminate;
    try (specialize (flow_idle Hd); congruence).
Qed.

Lemma flow_step_start (a : Action) (st st' : State) :
  Inv e fl archiveName st -> Flow e fl st ->
  step e fl archiveName a st = Some st' ->
  prod st' = PStart -> workers st' = [].
Proof.
  intros Hinv Hflow Hstep. destruct_flow Hflow.
  pose proof (inv_start _ _ _ _ Hinv) as Hidle.
  step_cases Hstep; intros Hp; try discriminate;
    try (specialize (Hidle Hp); discriminate);
    try (rewrite (flow_start Hp) in *;
         match goal with
         | Hk : nth_error [] ?k = Some _ |- _ => destruct k; discriminate
         end);
    auto.
Qed.

Lemma flow_step_closed (a : Action) (st st' : State) :
  Inv e fl archiveName st -> Flow e fl st ->
  step e fl archiveName a st = Some st' ->
  closed st' = afterLoop (prod st').
Proof.
  intros Hinv Hflow Hstep. destruct_flow Hflow.
  step_cases Hstep; auto;
    try (destruct (gerr st); exact flow_closed); try congruence.
Qed.

Lemma flow_step_close_ev (a : Action) (st st' : State) :
  Inv e fl archiveName st -> Flow e fl st ->
  step e fl archiveName a st = Some st' ->
  countEv isClose (trace st') = if closed st' then 1%nat else 0%nat.
Proof.
  intros Hinv Hflow Hstep.
  rewrite (flow_step_closed a st st' Hinv Hflow Hstep).
  destruct_flow Hflow. rewrite flow_closed in flow_close_ev. unfold countEv in *.
  clear flow_closed.
  step_cases Hstep; auto; cbn [filter isClose List.length afterLoop] in *; auto;
    try (destruct (gerr st); cbn; assumption); try lia.
Qed.

Lemma flow_step_removeall (a : Action) (st st' : State) :
  Inv e fl archiveName st -> Flow e fl st ->
  step e fl archiveName a st = Some st' ->
  countEv isRemoveAll (trace st')
  = match prod st' with PDone _ => 1%nat | _ => 0%nat end.
Proof.
  intros Hinv Hflow Hstep. destruct_flow Hflow. unfold countEv in *.
  step_cases Hstep; auto; cbn [filter isRemoveAll List.length]; auto;
    try (rewrite flow_removeall; reflexivity).
Qed.

Lemma flow_step_order (a : Action) (st st' : State) :
  Inv e fl archiveName st -> Flow e fl st ->
  step e fl archiveName a st = Some st' ->
  sendsBeforeClose (trace st').
Proof.
  intros Hinv Hflow Hstep. destruct_flow Hflow.
  step_cases Hstep; auto; cbn [sendsBeforeClose]; auto.
  split; [|assumption]. intros Hin.
  rewrite flow_closed in flow_close_ev. cbn in flow_close_ev.
  pose proof (countEv_zero _ _ _ flow_close_ev Hin). discriminate.
Qed.

Lemma flow_step_cancel (a : Action) (st st' : State) :
  Inv e fl archiveName st -> Flow e fl st ->
  step e fl archiveName a st = Some st' ->
  cancelled st' = true -> gerr st' <> None \/ prod st' = PDone None.
Proof.
  intros Hinv Hflow Hstep. destruct_flow Hflow.
  step_cases Hstep; intros Hc;
    try congruence;
    try (left; discriminate);
    try (destruct (gerr st); [left; discriminate|right; reflexivity]);
    try (destruct (flow_cancel Hc) as [H|H]; [left; congruence|]; try discriminate;
         try frozen flow_waited; right; assumption);
    try (destruct (flow_cancel eq_refl) as [H|H]; [left; congruence|]; try discriminate;
         try frozen flow_waited; right; assumption).
Qed.

Lemma flow_step_skip (a : Action) (st st' : State) :
  Inv e fl archiveName st -> Flow e fl st ->
  step e fl archiveName a st = Some st' ->
  forall i, In (EvUpload i Skipped) (trace st') -> gerr st' <> None.
Proof.
  intros Hinv Hflow Hstep. destruct_flow Hflow.
  step_cases Hstep; intros j Hin; cbn [In] in Hin;
    repeat match goal with
           | H : _ \/ _ |- _ => destruct H as [H|H]; try discriminate
           end;
    try (apply (flow_skip j); assumption);
    try (destruct (gerr st); discriminate);
    try discriminate.
  injection Hin as _ Hu. subst u. destruct (cancelled st) eqn:Hc.
  - destruct (flow_cancel eq_refl) as [H|H]; [assumption|frozen flow_waited].
  - destruct o; discriminate.
Qed.

Lemma flow_step_waited (a : Action) (st st' : State) :
  Inv e fl archiveName st -> Flow e fl st ->
  step e fl archiveName a st = Some st' ->
  forall r, prod st' = PDone r -> afterLoop (PDone r) = true ->
  r = option_map ErrUploads (gerr st') /\ disp st' = DExit
  /\ Forall (fun w => wpc w = WExit) (workers st') /\ crashed st' = false.
Proof.
  intros Hinv Hflow Hstep. pose proof (crashed_before _ _ _ Hstep) as Hcr.
  destruct_flow Hflow.
  step_cases Hstep; intros rr Hp Hafter; try discriminate;
    try (injection Hp as <-; discriminate);
    try frozen_by flow_waited Hafter.
  injection Hp as <-. apply Z.eqb_eq in Heqb0.
  destruct (active_zero _ Heqb0) as [[Hd|Hd] Hall].
  - specialize (flow_idle Hd). discriminate.
  - auto.
  - injection Hp as <-.
    destruct (flow_waited r0 eq_refl Hafter) as (_ & _ & Hall & _).
    rewrite (all_exit_nth _ _ _ Hall Heqo) in Heqw0. discriminate.
Qed.

Lemma exitOK_mono (tr tr' : list Event) (g g' : option UploadError)
    (c c' : bool) (ws : list Worker) :
  incl tr tr' -> (g <> None -> g' <> None) -> (c = true -> c' = true) ->
  Forall (exitOK tr g c) ws -> Forall (exitOK tr' g' c') ws.
Proof.
  intros Htr Hg Hc. apply Forall_impl. intros w Hw Hpc.
  destruct (Hw Hpc) as [H|[H|H]]; auto.
Qed.

Lemma flow_step_exit (a : Action) (st st' : State) :
  Inv e fl archiveName st -> Flow e fl st ->
  step e fl archiveName a st = Some st' ->
  Forall (exitOK (trace st') (gerr st') (crashed st')) (workers st').
Proof.
  intros Hinv Hflow Hstep. pose proof (inv_workers _ _ _ _ Hinv) as Hws.
  destruct_flow Hflow.
  step_cases Hstep;
    try match goal with Hc : crashed st = false |- _ => rewrite ?Hc end; auto;
    try (apply (exitOK_mono (trace st) _ (gerr st) _ false);
         [trace_grows|auto|auto|assumption]);
    try (apply Forall_app; split;
         [assumption|constructor; [intros H; discriminate|constructor]]);
    try (apply Forall_updNth;
         [apply (exitOK_mono (trace st) _ (gerr st) _ false);
          [trace_grows|congruence|auto|assumption]
         |intros x Hx _ Hpc; try discriminate]).
  - apply Forall_app. split.
    + apply (exitOK_mono (trace st) _ (gerr st) _ false);
        [trace_grows|auto|auto|assumption].
    + constructor; [intros H; discriminate|constructor].
  - right. right. reflexivity.
  - apply Forall_updNth;
      [refine (exitOK_mono _ _ _ _ _ _ _ _ _ _ flow_exit);
       [apply incl_refl|intros _; discriminate|auto]|].
    intros x _ _ _. right. left. discriminate.
  - apply Forall_updNth;
      [refine (exitOK_mono _ _ _ _ _ _ _ _ _ _ flow_exit);
       [apply incl_refl|intros _; discriminate|auto]|].
    intros x _ _ _. right. left. discriminate.
  - rewrite Hx in Heqo. injection Heqo as ->. cbn [wjob].
    rewrite Forall_forall in Hws.
    destruct (Hws w (nth_error_In _ _ Hx)) as [_ Hw]. rewrite Heqw0 in Hw.
    destruct Hw as [Hup _]. destruct r as [|err|]; try discriminate.
    + right. left. eapply flow_skip. eassumption.
    + left. assumption.
Qed.

Lemma flow_step_dexit (a : Action) (st st' : State) :
  Inv e fl archiveName st -> Flow e fl st ->
  step e fl archiveName a st = Some st' ->
  disp st' = DExit -> gerr st' <> None \/ (closed st' = true /\ ch st' = []).
Proof.
  intros Hinv Hflow Hstep. rewrite (flow_step_closed a st st' Hinv Hflow Hstep).
  destruct_flow Hflow. rewrite flow_closed in *.
  step_cases Hstep; intros Hd; try discriminate;
    try (left; discriminate);
    try (destruct (flow_dexit Hd) as [H|[H1 H2]];
         [left; exact H
         |try discriminate; right; split; auto;
          try (destruct (gerr st); reflexivity)]);
    try (right; split; auto; fail).
  destruct (flow_cancel eq_refl) as [H|H]; [left; exact H|].
  destruct (flow_waited None H eq_refl) as (_ & Hx & _). discriminate.
Qed.

Lemma flow_step_upto (a : Action) (st st' : State) :
  Inv e fl archiveName st -> Flow e fl st ->
  step e fl archiveName a st = Some st' ->
  forall j, (j < sentUpTo (prod st'))%nat -> isJob e fl j = true ->
  In j (sentOf (trace st')).
Proof.
  intros Hinv Hflow Hstep. destruct_flow Hflow.
  step_cases Hstep; cbn [sentUpTo sentOf] in *; intros j Hj Hjob;
    try (apply flow_upto; assumption); try lia;
    (destruct (Nat.eq_dec j i) as [->|Hne];
     [|try right; apply flow_upto; [lia|assumption]]).
  - unfold isJob in Hjob. rewrite Heqb2 in Hjob. discriminate.
  - unfold isJob in Hjob. rewrite Heqb3 in Hjob.
    rewrite andb_false_r in Hjob. discriminate.
  - left. reflexivity.
Qed.

Lemma flow_step_all (a : Action) (st st' : State) :
  Inv e fl archiveName st -> Flow e fl st ->
  step e fl archiveName a st = Some st' ->
  afterLoop (prod st') = true -> gerr st' = None ->
  forall j, (j < Files e)%nat -> isJob e fl j = true -> In j (sentOf (trace st')).
Proof.
  intros Hinv Hflow Hstep. destruct_flow Hflow.
  step_cases Hstep; cbn [sentUpTo sentOf afterLoop] in *; intros Ha Hg j Hj Hjob;
    try discriminate;
    try (apply flow_all; assumption).
  - norm_hyps. apply flow_upto; [lia|assumption].
  - destruct (flow_cancel eq_refl) as [H|H]; [contradiction|discriminate].
  - apply flow_all; auto.
Qed.

Lemma flow_step (a : Action) (st st' : State) :
  Inv e fl archiveName st -> Flow e fl st ->
  step e fl archiveName a st = Some st' -> Flow e fl st'.
Proof.
  intros Hinv Hflow Hstep. constructor.
  - eapply flow_step_idle; eassumption.
  - eapply flow_step_start; eassumption.
  - eapply flow_step_closed; eassumption.
  - eapply flow_step_close_ev; eassumption.
  - eapply flow_step_removeall; eassumption.
  - eapply flow_step_order; eassumption.
  - eapply flow_step_cancel; eassumption.
  - eapply flow_step_skip; eassumption.
  - eapply flow_step_waited; eassumption.
  - eapply flow_step_exit; eassumption.
  - eapply flow_step_dexit; eassumption.
  - eapply flow_step_upto; eassumption.
  - eapply flow_step_all; eassumption.
Qed.

Lemma flow_init : Flow e fl (initState fl).
Proof.
  constructor; cbn; auto; try discriminate; try lia; try tauto.
Qed.

Lemma reachable_flow (st : State) :
  Reachable e fl archiveName st -> Flow e fl st.
Proof.
  induction 1 as [|st a st' Hr IH Hstep]; [apply flow_init|].
  eapply flow_step; eauto using reachable_inv.
Qed.





End FlowInvariant.

(** ** The pipeline: how many goroutines run *)

Lemma alive_updNth_le (f : Worker -> Worker) (ws : list Worker) (k : nat) (w : Worker) :
  nth_error ws k = Some w -> alive w = true ->
  (List.length (filter alive (updNth k f ws)) <= List.length (filter alive ws))%nat.
Proof.
  revert k. induction ws as [|x ws IH]; intros [|k] Hk Hw; simpl in *; try discriminate.
  - injection Hk as ->. rewrite Hw. destruct (alive (f w)); simpl; lia.
  - specialize (IH k Hk Hw). destruct (alive x); simpl; lia.
Qed.

Lemma alive_app (ws : list Worker) (job : uploadJob) :
  List.length (filter alive (ws ++ [{| wjob := job; wpc := WUpload |}]))
  = S (List.length (filter alive ws)).
Proof.
  rewrite filter_app, length_app. simpl. lia.
Qed.

Section ConcInvariant.
Variable e : Extractor.
Variable fl : Flag.t.
Variable archiveName : string.

Lemma conc_init : Conc fl (initState fl).
Proof.
  intros Hl. unfold aliveWorkers, active. cbn. repeat split; auto; lia.
Qed.

Lemma conc_step (a : Action) (st st' : State) :
  Flow e fl st -> Conc fl st ->
  step e fl archiveName a st = Some st' -> Conc fl st'.
Proof.
  intros Hflow Hconc Hstep Hl. specialize (Hconc Hl).
  destruct Hconc as (Hw & Ha & Hnil). destruct_flow Hflow.
  unfold aliveWorkers in *.
  step_cases Hstep; unfold canGo, active in *; simpl_state;
    repeat match goal with
           | Heq : disp st = _ |- context [disp st] => rewrite Heq
           | Heq : disp st = _, H : context [match disp st with _ => _ end] |- _ =>
               rewrite Heq in H
           end;
    repeat match goal with
           | H : (_ || _) = true |- _ =>
               apply orb_true_iff in H; destruct H as [H|H]
           | H : (_ <? _) = true |- _ => apply Z.ltb_lt in H
           | H : (_ =? _) = true |- _ => apply Z.eqb_eq in H
           end;
    try match goal with
        | Hk : nth_error (workers st) ?k = Some ?w, Hpc : wpc ?w = _
          |- context [updNth ?k ?f _] =>
            pose proof (alive_updNth_le f _ _ _ Hk
                          ltac:(unfold alive; rewrite Hpc; reflexivity)) as Hle;
            assert (Hne : workers st <> [])
              by (intros Hn; rewrite Hn in Hk; destruct k; discriminate)
        end;
    rewrite ?alive_app;
    (split; [|split]);
    try (intros H1; specialize (Hnil H1); try contradiction; try assumption;
         exfalso; destruct (disp st); lia);
    try (destruct (disp st); lia).
Qed.

Lemma reachable_conc (st : State) :
  Reachable e fl archiveName st -> Conc fl st.
Proof.
  induction 1 as [|st a st' Hr IH Hstep]; [apply conc_init|].
  eapply conc_step; [apply (reachable_flow e fl archiveName)| |]; eassumption.
Qed.

End ConcInvariant.

(** ** What every run of the pipeline does *)

Lemma In_uploadedOf (x : nat) (tr : list Event) :
  In x (uploadedOf tr) <-> exists r, In (EvUpload x r) tr.
Proof.
  induction tr as [|ev tr IH]; simpl; [split; [tauto|intros [_ []]]|].
  destruct ev; simpl; rewrite ?IH; split; intros H;
    try (destruct H as (r' & [H|H]); [discriminate|exists r'; assumption]);
    try (destruct H as (r' & H); exists r'; right; assumption).
  - destruct H as [->|(r' & H)];
      [eexists; left; reflexivity|exists r'; right; assumption].
  - destruct H as (r' & [H|H]);
      [injection H as -> _; left; reflexivity|right; exists r'; assumption].
Qed.

Lemma In_removedOf (x : nat) (tr : list Event) :
  In x (removedOf tr) <-> exists ok, In (EvRemove x ok) tr.
Proof.
  induction tr as [|ev tr IH]; simpl; [split; [tauto|intros [_ []]]|].
  destruct ev; simpl; rewrite ?IH; split; intros H;
    try (destruct H as (r' & [H|H]); [discriminate|exists r'; assumption]);
    try (destruct H as (r' & H); exists r'; right; assumption).
  - destruct H as [->|(r' & H)];
      [eexists; left; reflexivity|exists r'; right; assumption].
  - destruct H as (r' & [H|H]);
      [injection H as -> _; left; reflexivity|right; exists r'; assumption].
Qed.

Lemma entriesAt_cons (p : WorkerPc -> bool) (w : Worker) (ws : list Worker) :
  entriesAt p (w :: ws) = (entryIf p (wjob w) (wpc w) ++ entriesAt p ws)%list.
Proof.
  reflexivity.
Qed.

Lemma count_entriesAt_le (p : WorkerPc -> bool) (ws : list Worker) (x : nat) :
  (count_occ Nat.eq_dec (entriesAt p ws) x
   <= count_occ Nat.eq_dec (entriesAt anyPc ws) x)%nat.
Proof.
  induction ws as [|w ws IH]; [simpl; lia|].
  rewrite !entriesAt_cons, !count_occ_app. unfold entryIf.
  change (anyPc (wpc w)) with true.
  destruct (p (wpc w)); simpl; try destruct (Nat.eq_dec _ _); lia.
Qed.

Lemma entriesAt_exit (p : WorkerPc -> bool) (ws : list Worker) :
  p WExit = true -> Forall (fun w => wpc w = WExit) ws ->
  entriesAt p ws = entriesAt anyPc ws.
Proof.
  intros Hp. induction 1 as [|w ws Hw _ IH]; [reflexivity|].
  rewrite !entriesAt_cons, IH. unfold entryIf. rewrite Hw, Hp.
  reflexivity.
Qed.

Lemma In_entriesAt_any (x : nat) (ws : list Worker) :
  In x (entriesAt anyPc ws) -> exists w, In w ws /\ jobEntry (wjob w) = x.
Proof.
  unfold entriesAt. rewrite in_flat_map. intros (w & Hw & Hx).
  exists w. split; [assumption|]. destruct Hx as [Hx|[]]. assumption.
Qed.

Lemma held_all_exit (ws : list Worker) :
  Forall (fun w => wpc w = WExit) ws -> flat_map heldW ws = [].
Proof.
  induction 1 as [|w ws Hw _ IH]; simpl; [reflexivity|].
  rewrite IH. unfold heldW. rewrite Hw. reflexivity.
Qed.

Lemma alive_all_exit (ws : list Worker) :
  Forall (fun w => wpc w = WExit) ws -> filter alive ws = [].
Proof.
  induction 1 as [|w ws Hw _ IH]; simpl; [reflexivity|].
  rewrite IH. unfold alive. rewrite Hw. reflexivity.
Qed.

Section PipelineFacts.
Variable e : Extractor.
Variable fl : Flag.t.
Variable archiveName : string.

(** A job that was sent and is neither in the channel nor with the
    dispatcher is the job of some worker. *)
Lemma sent_job_worker (st : State) (j : nat) :
  Life st -> ch st = [] -> heldD (disp st) = [] ->
  In j (sentOf (trace st)) ->
  exists w, In w (workers st) /\ jobEntry (wjob w) = j.
Proof.
  intros Hlife Hch Hd Hin. apply In_entriesAt_any.
  apply (count_occ_In Nat.eq_dec). apply (count_occ_In Nat.eq_dec) in Hin.
  rewrite (life_sent st Hlife), Hch, Hd in Hin. simpl in Hin. lia.
Qed.

(** X1: [run] returns nil only when every entry that is a file, and is not
    excluded as junk, has been uploaded to completion by a worker that then
    tried to remove the temp file and released the quota of the entry. *)
Theorem success_uploads_every_file (st : State) (j : nat) :
  Reachable e fl archiveName st ->
  prod st = PDone None ->
  (j < Files e)%nat -> isJob e fl j = true ->
  In (EvUpload j Completed) (trace st)
  /\ (exists ok, In (EvRemove j ok) (trace st))
  /\ In (EvRelease j) (trace st).
Proof.
  intros Hreach Hp Hj Hjob.
  pose proof (reachable_flow e fl archiveName st Hreach) as Hflow.
  pose proof (reachable_life e fl archiveName st Hreach) as Hlife.
  destruct (flow_waited e fl st Hflow None Hp eq_refl) as (Hg & Hd & Hall & Hcr).
  assert (Hgerr : gerr st = None) by (destruct (gerr st); [discriminate|reflexivity]).
  assert (Hsent : In j (sentOf (trace st))).
  { apply (flow_all e fl st Hflow); auto. rewrite Hp. reflexivity. }
  assert (Hch : ch st = []).
  { destruct (flow_dexit e fl st Hflow Hd) as [H|[_ H]]; [contradiction|assumption]. }
  destruct (sent_job_worker st j Hlife Hch) as (w & Hw & Hwj); auto.
  { rewrite Hd. reflexivity. }
  assert (Hany : In j (entriesAt anyPc (workers st))).
  { unfold entriesAt. apply in_flat_map. exists w. split; [assumption|].
    left. assumption. }
  split; [|split].
  - pose proof (flow_exit e fl st Hflow) as Hex. rewrite Forall_forall in Hex.
    rewrite Forall_forall in Hall.
    destruct (Hex w Hw (Hall w Hw)) as [H|[H|H]]; try congruence.
  - apply In_removedOf. apply (count_occ_In Nat.eq_dec).
    rewrite (life_rm st Hlife), (entriesAt_exit pastRemove) by auto.
    apply (count_occ_In Nat.eq_dec). assumption.
  - apply In_releasedOf. apply (count_occ_In Nat.eq_dec).
    rewrite (life_rel st Hlife), (entriesAt_exit pastRelease) by auto.
    apply (count_occ_In Nat.eq_dec). assumption.
Qed.

(** X2: when [run] comes back from [uploadGroup.Wait], with nil or with the
    error of an upload, the dispatcher and every worker have returned; the
    only quota still held is the one of the jobs left in the channel, and
    there is none when the result is nil. *)
Theorem wait_leaves_nothing_running (st : State) (r : option RunError) :
  Reachable e fl archiveName st ->
  prod st = PDone r -> afterLoop (PDone r) = true ->
  disp st = DExit /\ aliveWorkers st = 0
  /\ Permutation (outstanding (trace st)) (map jobEntry (ch st))
  /\ (r = None -> outstanding (trace st) = []).
Proof.
  intros Hreach Hp Ha.
  pose proof (reachable_flow e fl archiveName st Hreach) as Hflow.
  pose proof (reachable_inv e fl archiveName st Hreach) as Hinv.
  destruct (flow_waited e fl st Hflow r Hp Ha) as (Hg & Hd & Hall & Hcr).
  pose proof (outstanding_held e fl archiveName st Hinv) as Hperm.
  assert (Hheld : held st = map jobEntry (ch st)).
  { unfold held. rewrite Hp, Hd, held_all_exit by assumption.
    destruct r as [[]|]; try discriminate; simpl; rewrite app_nil_r; reflexivity. }
  rewrite Hheld in Hperm.
  split; [assumption|]. split; [|split].
  - unfold aliveWorkers. rewrite alive_all_exit by assumption. reflexivity.
  - exact Hperm.
  - intros ->. simpl in Hg.
    assert (Hgerr : gerr st = None) by (destruct (gerr st); [discriminate|reflexivity]).
    destruct (flow_dexit e fl st Hflow Hd) as [H|[_ H]]; [contradiction|].
    rewrite H in Hperm. apply Permutation_nil. apply Permutation_sym. exact Hperm.
Qed.


(** The quota of an entry is granted before its temp file is written, the
    file is written before the job is sent, and the job is sent before a
    worker uploads it. *)
Lemma staged_before_sent (st : State) :
  Reachable e fl archiveName st ->
  (forall i, prod st = PWrite i \/ prod st = PQueued i true ->
             In (EvAcquire i) (trace st))
  /\ (forall i, prod st = PSend i -> In (EvWriteTemp i true) (trace st))
  /\ (forall j ok, In (EvWriteTemp j ok) (trace st) -> In (EvAcquire j) (trace st))
  /\ (forall j, In (EvSend j) (trace st) -> In (EvWriteTemp j true) (trace st)).
Proof.
  induction 1 as [|a st st' Hreach IH Hstep].
  - cbn. repeat split; intros; try discriminate; try tauto.
    destruct H; discriminate.
  - destruct IH as (Hacq & Hwr & Hwa & Hsw).
    step_cases Hstep; (split; [|split; [|split]]);
      try (intros j [Hj|Hj]; try discriminate; try (injection Hj as <-); cbn [In];
           auto 6; fail);
      try (intros j Hj; try discriminate; try (injection Hj as <-); cbn [In] in *;
           auto 6; fail);
      try (intros j b Hj; cbn [In] in *;
           repeat match goal with
                  | H : _ \/ _ |- _ => destruct H as [H|H]; try discriminate
                  end;
           try (injection Hj as <- <-); eauto 8; fail);
      try (intros j Hj; cbn [In] in *;
           repeat match goal with
                  | H : _ \/ _ |- _ => destruct H as [H|H]; try discriminate
                  end;
           try (injection Hj as <-); eauto 8; fail).
Qed.

(** X4: every upload attempt is for an entry whose quota was granted, whose
    temp file was written without error and whose job was sent on the
    channel. *)
Theorem upload_follows_staging (st : State) (j : nat) (r : UploadResult) :
  Reachable e fl archiveName st ->
  In (EvUpload j r) (trace st) ->
  In (EvAcquire j) (trace st) /\ In (EvWriteTemp j true) (trace st)
  /\ In (EvSend j) (trace st).
Proof.
  intros Hreach Hup.
  destruct (staged_before_sent st Hreach) as (_ & _ & Hwa & Hsw).
  pose proof (reachable_life e fl archiveName st Hreach) as Hlife.
  assert (Hsent : In (EvSend j) (trace st)).
  { apply In_sentOf. apply (count_occ_In Nat.eq_dec).
    assert (Hin : In j (uploadedOf (trace st))) by (apply In_uploadedOf; eauto).
    apply (count_occ_In Nat.eq_dec) in Hin.
    rewrite (life_up st Hlife) in Hin. rewrite (life_sent st Hlife).
    pose proof (count_entriesAt_le pastUpload (workers st) j). lia. }
  pose proof (Hsw j Hsent) as Hw. pose proof (Hwa j true Hw) as Ha.
  split; [assumption|]. split; assumption.
Qed.

(** X5: for [-n] from 0 to 2^63 - 2, never more than [n] workers are between
    their start and their return. *)
Theorem upload_concurrency_bound (st : State) :
  0 <= Flag.n fl <= 2 ^ 63 - 2 ->
  Reachable e fl archiveName st ->
  aliveWorkers st <= Flag.n fl.
Proof.
  intros Hn Hreach.
  pose proof (reachable_conc e fl archiveName st Hreach) as Hconc.
  unfold Conc, limit in Hconc. rewrite toInt64_small in Hconc by lia.
  destruct (Hconc ltac:(lia)) as (Hw & _). lia.
Qed.

(** X6: with [-n 0] the only place of the group is taken by the dispatcher, and
    with [-n -1] there is none: no worker ever starts and nothing is
    uploaded; if the archive holds a file to upload, [run] never comes
    back from [uploadGroup.Wait]. *)
Theorem no_worker_place_no_upload (st : State) :
  Flag.n fl = 0 \/ Flag.n fl = -1 ->
  Reachable e fl archiveName st ->
  workers st = [] /\ uploadedOf (trace st) = []
  /\ (forall j r, (j < Files e)%nat -> isJob e fl j = true ->
        prod st = PDone r -> afterLoop (PDone r) = false).
Proof.
  intros Hn Hreach.
  pose proof (reachable_conc e fl archiveName st Hreach) as Hconc.
  pose proof (reachable_life e fl archiveName st Hreach) as Hlife.
  pose proof (reachable_flow e fl archiveName st Hreach) as Hflow.
  pose proof (reachable_inv e fl archiveName st Hreach) as Hinv.
  assert (Hl : 0 <= limit fl <= 1).
  { unfold limit. rewrite toInt64_small by lia. lia. }
  destruct (Hconc ltac:(lia)) as (_ & _ & Hnil). specialize (Hnil ltac:(lia)).
  assert (Hup : uploadedOf (trace st) = []).
  { destruct (uploadedOf (trace st)) as [|x l] eqn:Heq; [reflexivity|].
    pose proof (life_up st Hlife x) as Hc. rewrite Heq, Hnil in Hc.
    simpl in Hc. destruct (Nat.eq_dec x x); [discriminate|contradiction]. }
  split; [assumption|]. split; [assumption|].
  intros j r Hj Hjob Hp. destruct (afterLoop (PDone r)) eqn:Ha; [|reflexivity].
  exfalso.
  destruct (flow_waited e fl st Hflow r Hp Ha) as (Hg & Hd & _).
  destruct (gerr st) as [err|] eqn:Hgerr.
  - destruct (inv_gerr _ _ _ _ Hinv err Hgerr) as (i & Hi).
    assert (Hin : In i (uploadedOf (trace st))) by (apply In_uploadedOf; eauto).
    rewrite Hup in Hin. destruct Hin.
  - assert (Hsent : In j (sentOf (trace st))).
    { apply (flow_all e fl st Hflow); auto. rewrite Hp. assumption. }
    assert (Hch : ch st = []).
    { destruct (flow_dexit e fl st Hflow Hd) as [H|[_ H]]; [congruence|assumption]. }
    destruct (sent_job_worker st j Hlife Hch) as (w & Hw & _); auto.
    + rewrite Hd. reflexivity.
    + rewrite Hnil in Hw. destruct Hw.
Qed.

(** X7: the error [run] returns from [uploadGroup.Wait] is the one the group
    recorded, and it is the error of an upload attempt that failed. *)
Theorem uploads_error_is_a_failed_upload (st : State) (err : UploadError) :
  Reachable e fl archiveName st ->
  prod st = PDone (Some (ErrUploads err)) ->
  gerr st = Some err /\ exists j, In (EvUpload j (Failed err)) (trace st).
Proof.
  intros Hreach Hp.
  pose proof (reachable_flow e fl archiveName st Hreach) as Hflow.
  pose proof (reachable_inv e fl archiveName st Hreach) as Hinv.
  destruct (flow_waited e fl st Hflow _ Hp eq_refl) as (Hg & _).
  destruct (gerr st) as [err'|] eqn:Hgerr; [|discriminate].
  injection Hg as ->. split; [reflexivity|].
  apply (inv_gerr _ _ _ _ Hinv). assumption.
Qed.

(** X8: the job channel is closed at most once, exactly when the producer has
    left its loop without an error of its own, and no job is sent on it
    after that: neither [close] nor the send of [run] can panic. *)
Theorem channel_closed_once_after_sends (st : State) :
  Reachable e fl archiveName st ->
  countEv isClose (trace st) = (if afterLoop (prod st) then 1%nat else 0%nat)
  /\ closed st = afterLoop (prod st)
  /\ sendsBeforeClose (trace st).
Proof.
  intros Hreach.
  pose proof (reachable_flow e fl archiveName st Hreach) as Hflow.
  rewrite (flow_close_ev e fl st Hflow), (flow_closed e fl st Hflow).
  split; [reflexivity|]. split; [reflexivity|]. apply (flow_order e fl st Hflow).
Qed.

(** X9: the deferred [os.RemoveAll(workDir)] has run exactly once when [run]
    has returned, by whichever [return], and not at all before. *)
Theorem work_dir_removed_on_return (st : State) :
  Reachable e fl archiveName st ->
  countEv isRemoveAll (trace st)
  = match prod st with PDone _ => 1%nat | _ => 0%nat end.
Proof.
  intros Hreach.
  apply (flow_removeall e fl st (reachable_flow e fl archiveName st Hreach)).
Qed.

(** X10: an upload is skipped only after an upload of the same run has failed:
    the cancellation a worker can see comes from the error of a worker, so
    a run that skipped an upload does not return nil. *)
Theorem skipped_upload_follows_failure (st : State) (i : nat) :
  Reachable e fl archiveName st ->
  In (EvUpload i Skipped) (trace st) ->
  (exists err j, gerr st = Some err /\ In (EvUpload j (Failed err)) (trace st))
  /\ prod st <> PDone None.
Proof.
  intros Hreach Hin.
  pose proof (reachable_flow e fl archiveName st Hreach) as Hflow.
  pose proof (reachable_inv e fl archiveName st Hreach) as Hinv.
  pose proof (flow_skip e fl st Hflow i Hin) as Hg.
  destruct (gerr st) as [err|] eqn:Hgerr; [|contradiction].
  split.
  - destruct (inv_gerr _ _ _ _ Hinv err Hgerr) as (j & Hj). eauto.
  - intros Hp. destruct (flow_waited e fl st Hflow None Hp eq_refl) as (H & _).
    rewrite Hgerr in H. discriminate.
Qed.

End PipelineFacts.

(** ** The pipeline: no deadlock *)

Lemma Release_not_woken (s s' : Semaphore.Weighted) (n w : Z) :
  Semaphore.waiters s = [w] ->
  Semaphore.Release s n = Semaphore.Released s' 0 ->
  toInt64 (Semaphore.size s' - Semaphore.cur s') < w.
Proof.
  intros Hw. unfold Semaphore.Release, Semaphore.notifyWaiters.
  cbn [Semaphore.cur Semaphore.size Semaphore.waiters]. rewrite Hw.
  destruct (_ <? 0); [discriminate|]. cbn [Semaphore.notifyLoop].
  destruct (_ <? w) eqn:Hlt.
  - intros Heq. injection Heq as <-. cbn. apply Z.ltb_lt. assumption.
  - discriminate.
Qed.

Lemma Acquire_blocked (s s' : Semaphore.Weighted) (n : Z) :
  Semaphore.waiters s = [] ->
  Semaphore.Acquire s n = Semaphore.Enqueued s' ->
  toInt64 (Semaphore.size s' - Semaphore.cur s') < n.
Proof.
  intros Hw. unfold Semaphore.Acquire. rewrite Hw. cbn [List.length Nat.eqb].
  rewrite andb_true_r. destruct (n <=? _) eqn:Hle; [discriminate|].
  destruct (_ <? n); [discriminate|].
  intros Heq. injection Heq as <-. cbn. apply Z.leb_gt. assumption.
Qed.

Lemma alive_worker (ws : list Worker) :
  (0 < List.length (filter alive ws))%nat ->
  exists w, In w ws /\ alive w = true.
Proof.
  destruct (filter alive ws) as [|w l] eqn:Heq; simpl; [lia|]. intros _.
  assert (Hin : In w (filter alive ws)) by (rewrite Heq; left; reflexivity).
  apply filter_In in Hin. eauto.
Qed.

Lemma held_worker (ws : list Worker) :
  flat_map heldW ws <> [] -> exists w, In w ws /\ alive w = true.
Proof.
  induction ws as [|w ws IH]; simpl; [congruence|].
  unfold heldW at 1, heldAt. intros Hne.
  destruct (wpc w) eqn:Hpc;
    try (exists w; split; [left; reflexivity|unfold alive; rewrite Hpc; reflexivity]);
    destruct (IH Hne) as (w' & Hin & Ha); exists w'; auto.
Qed.

Section Progress.
Variable e : Extractor.
Variable fl : Flag.t.
Variable archiveName : string.

Hypothesis Hlimit : 0 <= Flag.diskLimit fl < 2 ^ 63.
Hypothesis Hsizes : forall i, (i < Files e)%nat -> isU64 (FileSize e i).
Hypothesis Hcheck : largestSize (scan e fl archiveName) <= Flag.diskLimit fl.

(** A worker that has not returned can always make its next move. *)
Lemma worker_moves (st : State) (w : Worker) :
  crashed st = false -> In w (workers st) -> alive w = true ->
  exists a st', step e fl archiveName a st = Some st'.
Proof.
  intros Hcr Hin Ha. apply In_nth_error in Hin. destruct Hin as [k Hk].
  unfold alive in Ha. destruct (wpc w) as [|r|r|r|] eqn:Hpc; try discriminate.
  - exists (AUpload k Succeeds). unfold step, stepUpload. rewrite Hcr, Hk, Hpc.
    destruct (upload _ _ _). eauto.
  - exists (ARemove k true). unfold step, stepRemove. rewrite Hcr, Hk, Hpc.
    cbv beta iota delta [local]. eauto.
  - exists (ARelease k). unfold step, stepRelease. rewrite Hcr, Hk, Hpc.
    destruct (Semaphore.Release _ _); eauto.
  - exists (AReturn k). unfold step, stepReturn. rewrite Hcr, Hk, Hpc. eauto.
Qed.

(** The request of the producer never exceeds the size of the semaphore:
    its [Acquire] is granted or queued, never left to wait for the
    cancellation alone. *)
Lemma never_doomed (st : State) :
  Reachable e fl archiveName st -> forall i, prod st <> PDoomed i.
Proof.
  induction 1 as [|a st st' Hreach IH Hstep]; [discriminate|].
  pose proof (reachable_inv e fl archiveName st Hreach) as Hinv.
  pose proof (inv_pos _ _ _ _ Hinv) as Hpos.
  pose proof (inv_size _ _ _ _ Hinv) as Hsz.
  rewrite toInt64_small in Hsz by lia.
  step_cases Hstep; intros j Hj; try discriminate; try (eapply IH; eassumption).
  cbn [posOK] in Hpos. destruct Hpos as [Hlt Hjob].
  destruct (job_size e fl archiveName Hlimit Hsizes Hcheck i Hlt Hjob) as [Hr Hc].
  match goal with
  | Heq : Semaphore.Acquire _ _ = Semaphore.Doomed |- _ =>
      unfold Semaphore.Acquire in Heq; rewrite Hc, Hsz in Heq;
      destruct (_ && _); [discriminate|];
      destruct (_ <? _) eqn:Hlt'; [apply Z.ltb_lt in Hlt'; lia|discriminate]
  end.
Qed.

(** X11: after the check of the largest entry, with a limit below 2^63, no
    request of the producer exceeds the size of the semaphore: [Acquire]
    grants it or queues it, and never leaves the producer to wait for the
    cancellation alone. *)
Theorem acquire_granted_or_queued (st : State) (i : nat) :
  Reachable e fl archiveName st ->
  prod st <> PDoomed i
  /\ (prod st = PAcquire i ->
      Semaphore.Acquire (sem st) (toInt64 (FileSize e i)) <> Semaphore.Doomed).
Proof.
  intros Hreach. split; [apply never_doomed; assumption|].
  intros Hp Hacq.
  destruct (reachable_sem e fl archiveName Hlimit Hsizes Hcheck st Hreach)
    as (_ & _ & Hcr).
  apply (never_doomed (setProd (PDoomed i) st)) with (i := i); [|reflexivity].
  apply (ReachStep e fl archiveName (AProd true) st); [assumption|].
  unfold step, stepProd. rewrite Hcr, Hp, Hacq. reflexivity.
Qed.

(** While the producer waits in the queue of the semaphore, its request
    does not fit what is free. *)
Lemma queued_does_not_fit (st : State) :
  Reachable e fl archiveName st ->
  forall i, prod st = PQueued i false ->
  Flag.diskLimit fl - Semaphore.cur (sem st) < FileSize e i.
Proof.
  induction 1 as [|a st st' Hreach IH Hstep]; [discriminate|].
  pose proof (reachable_inv e fl archiveName st Hreach) as Hinv.
  pose proof (reachable_sem e fl archiveName Hlimit Hsizes Hcheck st Hreach) as Hsem.
  pose proof (step_sem e fl archiveName Hlimit Hsizes Hcheck a st st' Hinv Hsem Hstep)
    as (Hcur' & Hle' & Hcr').
  pose proof (inv_step e fl archiveName a st st' Hinv Hstep) as Hinv'.
  pose proof (held_parts_nonneg e fl archiveName Hlimit Hsizes Hcheck st' Hinv')
    as (Hn1 & Hn2 & Hn3 & Hn4).
  assert (Hnn : 0 <= Semaphore.cur (sem st')).
  { rewrite Hcur'. unfold held. rewrite !map_app, !sumZ_app. lia. }
  pose proof (inv_size _ _ _ _ Hinv') as Hsz'.
  rewrite toInt64_small in Hsz' by lia.
  pose proof (inv_pos _ _ _ _ Hinv') as Hpos'.
  pose proof (inv_waiters _ _ _ _ Hinv) as Hwt.
  intros j Hj. rewrite Hj in Hpos'. cbn [posOK] in Hpos'. destruct Hpos' as [Hlt Hjob].
  destruct (job_size e fl archiveName Hlimit Hsizes Hcheck j Hlt Hjob) as [Hr Hc].
  revert Hj Hcur' Hle' Hcr' Hnn Hsz'. clear Hinv' Hn1 Hn2 Hn3 Hn4.
  step_cases Hstep; intros Hj Hcur' Hle' Hcr' Hnn Hsz'; try discriminate;
    try (injection Hj as ->); try (injection Hj as -> ->);
    try (apply IH; assumption).
  - pose proof (Acquire_blocked _ _ _ Hwt Heqa1) as Hb.
    rewrite Hc, Hsz', toInt64_small in Hb by lia. assumption.
  - pose proof (Release_not_woken _ _ _ _ Hwt Heqr0) as Hb.
    rewrite Hc, Hsz', toInt64_small in Hb by lia. assumption.
Qed.

(** The error of a worker cancels the context of the group. *)
Lemma error_cancels (st : State) :
  Reachable e fl archiveName st -> gerr st <> None -> cancelled st = true.
Proof.
  induction 1 as [|a st st' Hreach IH Hstep]; [intros H; contradiction H; reflexivity|].
  step_cases Hstep; intros Hg; try reflexivity; try (apply IH; assumption);
    try (apply IH; congruence); try assumption;
    try (specialize (IH Hg); discriminate).
Qed.

Lemma dispatcher_moves (st : State) :
  2 <= limit fl \/ limit fl < 0 ->
  crashed st = false ->
  (disp st = DSelect /\ (ch st <> [] \/ closed st = true))
  \/ (exists job, disp st = DSpawn job) ->
  exists a st', step e fl archiveName a st = Some st'.
Proof.
  intros Hl Hcr [[Hd Hch]|[job Hd]].
  - exists ADispRecv. unfold step, stepDispRecv. rewrite Hcr, Hd.
    destruct (ch st) as [|job rest]; [|eauto].
    destruct Hch as [Hch|Hch]; [congruence|]. rewrite Hch. eauto.
  - destruct (List.length (filter alive (workers st))) as [|m] eqn:Hlen.
    + assert (Hgo : canGo fl st = true).
      { unfold canGo, active. rewrite Hd, Hlen. apply orb_true_iff.
        destruct Hl as [Hl|Hl]; [right|left]; apply Z.ltb_lt; simpl; lia. }
      exists ADispSpawn. unfold step, stepDispSpawn. rewrite Hcr, Hd, Hgo. eauto.
    + destruct (alive_worker (workers st)) as (w & Hin & Ha); [lia|].
      eapply worker_moves; eassumption.
Qed.

(** X12: for [-n] from 1 to 2^63 - 2, a limit below 2^63 and an archive that has
    passed the check of the largest entry, the pipeline has no deadlock:
    as long as [run] has not returned, the producer, the dispatcher or a
    worker can make its next move. *)
Theorem pipeline_never_stuck (st : State) :
  1 <= Flag.n fl <= 2 ^ 63 - 2 ->
  Reachable e fl archiveName st ->
  (forall r, prod st <> PDone r) ->
  exists a st', step e fl archiveName a st = Some st'.
Proof.
  intros Hn Hreach Hrun.
  pose proof (reachable_inv e fl archiveName st Hreach) as Hinv.
  pose proof (reachable_flow e fl archiveName st Hreach) as Hflow.
  destruct (reachable_sem e fl archiveName Hlimit Hsizes Hcheck st Hreach)
    as (Hcur & Hle & Hcr).
  assert (Hl : 2 <= limit fl \/ limit fl < 0).
  { left. unfold limit. rewrite toInt64_small; lia. }
  assert (Hprod : forall st', stepProd e fl archiveName true st = Some st' ->
            exists a st', step e fl archiveName a st = Some st').
  { intros st' H. exists (AProd true), st'. unfold step. rewrite Hcr. assumption. }
  (* whoever is not the producer and can move *)
  assert (Hother :
    0 < active st -> (disp st = DSelect -> ch st <> [] \/ closed st = true) ->
    exists a st', step e fl archiveName a st = Some st').
  { unfold active. intros Hact Hsel.
    destruct (disp st) as [| |job|] eqn:Hd;
      try (apply dispatcher_moves; auto; eauto; fail);
      destruct (alive_worker (workers st)) as (w & Hin & Ha); try lia;
      eapply worker_moves; eassumption. }
  destruct (prod st) as [|i|i|i|i [|]|i|i| |r] eqn:Hp.
  - (* PStart *)
    assert (Hgo : canGo fl st = true).
    { unfold canGo, active.
      rewrite (inv_start _ _ _ _ Hinv Hp), (flow_start e fl st Hflow Hp).
      apply orb_true_iff.
      destruct Hl as [Hl|Hl]; [right|left]; apply Z.ltb_lt; simpl; lia. }
    apply (Hprod (setDisp DSelect (setProd (PTop 0) st))).
    unfold stepProd. rewrite Hp, Hgo. reflexivity.
  - (* PTop *)
    unfold stepProd in Hprod. rewrite Hp in Hprod.
    destruct (Files e <=? i)%nat; [eauto|]. destruct (cancelled st); [eauto|].
    destruct (skipMeta fl (FileName e i)); [eauto|].
    destruct (IsDir e i); eauto.
  - (* PAcquire *)
    unfold stepProd in Hprod. rewrite Hp in Hprod.
    destruct (Semaphore.Acquire _ _); eauto.
  - (* PDoomed *)
    exfalso. apply (never_doomed st Hreach i Hp).
  - (* PQueued, granted *)
    unfold stepProd in Hprod. rewrite Hp in Hprod. eauto.
  - (* PQueued, waiting *)
    destruct (cancelled st) eqn:Hc.
    { unfold stepProd in Hprod. rewrite Hp, Hc in Hprod. eauto. }
    pose proof (queued_does_not_fit st Hreach i Hp) as Hfit.
    pose proof (inv_pos _ _ _ _ Hinv) as Hpos. rewrite Hp in Hpos.
    destruct Hpos as [Hlt Hjob].
    destruct (job_size e fl archiveName Hlimit Hsizes Hcheck i Hlt Hjob) as [Hr _].
    assert (Hheld : held st <> []).
    { intros Hnil. rewrite Hnil in Hcur. simpl in Hcur. lia. }
    unfold held in Hheld. rewrite Hp in Hheld. cbn [heldP app] in Hheld.
    destruct (flat_map heldW (workers st)) as [|x l] eqn:Hw.
    + rewrite app_nil_r in Hheld.
      destruct (disp st) as [| |job|] eqn:Hd.
      * pose proof (flow_idle e fl st Hflow Hd). congruence.
      * apply dispatcher_moves; auto. left. split; [assumption|]. left.
        cbn [heldD] in Hheld. rewrite app_nil_r in Hheld.
        intros Hnil. rewrite Hnil in Hheld. apply Hheld. reflexivity.
      * apply dispatcher_moves; auto. right. rewrite Hd. eauto.
      * destruct (flow_dexit e fl st Hflow Hd) as [Hg|[_ Hch]].
        -- rewrite (error_cancels st Hreach Hg) in Hc. discriminate.
        -- rewrite Hch in Hheld. contradiction Hheld. reflexivity.
    + destruct (held_worker (workers st)) as (w & Hin & Ha); [rewrite Hw; discriminate|].
      eapply worker_moves; eassumption.
  - (* PWrite *)
    unfold stepProd in Hprod. rewrite Hp in Hprod. eauto.
  - (* PSend *)
    pose proof (inv_pos _ _ _ _ Hinv) as Hpos. rewrite Hp in Hpos.
    destruct Hpos as [Hlt Hjob].
    pose proof (sent_count e fl archiveName st Hinv) as Hsent.
    rewrite Hp in Hsent. cbn [sendBound] in Hsent.
    pose proof (inv_ch_len _ _ _ _ Hinv) as Hlen.
    pose proof (jobsBelow_S e fl i) as HS. rewrite Hjob in HS.
    pose proof (jobsBelow_le e fl (S i) (Files e) Hlt).
    unfold stepProd in Hprod. rewrite Hp, (scan_filesCount e fl archiveName) in Hprod.
    destruct (_ <? _)%nat eqn:Hroom; [eauto|]. apply Nat.ltb_ge in Hroom. lia.
  - (* PWait *)
    destruct (active st =? 0) eqn:Hact.
    { unfold stepProd in Hprod. rewrite Hp, Hact in Hprod. eauto. }
    apply Z.eqb_neq in Hact. apply Hother.
    + unfold active in *. destruct (disp st); lia.
    + intros _. right. rewrite (flow_closed e fl st Hflow), Hp. reflexivity.
  - exfalso. apply (Hrun r). reflexivity.
Qed.

End Progress.


(** ** The properties above, on the runs of the examples *)

Lemma success_uploads_every_file_witness :
  let st := runFrom (zipOf dataZip) (flagsWith 1000 false) "data" completeRun in
  prod st = PDone None
  /\ isJob (zipOf dataZip) (flagsWith 1000 false) 2 = true
  /\ In (EvUpload 2 Completed) (trace st)
  /\ (exists ok, In (EvRemove 2 ok) (trace st))
  /\ In (EvRelease 2) (trace st).
Proof.
  cbv zeta.
  assert (Hp : prod (runFrom (zipOf dataZip) (flagsWith 1000 false) "data" completeRun)
               = PDone None) by (vm_compute; reflexivity).
  assert (Hj : (2 < Files (zipOf dataZip))%nat) by (simpl; lia).
  assert (Hjob : isJob (zipOf dataZip) (flagsWith 1000 false) 2 = true)
    by (vm_compute; reflexivity).
  split; [exact Hp|]. split; [exact Hjob|].
  exact (success_uploads_every_file (zipOf dataZip) (flagsWith 1000 false) "data" _ 2%nat
           (runFrom_reachable _ _ _ _) Hp Hj Hjob).
Defined.

Lemma wait_leaves_nothing_running_witness :
  let st := runFrom (zipOf threeZip) (flagsWith 1000 false) "three" cancelledRunToEnd in
  prod st = PDone (Some (ErrUploads ErrUpload))
  /\ disp st = DExit /\ aliveWorkers st = 0
  /\ Permutation (outstanding (trace st)) (map jobEntry (ch st)).
Proof.
  cbv zeta.
  assert (Hp : prod (runFrom (zipOf threeZip) (flagsWith 1000 false) "three"
                       cancelledRunToEnd)
               = PDone (Some (ErrUploads ErrUpload))) by (vm_compute; reflexivity).
  split; [exact Hp|].
  pose proof (wait_leaves_nothing_running (zipOf threeZip) (flagsWith 1000 false) "three"
                _ _ (runFrom_reachable _ _ _ _) Hp eq_refl) as (H1 & H2 & H3 & _).
  split; [exact H1|]. split; [exact H2|exact H3].
Defined.


Lemma upload_follows_staging_witness :
  let st := runFrom (zipOf dataZip) (flagsWith 1000 false) "data" dataMovesUploaded in
  In (EvUpload 0 Completed) (trace st)
  /\ In (EvAcquire 0) (trace st) /\ In (EvWriteTemp 0 true) (trace st)
  /\ In (EvSend 0) (trace st).
Proof.
  cbv zeta.
  assert (Hup : In (EvUpload 0 Completed)
                  (trace (runFrom (zipOf dataZip) (flagsWith 1000 false) "data"
                            dataMovesUploaded)))
    by (vm_compute; tauto).
  split; [exact Hup|].
  exact (upload_follows_staging (zipOf dataZip) (flagsWith 1000 false) "data" _ 0%nat
           Completed (runFrom_reachable _ _ _ _) Hup).
Defined.

Lemma upload_concurrency_bound_witness :
  0 <= Flag.n (flagsWith 1000 false) <= 2 ^ 63 - 2
  /\ aliveWorkers (runFrom (zipOf threeZip) (flagsWith 1000 false) "three" cancelledRun)
     <= 2.
Proof.
  assert (Hn : 0 <= Flag.n (flagsWith 1000 false) <= 2 ^ 63 - 2) by (simpl; lia).
  split; [exact Hn|].
  exact (upload_concurrency_bound (zipOf threeZip) (flagsWith 1000 false) "three" _ Hn
           (runFrom_reachable _ _ _ _)).
Defined.

Lemma no_worker_place_no_upload_witness :
  let st := runFrom (zipOf dataZip) (flagsN 0 1000) "data" stuckMoves in
  Flag.n (flagsN 0 1000) = 0
  /\ prod st = PWait
  /\ workers st = [] /\ uploadedOf (trace st) = [].
Proof.
  cbv zeta. split; [reflexivity|]. split; [vm_compute; reflexivity|].
  pose proof (no_worker_place_no_upload (zipOf dataZip) (flagsN 0 1000) "data" _
                (or_introl eq_refl) (runFrom_reachable _ _ _ stuckMoves))
    as (H1 & H2 & _).
  split; [exact H1|exact H2].
Defined.

Lemma uploads_error_is_a_failed_upload_witness :
  let st := runFrom (zipOf threeZip) (flagsWith 1000 false) "three" cancelledRunToEnd in
  prod st = PDone (Some (ErrUploads ErrUpload))
  /\ gerr st = Some ErrUpload
  /\ exists j, In (EvUpload j (Failed ErrUpload)) (trace st).
Proof.
  cbv zeta.
  assert (Hp : prod (runFrom (zipOf threeZip) (flagsWith 1000 false) "three"
                       cancelledRunToEnd)
               = PDone (Some (ErrUploads ErrUpload))) by (vm_compute; reflexivity).
  split; [exact Hp|].
  exact (uploads_error_is_a_failed_upload (zipOf threeZip) (flagsWith 1000 false) "three"
           _ ErrUpload (runFrom_reachable _ _ _ _) Hp).
Defined.

Lemma channel_closed_once_after_sends_witness :
  let st := runFrom (zipOf dataZip) (flagsWith 1000 false) "data" completeRun in
  Reachable (zipOf dataZip) (flagsWith 1000 false) "data" st
  /\ closed st = afterLoop (prod st)
  /\ sendsBeforeClose (trace st).
Proof.
  cbv zeta. split; [apply runFrom_reachable|].
  exact (proj2 (channel_closed_once_after_sends (zipOf dataZip) (flagsWith 1000 false)
                  "data" _ (runFrom_reachable _ _ _ _))).
Defined.

Lemma work_dir_removed_on_return_witness :
  let st := runFrom (zipOf dataZip) (flagsWith 1000 false) "data" failedStaging in
  Reachable (zipOf dataZip) (flagsWith 1000 false) "data" st
  /\ countEv isRemoveAll (trace st)
     = match prod st with PDone _ => 1%nat | _ => 0%nat end.
Proof.
  cbv zeta. split; [apply runFrom_reachable|].
  exact (work_dir_removed_on_return (zipOf dataZip) (flagsWith 1000 false) "data" _
           (runFrom_reachable _ _ _ _)).
Defined.

Lemma skipped_upload_follows_failure_witness :
  let st := runFrom (zipOf threeZip) (flagsWith 1000 false) "three" cancelledRun in
  In (EvUpload 2 Skipped) (trace st)
  /\ (exists err j, gerr st = Some err /\ In (EvUpload j (Failed err)) (trace st))
  /\ prod st <> PDone None.
Proof.
  cbv zeta.
  assert (Hup : In (EvUpload 2 Skipped)
                  (trace (runFrom (zipOf threeZip) (flagsWith 1000 false) "three"
                            cancelledRun)))
    by (vm_compute; tauto).
  split; [exact Hup|].
  exact (skipped_upload_follows_failure (zipOf threeZip) (flagsWith 1000 false) "three"
           _ 2%nat (runFrom_reachable _ _ _ _) Hup).
Defined.

Lemma dataZip_check :
  largestSize (scan (zipOf dataZip) (flagsWith 1000 false) "data")
  <= Flag.diskLimit (flagsWith 1000 false).
Proof.
  vm_compute. discriminate.
Qed.

Lemma acquire_granted_or_queued_witness :
  let st := runFrom (zipOf dataZip) (flagsWith 1000 false) "data" [AProd true; AProd true] in
  0 <= Flag.diskLimit (flagsWith 1000 false) < 2 ^ 63
  /\ prod st = PAcquire 0
  /\ Semaphore.Acquire (sem st) (toInt64 (FileSize (zipOf dataZip) 0))
     <> Semaphore.Doomed.
Proof.
  cbv zeta.
  assert (H1 : 0 <= Flag.diskLimit (flagsWith 1000 false) < 2 ^ 63) by (simpl; lia).
  assert (Hp : prod (runFrom (zipOf dataZip) (flagsWith 1000 false) "data"
                       [AProd true; AProd true]) = PAcquire 0)
    by (vm_compute; reflexivity).
  split; [exact H1|]. split; [exact Hp|].
  exact (proj2 (acquire_granted_or_queued (zipOf dataZip) (flagsWith 1000 false) "data"
                  H1 dataZip_sizes dataZip_check _ 0%nat (runFrom_reachable _ _ _ _)) Hp).
Defined.

Lemma dataMoves_running (r : option RunError) :
  prod (runFrom (zipOf dataZip) (flagsWith 1000 false) "data" dataMoves) <> PDone r.
Proof.
  vm_compute. discriminate.
Qed.

Lemma pipeline_never_stuck_witness :
  1 <= Flag.n (flagsWith 1000 false) <= 2 ^ 63 - 2
  /\ 0 <= Flag.diskLimit (flagsWith 1000 false) < 2 ^ 63
  /\ exists a st',
       step (zipOf dataZip) (flagsWith 1000 false) "data" a
            (runFrom (zipOf dataZip) (flagsWith 1000 false) "data" dataMoves)
       = Some st'.
Proof.
  assert (Hn : 1 <= Flag.n (flagsWith 1000 false) <= 2 ^ 63 - 2) by (simpl; lia).
  assert (H1 : 0 <= Flag.diskLimit (flagsWith 1000 false) < 2 ^ 63) by (simpl; lia).
  split; [exact Hn|]. split; [exact H1|].
  exact (pipeline_never_stuck (zipOf dataZip) (flagsWith 1000 false) "data"
           H1 dataZip_sizes dataZip_check _ Hn (runFrom_reachable _ _ _ _)
           dataMoves_running).
Defined.

(** ** Strings: suffixes *)

Lemma length_append (p s : string) :
  length (p ++ s) = (length p + length s)%nat.
Proof.
  induction p as [|c p IH]; simpl; [reflexivity|]. rewrite IH. reflexivity.
Qed.

Lemma substring_append_right (p s : string) :
  substring (length p) (length s) (p ++ s) = s.
Proof.
  induction p as [|c p IH]; simpl; [apply substring_all|assumption].
Qed.

Lemma substring_append_left (p s : string) :
  substring 0 (length p) (p ++ s) = p.
Proof.
  induction p as [|c p IH]; simpl; [apply substring_zero_length|].
  rewrite IH. reflexivity.
Qed.

Lemma substring_split (s : string) (k : nat) :
  (k <= length s)%nat ->
  s = substring 0 k s ++ substring k (length s - k) s.
Proof.
  revert k. induction s as [|c s IH]; intros [|k] Hk; simpl in *; try lia.
  - reflexivity.
  - rewrite substring_all. reflexivity.
  - rewrite <- IH by lia. reflexivity.
Qed.

Lemma HasSuffix_append (p s : string) : Strings.HasSuffix (p ++ s) s = true.
Proof.
  unfold Strings.HasSuffix, Strings.slice. rewrite length_append.
  replace (length p + length s - length s)%nat with (length p) by lia.
  replace (length p + length s - length p)%nat with (length s) by lia.
  rewrite substring_append_right, String.eqb_refl.
  rewrite andb_true_r. apply Nat.leb_le. lia.
Qed.

Lemma TrimSuffix_append (p s : string) : Strings.TrimSuffix (p ++ s) s = p.
Proof.
  unfold Strings.TrimSuffix. rewrite HasSuffix_append.
  unfold Strings.slice. rewrite length_append.
  replace (length p + length s - length s - 0)%nat with (length p) by lia.
  apply substring_append_left.
Qed.

Lemma HasSuffix_inv (s suf : string) :
  Strings.HasSuffix s suf = true -> exists p, s = p ++ suf.
Proof.
  unfold Strings.HasSuffix, Strings.slice. intros H.
  apply andb_true_iff in H. destruct H as [Hle Heq].
  apply Nat.leb_le in Hle. apply String.eqb_eq in Heq.
  exists (substring 0 (length s - length suf) s).
  rewrite <- Heq at 2. apply substring_split. lia.
Qed.

Lemma list_ascii_of_append (p s : string) :
  list_ascii_of_string (p ++ s)
  = (list_ascii_of_string p ++ list_ascii_of_string s)%list.
Proof.
  induction p as [|c p IH]; simpl; [reflexivity|]. rewrite IH. reflexivity.
Qed.

Lemma list_ascii_inj (p q : string) :
  list_ascii_of_string p = list_ascii_of_string q -> p = q.
Proof.
  intros H. apply (f_equal string_of_list_ascii) in H.
  rewrite !string_of_list_ascii_of_string in H. assumption.
Qed.

Lemma append_last_inj (p q : string) (c d : ascii) :
  p ++ String c "" = q ++ String d "" -> p = q /\ c = d.
Proof.
  intros H. apply (f_equal list_ascii_of_string) in H.
  rewrite !list_ascii_of_append in H. simpl in H.
  apply app_inj_tail in H. destruct H as [H1 H2].
  split; [apply list_ascii_inj|]; assumption.
Qed.

(** ** [strconv]: a number printed in base 10 is read back *)

Lemma byteOf_digit (k : Z) :
  0 <= k < 10 -> Strings.byteOf (ascii_of_nat (48 + Z.to_nat k)) = 48 + k.
Proof.
  intros Hk. unfold Strings.byteOf. rewrite nat_ascii_embedding by lia. lia.
Qed.

Lemma parseLoop_digit (n k : Z) (s : string) :
  0 <= k < 10 -> 0 <= n -> n * 10 + k <= maxUint64 ->
  Strconv.parseLoop (String (ascii_of_nat (48 + Z.to_nat k)) s) n
  = Strconv.parseLoop s (n * 10 + k).
Proof.
  intros Hk Hn Hmax. cbn [Strconv.parseLoop]. rewrite byteOf_digit by assumption.
  unfold Strconv.base, Strconv.cutoff, Strconv.maxVal, maxUint64, wrapU64 in *.
  change (Z.shiftl 1 64) with (2 ^ 64).
  change (2 ^ 64) with 18446744073709551616 in *.
  change ((18446744073709551616 - 1) / 10 + 1) with 1844674407370955162.
  change ((18446744073709551616 - 1) mod 18446744073709551616)
    with 18446744073709551615.
  replace ((48 <=? 48 + k) && (48 + k <=? 57)) with true
    by (symmetry; apply andb_true_iff; split; apply Z.leb_le; lia).
  replace (10 <=? 48 + k - 48) with false by (symmetry; apply Z.leb_gt; lia).
  replace (1844674407370955162 <=? n) with false
    by (symmetry; apply Z.leb_gt; lia).
  rewrite (Z.mod_small (n * 10)) by lia.
  rewrite (Z.mod_small (n * 10 + (48 + k - 48))) by lia.
  replace (n * 10 + (48 + k - 48) <? n * 10) with false
    by (symmetry; apply Z.ltb_ge; lia).
  replace (18446744073709551615 <? n * 10 + (48 + k - 48)) with false
    by (symmetry; apply Z.ltb_ge; lia).
  simpl orb. cbv iota. f_equal. lia.
Qed.

Lemma parseLoop_formatLoop (fuel : nat) (x : Z) (acc : string) :
  0 <= x < 10 ^ Z.of_nat fuel -> x <= maxUint64 ->
  Strconv.parseLoop (Strconv.formatLoop fuel x acc) 0 = Strconv.parseLoop acc x.
Proof.
  revert x acc. induction fuel as [|fuel IH]; intros x acc Hx Hmax.
  - simpl in *. replace x with 0 by lia. reflexivity.
  - cbn [Strconv.formatLoop].
    assert (Hm : 0 <= x mod 10 < 10) by (apply Z.mod_pos_bound; lia).
    destruct (x <? 10) eqn:Hlt.
    + apply Z.ltb_lt in Hlt. rewrite Z.mod_small by lia.
      rewrite parseLoop_digit by (unfold maxUint64 in *; lia). f_equal.
    + apply Z.ltb_ge in Hlt. rewrite IH.
      * rewrite parseLoop_digit.
        -- f_equal. pose proof (Z.div_mod x 10). lia.
        -- assumption.
        -- apply Z.div_pos; lia.
        -- pose proof (Z.div_mod x 10). lia.
      * rewrite Nat2Z.inj_succ, Z.pow_succ_r in Hx by lia.
        split; [apply Z.div_pos; lia|]. apply Z.div_lt_upper_bound; lia.
      * pose proof (Z.div_mod x 10). lia.
Qed.

Lemma formatLoop_nonempty (fuel : nat) (x : Z) (acc : string) :
  Strconv.formatLoop (S fuel) x acc <> "".
Proof.
  revert x acc. induction fuel as [|fuel IH]; intros x acc.
  - simpl. destruct (x <? 10); discriminate.
  - change (Strconv.formatLoop (S (S fuel)) x acc)
      with (let acc' := String (ascii_of_nat (48 + Z.to_nat (x mod 10))) acc in
            if x <? 10 then acc' else Strconv.formatLoop (S fuel) (x / 10) acc').
    cbv zeta. destruct (x <? 10); [discriminate|apply IH].
Qed.

(** [ParseUint] reads back what [FormatUint] prints. *)
Lemma ParseUint_FormatUint (x : Z) :
  0 <= x < 2 ^ 64 -> Strconv.ParseUint (Strconv.FormatUint x) = inl x.
Proof.
  intros Hx. unfold Strconv.ParseUint, Strconv.FormatUint.
  destruct (Strconv.formatLoop 20 x "") eqn:Heq.
  - exfalso. exact (formatLoop_nonempty 19 x "" Heq).
  - rewrite <- Heq. rewrite parseLoop_formatLoop; [reflexivity| |unfold maxUint64; lia].
    split; [lia|]. change (Z.of_nat 20) with 20. lia.
Qed.

Lemma formatLoop_digits (fuel : nat) (x : Z) (acc : string) :
  Forall (fun c => 48 <= Strings.byteOf c <= 57) (list_ascii_of_string acc) ->
  Forall (fun c => 48 <= Strings.byteOf c <= 57)
         (list_ascii_of_string (Strconv.formatLoop fuel x acc)).
Proof.
  revert x acc. induction fuel as [|fuel IH]; intros x acc Hacc; [assumption|].
  cbn [Strconv.formatLoop].
  assert (Hm : 0 <= x mod 10 < 10) by (apply Z.mod_pos_bound; lia).
  assert (Hacc' : Forall (fun c => 48 <= Strings.byteOf c <= 57)
            (list_ascii_of_string
               (String (ascii_of_nat (48 + Z.to_nat (x mod 10))) acc))).
  { cbn [list_ascii_of_string].
    constructor; [rewrite byteOf_digit by assumption; lia|assumption]. }
  destruct (x <? 10); [assumption|]. apply IH. assumption.
Qed.

Lemma FormatUint_digits (x : Z) :
  Forall (fun c => 48 <= Strings.byteOf c <= 57)
         (list_ascii_of_string (Strconv.FormatUint x)).
Proof.
  apply formatLoop_digits. constructor.
Qed.

(** ** [strings.ToLower] leaves a string without upper case letters alone *)

Lemma mapBytes_lowerByte_id (s : string) :
  Forall (fun c => Strings.byteOf c < 65 \/ 90 < Strings.byteOf c)
         (list_ascii_of_string s) ->
  Strings.mapBytes Strings.lowerByte s = s.
Proof.
  induction s as [|c s IH]; simpl; [reflexivity|]. intros H.
  inversion H as [|c' l Hc Hl]; subst. rewrite IH by assumption.
  unfold Strings.lowerByte.
  replace ((65 <=? Strings.byteOf c) && (Strings.byteOf c <=? 90)) with false;
    [reflexivity|].
  symmetry. apply andb_false_iff.
  destruct Hc; [left; apply Z.leb_gt|right; apply Z.leb_gt]; lia.
Qed.

Lemma isASCII_below (s : string) :
  Forall (fun c => Strings.byteOf c < 128) (list_ascii_of_string s) ->
  Strings.isASCII s = true.
Proof.
  unfold Strings.isASCII. intros H. apply forallb_forall. intros c Hc.
  rewrite Forall_forall in H. apply Z.ltb_lt. apply H. assumption.
Qed.

Lemma ToLower_digits_suffix (unicodeLower : string -> string) (d suf : string) :
  Forall (fun c => 48 <= Strings.byteOf c <= 57) (list_ascii_of_string d) ->
  Forall (fun c => 97 <= Strings.byteOf c <= 122) (list_ascii_of_string suf) ->
  Strings.ToLower unicodeLower (d ++ suf) = d ++ suf.
Proof.
  intros Hd Hs. unfold Strings.ToLower.
  rewrite isASCII_below, mapBytes_lowerByte_id; [reflexivity| |];
    rewrite list_ascii_of_append; apply Forall_app; split;
    (eapply Forall_impl; [|eassumption]); simpl; intros; lia.
Qed.

(** ** [bytesValue]: [Set] after [String] *)

Lemma append_assoc3 (p q r : string) : p ++ q ++ r = (p ++ q) ++ r.
Proof.
  induction p as [|c p IH]; simpl; [reflexivity|]. rewrite IH. reflexivity.
Qed.

Lemma HasSuffix_last_ne (p : string) (c c' : ascii) (suf : string) :
  c <> c' -> Strings.HasSuffix (p ++ String c "") (suf ++ String c' "") = false.
Proof.
  intros Hne. destruct (Strings.HasSuffix _ _) eqn:H; [|reflexivity].
  apply HasSuffix_inv in H. destruct H as [q H].
  rewrite append_assoc3 in H. apply append_last_inj in H.
  destruct H as [_ H]. contradiction.
Qed.

Lemma HasSuffix_digit_before (d : string) (c1 c : ascii) :
  Forall (fun c => 48 <= Strings.byteOf c <= 57) (list_ascii_of_string d) ->
  ~ 48 <= Strings.byteOf c1 <= 57 ->
  Strings.HasSuffix (d ++ String c "") (String c1 (String c "")) = false.
Proof.
  intros Hd Hc1. destruct (Strings.HasSuffix _ _) eqn:H; [|reflexivity].
  apply HasSuffix_inv in H. destruct H as [q H].
  change (String c1 (String c "")) with (String c1 "" ++ String c "") in H.
  rewrite append_assoc3 in H. apply append_last_inj in H. destruct H as [H _].
  subst d. rewrite list_ascii_of_append in Hd. apply Forall_app in Hd.
  destruct Hd as [_ Hd]. inversion Hd; subst. contradiction.
Qed.

Section SetAfterString.
Variable unicodeLower : string -> string.

(** What [Set] stores for the digits of [v] followed by a suffix of one
    letter, for each of the four suffixes that [String] prints. *)
Lemma Set_digits_g (v : Z) :
  0 <= v < 2 ^ 64 ->
  bytesValue_Set unicodeLower (Strconv.FormatUint v ++ "g")
  = SetOk (wrapU64 (v * 2 ^ 30)).
Proof.
  intros Hv. unfold bytesValue_Set.
  rewrite ToLower_digits_suffix;
    [|apply FormatUint_digits|repeat constructor; vm_compute; discriminate].
  cbn [setLoop bytesUnits suffix value].
  rewrite (HasSuffix_append _ "g"), (TrimSuffix_append _ "g").
  cbn [negb]. rewrite ParseUint_FormatUint by assumption. reflexivity.
Qed.

Lemma Set_digits_m (v : Z) :
  0 <= v < 2 ^ 64 ->
  bytesValue_Set unicodeLower (Strconv.FormatUint v ++ "m")
  = SetOk (wrapU64 (v * 2 ^ 20)).
Proof.
  intros Hv. unfold bytesValue_Set.
  rewrite ToLower_digits_suffix;
    [|apply FormatUint_digits|repeat constructor; vm_compute; discriminate].
  cbn [setLoop bytesUnits suffix value].
  rewrite (HasSuffix_last_ne _ "m" "g" "") by discriminate.
  rewrite (HasSuffix_append _ "m"), (TrimSuffix_append _ "m").
  cbn [negb]. rewrite ParseUint_FormatUint by assumption. reflexivity.
Qed.

Lemma Set_digits_k (v : Z) :
  0 <= v < 2 ^ 64 ->
  bytesValue_Set unicodeLower (Strconv.FormatUint v ++ "k")
  = SetOk (wrapU64 (v * 2 ^ 10)).
Proof.
  intros Hv. unfold bytesValue_Set.
  rewrite ToLower_digits_suffix;
    [|apply FormatUint_digits|repeat constructor; vm_compute; discriminate].
  cbn [setLoop bytesUnits suffix value].
  rewrite (HasSuffix_last_ne _ "k" "g" "") by discriminate.
  rewrite (HasSuffix_last_ne _ "k" "m" "") by discriminate.
  rewrite (HasSuffix_append _ "k"), (TrimSuffix_append _ "k").
  cbn [negb]. rewrite ParseUint_FormatUint by assumption. reflexivity.
Qed.

Lemma Set_digits_b (v : Z) :
  0 <= v < 2 ^ 64 ->
  bytesValue_Set unicodeLower (Strconv.FormatUint v ++ "b")
  = SetOk (wrapU64 (v * 1)).
Proof.
  intros Hv. unfold bytesValue_Set.
  rewrite ToLower_digits_suffix;
    [|apply FormatUint_digits|repeat constructor; vm_compute; discriminate].
  cbn [setLoop bytesUnits suffix value].
  rewrite (HasSuffix_last_ne _ "b" "g" "") by discriminate.
  rewrite (HasSuffix_last_ne _ "b" "m" "") by discriminate.
  rewrite (HasSuffix_last_ne _ "b" "k" "") by discriminate.
  rewrite !HasSuffix_digit_before
    by (try apply FormatUint_digits; vm_compute; intros [H1 H2];
        try (apply H1; reflexivity); try (apply H2; reflexivity)).
  rewrite (HasSuffix_append _ "b"), (TrimSuffix_append _ "b").
  cbn [negb]. rewrite ParseUint_FormatUint by assumption. reflexivity.
Qed.

(** X13: reading back what [String] prints: [Set] stores the value rounded
    down to a multiple of the unit that [String] chose, which is the
    largest of 2^30, 2^20, 2^10 and 1 that is not above the value. So the
    round trip is exact for the multiples of the unit, and for every value
    below 1024. *)
Theorem bytesValue_Set_after_String (b : Z) :
  0 <= b < 2 ^ 64 ->
  let u := if 2 ^ 30 <=? b then 2 ^ 30
           else if 2 ^ 20 <=? b then 2 ^ 20
           else if 2 ^ 10 <=? b then 2 ^ 10
           else 1 in
  bytesValue_Set unicodeLower (bytesValue_String b) = SetOk (b - b mod u).
Proof.
  intros Hb u. subst u. unfold bytesValue_String.
  cbn [stringLoop bytesUnits suffix value].
  change (1 * 1024 * 1024 * 1024) with (2 ^ 30).
  change (1 * 1024 * 1024) with (2 ^ 20).
  change (1 * 1024) with (2 ^ 10).
  assert (Hdiv : forall u, 0 < u -> u <= b ->
            0 <= b / u < 2 ^ 64 /\ wrapU64 (b / u * u) = b - b mod u).
  { intros u Hu Hle. pose proof (Z.div_mod b u ltac:(lia)) as Hdm.
    pose proof (Z.mod_pos_bound b u Hu) as Hm.
    assert (Hq : 0 <= b / u) by (apply Z.div_pos; lia).
    assert (Hqu : b / u * u = b - b mod u) by lia.
    split; [split; [assumption|nia]|].
    unfold wrapU64. rewrite Z.mod_small; lia. }
  destruct (2 ^ 30 <=? b) eqn:H30.
  { apply Z.leb_le in H30. destruct (Hdiv (2 ^ 30)) as [Hr Hw]; [lia|assumption|].
    rewrite Set_digits_g, Hw by assumption. reflexivity. }
  destruct (2 ^ 20 <=? b) eqn:H20.
  { apply Z.leb_le in H20. destruct (Hdiv (2 ^ 20)) as [Hr Hw]; [lia|assumption|].
    rewrite Set_digits_m, Hw by assumption. reflexivity. }
  destruct (2 ^ 10 <=? b) eqn:H10.
  { apply Z.leb_le in H10. destruct (Hdiv (2 ^ 10)) as [Hr Hw]; [lia|assumption|].
    rewrite Set_digits_k, Hw by assumption. reflexivity. }
  destruct (1 <=? b) eqn:H1.
  { apply Z.leb_le in H1. destruct (Hdiv 1) as [Hr Hw]; [lia|assumption|].
    rewrite Set_digits_b, Hw by assumption. reflexivity. }
  apply Z.leb_gt in H1. replace b with 0 by lia. reflexivity.
Qed.

End SetAfterString.

Lemma bytesValue_Set_after_String_witness :
  0 <= 3 * 2 ^ 30 + 5 < 2 ^ 64
  /\ bytesValue_Set asciiOnly (bytesValue_String (3 * 2 ^ 30 + 5))
     = SetOk (3 * 2 ^ 30).
Proof.
  assert (H : 0 <= 3 * 2 ^ 30 + 5 < 2 ^ 64) by lia.
  split; [exact H|].
  exact (bytesValue_Set_after_String asciiOnly (3 * 2 ^ 30 + 5) H).
Defined.


(** ** [path.Ext] and [trimExt] *)

Lemma append_nil_r (s : string) : s ++ "" = s.
Proof.
  induction s as [|c s IH]; simpl; [reflexivity|]. rewrite IH. reflexivity.
Qed.

(** The extension is a suffix of what the scan has walked over, and holds no
    other dot and no slash than the dot it starts with. *)
Lemma extLoop_spec (rs acc : list ascii) :
  Forall (fun c => c <> Path.dot /\ c <> Path.slash) acc ->
  (Path.extLoop rs acc = ""
   \/ exists pre rest,
        (rev rs ++ acc)%list = (pre ++ Path.dot :: rest)%list
        /\ Path.extLoop rs acc = String Path.dot (string_of_list_ascii rest)
        /\ Forall (fun c => c <> Path.dot /\ c <> Path.slash) rest).
Proof.
  revert acc. induction rs as [|c rs IH]; intros acc Hacc; cbn [Path.extLoop].
  - left. reflexivity.
  - destruct (Ascii.eqb c Path.slash) eqn:Hs; [left; reflexivity|].
    destruct (Ascii.eqb c Path.dot) eqn:Hd.
    + apply Ascii.eqb_eq in Hd. subst c. right. exists (rev rs), acc.
      split; [simpl; rewrite <- app_assoc; reflexivity|]. split; [reflexivity|assumption].
    + apply Ascii.eqb_neq in Hs, Hd.
      destruct (IH (c :: acc)) as [H|(pre & rest & H1 & H2 & H3)]; [auto|auto|].
      right. exists pre, rest. split; [|auto].
      simpl. rewrite <- app_assoc. exact H1.
Qed.

(** X14: a name is its part before the extension followed by its extension;
    the extension is empty, or a dot followed by bytes that are neither a
    dot nor a slash. *)
Theorem trimExt_splits_name (name : string) :
  trimExt name ++ Path.Ext name = name
  /\ (Path.Ext name = ""
      \/ exists rest,
           Path.Ext name = String Path.dot rest
           /\ Forall (fun c => c <> Path.dot /\ c <> Path.slash)
                     (list_ascii_of_string rest)).
Proof.
  unfold trimExt.
  destruct (extLoop_spec (rev (list_ascii_of_string name)) [])
    as [H|(pre & rest & H1 & H2 & H3)]; [constructor| |].
  - unfold Path.Ext. rewrite H. split; [|left; reflexivity].
    unfold Strings.TrimSuffix. rewrite HasSuffix_empty.
    unfold Strings.slice. simpl. rewrite !Nat.sub_0_r, substring_all.
    apply append_nil_r.
  - unfold Path.Ext. rewrite H2. split.
    + rewrite rev_involutive, app_nil_r in H1.
      assert (Hname : name = string_of_list_ascii pre
                             ++ String Path.dot (string_of_list_ascii rest)).
      { apply list_ascii_inj. rewrite list_ascii_of_append. cbn [list_ascii_of_string].
        rewrite !list_ascii_of_string_of_list_ascii. assumption. }
      rewrite Hname at 1. rewrite TrimSuffix_append. symmetry. assumption.
    + right. exists (string_of_list_ascii rest). split; [reflexivity|].
      rewrite list_ascii_of_string_of_list_ascii. assumption.
Qed.


(** ** [zipExtractor.FileName] and [-old-windows] *)

Lemma ReplaceAllByte_spec (s : string) (old new : ascii) :
  old <> new ->
  ~ In old (list_ascii_of_string (Strings.ReplaceAllByte s old new))
  /\ length (Strings.ReplaceAllByte s old new) = length s
  /\ (~ In old (list_ascii_of_string s) -> Strings.ReplaceAllByte s old new = s).
Proof.
  intros Hne. unfold Strings.ReplaceAllByte.
  induction s as [|c s (IH1 & IH2 & IH3)]; simpl; [tauto|].
  destruct (Ascii.eqb c old) eqn:Hc.
  - apply Ascii.eqb_eq in Hc. subst c. split; [|split].
    + intros [H|H]; [congruence|contradiction].
    + rewrite IH2. reflexivity.
    + intros H. exfalso. apply H. left. reflexivity.
  - apply Ascii.eqb_neq in Hc. split; [|split].
    + intros [H|H]; [congruence|contradiction].
    + rewrite IH2. reflexivity.
    + intros H. rewrite IH3; [reflexivity|]. intros Hin. apply H. right. assumption.
Qed.

(** X15: with [-old-windows] the name of a zip entry holds no backslash: each
    one has become a slash, and nothing else has changed, so a name without
    backslash is the same with and without the flag. The names of a 7z
    archive are those of a zip archive read without the flag: the flag does
    not reach them. *)
Theorem old_windows_rewrites_zip_names
    (ValidString : string -> bool) (ShiftJISDecode : string -> option string)
    (File : list FileHeader) (i : nat) :
  let plain := FileName (zipExtractor ValidString ShiftJISDecode File false) i in
  let fixed := FileName (zipExtractor ValidString ShiftJISDecode File true) i in
  ~ In "\"%char (list_ascii_of_string fixed)
  /\ length fixed = length plain
  /\ (~ In "\"%char (list_ascii_of_string plain) -> fixed = plain)
  /\ FileName (sevenZipExtractor ValidString ShiftJISDecode File) i = plain.
Proof.
  cbn [FileName zipExtractor sevenZipExtractor]. unfold Path.FromSlash.
  destruct (ReplaceAllByte_spec
              (fallbackShiftJIS ValidString ShiftJISDecode (Name (nth i File noHeader)))
              "\"%char "/"%char) as (H1 & H2 & H3); [discriminate|].
  repeat split; assumption.
Qed.


(** ** [-skip-top]: the names of the jobs *)

Lemma Cut_parts (s : string) :
  match Strings.Cut s PathSeparator with
  | (n, after, true) => s = n ++ "/" ++ after
  | (n, after, false) => n = s /\ after = ""
  end.
Proof.
  unfold Strings.Cut.
  induction s as [|c s IH].
  - simpl. auto.
  - rewrite Index_slash_cons.
    destruct (Ascii.eqb c Path.slash) eqn:Hc.
    + apply Ascii.eqb_eq in Hc. subst c.
      unfold Strings.slice. simpl. rewrite Nat.sub_0_r, substring_all. reflexivity.
    + destruct (Strings.Index s PathSeparator) as [k|]; simpl.
      * unfold Strings.slice in *. simpl. rewrite Nat.sub_0_r in *.
        simpl in IH. rewrite <- IH. reflexivity.
      * auto.
Qed.

Lemma HasPrefix_append (p s : string) : Strings.HasPrefix (p ++ s) p = true.
Proof.
  induction p as [|c p IH]; simpl; [destruct s; reflexivity|].
  rewrite Ascii.eqb_refl. assumption.
Qed.

Lemma TrimPrefix_append (p s : string) : Strings.TrimPrefix (p ++ s) p = s.
Proof.
  unfold Strings.TrimPrefix, Strings.slice. rewrite HasPrefix_append, length_append.
  replace (length p + length s - length p)%nat with (length s) by lia.
  apply substring_append_right.
Qed.

Section SkipTop.
Variable e : Extractor.
Variable fl : Flag.t.
Variable archiveName : string.

Lemma scanStep_topDirOnly (a : Scan) (i : nat) :
  topDirOnly (scanStep e fl archiveName a i) = true ->
  topDirOnly a = true
  /\ (Flag.skipTop fl = true -> isJob e fl i = true ->
      fst (fst (Strings.Cut (FileName e i) PathSeparator)) = archiveName).
Proof.
  unfold scanStep, isJob.
  destruct (IsDir e i); cbn [negb andb];
    [rewrite andb_false_r; intros H; split; [assumption|discriminate]|].
  destruct (skipMeta fl (FileName e i)); cbn [negb andb];
    [intros H; split; [assumption|discriminate]|].
  destruct (Strings.Cut (FileName e i) PathSeparator) as [[top after] found].
  cbn [fst].
  destruct (Flag.skipTop fl); cbn [andb].
  - destruct (topDirOnly a) eqn:Ha.
    + destruct (String.eqb top archiveName) eqn:Htop; cbn [negb];
        destruct (largestSize a <? FileSize e i); cbn [topDirOnly];
        intros H; try discriminate;
        (split; [reflexivity|]); intros _ _; apply String.eqb_eq; assumption.
    + destruct (largestSize a <? FileSize e i); cbn [topDirOnly]; discriminate.
  - destruct (largestSize a <? FileSize e i); cbn [topDirOnly];
      intros H; (split; [assumption|discriminate]).
Qed.

Lemma scanFrom_topDirOnly (len lo : nat) (a : Scan) :
  topDirOnly (scanFrom e fl archiveName a lo len) = true ->
  topDirOnly a = true
  /\ (Flag.skipTop fl = true ->
      forall i, (lo <= i < lo + len)%nat -> isJob e fl i = true ->
      fst (fst (Strings.Cut (FileName e i) PathSeparator)) = archiveName).
Proof.
  revert lo a. induction len as [|len IH]; intros lo a; unfold scanFrom.
  - simpl. intros H. split; [assumption|]. intros _ i Hi. lia.
  - cbn [seq fold_left]. intros H.
    destruct (IH (S lo) _ H) as [H1 H2].
    destruct (scanStep_topDirOnly a lo H1) as [H3 H4].
    split; [assumption|]. intros Hskip i Hi Hjob.
    destruct (Nat.eq_dec i lo) as [->|Hne]; [auto|].
    apply H2; auto. lia.
Qed.

(** X16: with [-skip-top], when the first loop has found every file below a
    top directory named as the archive, the local path of each job is the
    archive name joined with the name of the entry without that top
    directory: the top directory is not repeated. *)
Theorem skip_top_strips_archive_name (i : nat) :
  Flag.skipTop fl = true ->
  topDirOnly (scan e fl archiveName) = true ->
  (i < Files e)%nat -> isJob e fl i = true ->
  exists rest,
    (FileName e i = archiveName ++ "/" ++ rest
     \/ (FileName e i = archiveName /\ rest = ""))
    /\ jobName (jobOf e fl archiveName i) = Path.Join archiveName rest.
Proof.
  intros Hskip Htdo Hi Hjob.
  destruct (scanFrom_topDirOnly (Files e) 0 _ Htdo) as [_ Htop].
  specialize (Htop Hskip i ltac:(lia) Hjob).
  pose proof (Cut_parts (FileName e i)) as Hcut.
  destruct (Strings.Cut (FileName e i) PathSeparator) as [[top after] found].
  cbn [fst] in Htop. subst top.
  cbn [jobName jobOf]. unfold entryPath. rewrite Hskip, Htdo. cbn [andb].
  destruct found.
  - exists after. split; [left; assumption|].
    rewrite Hcut, TrimPrefix_append. cbn [append String.eqb negb].
    unfold Strings.slice. cbn [length substring Nat.sub].
    rewrite Nat.sub_0_r, substring_all. reflexivity.
  - destruct Hcut as [Hname _]. exists "". split; [right; auto|].
    rewrite <- Hname.
    assert (Ht : Strings.TrimPrefix archiveName archiveName = "").
    { pose proof (TrimPrefix_append archiveName "") as H.
      rewrite append_nil_r in H. exact H. }
    rewrite Ht. reflexivity.
Qed.

End SkipTop.

Lemma skip_top_strips_archive_name_witness :
  Flag.skipTop flagsSkipTop = true
  /\ topDirOnly (scan (zipOf topZip) flagsSkipTop "top") = true
  /\ isJob (zipOf topZip) flagsSkipTop 2 = true
  /\ exists rest,
       (FileName (zipOf topZip) 2 = "top" ++ "/" ++ rest
        \/ (FileName (zipOf topZip) 2 = "top" /\ rest = ""))
       /\ jobName (jobOf (zipOf topZip) flagsSkipTop "top" 2) = Path.Join "top" rest.
Proof.
  assert (Htdo : topDirOnly (scan (zipOf topZip) flagsSkipTop "top") = true)
    by (vm_compute; reflexivity).
  assert (Hi : (2 < Files (zipOf topZip))%nat) by (simpl; lia).
  assert (Hjob : isJob (zipOf topZip) flagsSkipTop 2 = true) by (vm_compute; reflexivity).
  split; [reflexivity|]. split; [exact Htdo|]. split; [exact Hjob|].
  exact (skip_top_strips_archive_name (zipOf topZip) flagsSkipTop "top" 2%nat
           eq_refl Htdo Hi Hjob).
Defined.


(** ** The extension of the downloaded file *)

Lemma extLoop_app_slash (l r acc : list ascii) :
  Path.extLoop (l ++ Path.slash :: r) acc = Path.extLoop l acc.
Proof.
  revert acc. induction l as [|c l IH]; intros acc; cbn [app Path.extLoop].
  - rewrite Ascii.eqb_refl. reflexivity.
  - destruct (Ascii.eqb c Path.slash); [reflexivity|].
    destruct (Ascii.eqb c Path.dot); [reflexivity|]. apply IH.
Qed.

Lemma Ext_after_slash (p b : string) :
  Path.Ext (p ++ String Path.slash b) = Path.Ext b.
Proof.
  unfold Path.Ext. rewrite list_ascii_of_append. cbn [list_ascii_of_string].
  rewrite rev_app_distr. cbn [rev]. rewrite <- app_assoc. cbn [app].
  apply extLoop_app_slash.
Qed.

Lemma split_at_slash (rs : list ascii) :
  exists l rest,
    rs = (l ++ rest)%list
    /\ Forall (fun c => c <> Path.slash) l
    /\ (rest = [] \/ exists r, rest = Path.slash :: r).
Proof.
  induction rs as [|c rs (l & rest & H1 & H2 & H3)].
  - exists [], []. auto.
  - destruct (Ascii.eqb c Path.slash) eqn:Hc.
    + apply Ascii.eqb_eq in Hc. subst c. exists [], (Path.slash :: rs).
      split; [reflexivity|]. split; [constructor|]. right. eauto.
    + apply Ascii.eqb_neq in Hc. exists (c :: l), rest.
      split; [simpl; congruence|]. split; [constructor; assumption|assumption].
Qed.

Lemma lastElement_app (l rest acc : list ascii) :
  Forall (fun c => c <> Path.slash) l ->
  (rest = [] \/ exists r, rest = Path.slash :: r) ->
  Path.lastElement (l ++ rest) acc = (rev l ++ acc)%list.
Proof.
  intros Hl Hrest. revert acc.
  induction Hl as [|c l Hc Hl IH]; intros acc; cbn [app].
  - destruct Hrest as [->|[r ->]]; cbn [Path.lastElement rev app]; [reflexivity|].
    rewrite Ascii.eqb_refl. reflexivity.
  - cbn [Path.lastElement]. apply Ascii.eqb_neq in Hc. rewrite Hc.
    rewrite IH. cbn [rev]. rewrite <- app_assoc. reflexivity.
Qed.

(** When a path has an extension, its last element has no slash and has
    the same extension. *)
Lemma Base_keeps_Ext (src : string) :
  Path.Ext src <> "" ->
  Path.Ext (Path.Base src) = Path.Ext src
  /\ Forall (fun c => c <> Path.slash) (list_ascii_of_string (Path.Base src)).
Proof.
  intros Hext. unfold Path.Base.
  destruct (String.eqb src "") eqn:Hempty.
  { apply String.eqb_eq in Hempty. subst. contradiction Hext. reflexivity. }
  unfold Path.Ext in Hext |- *.
  destruct (rev (list_ascii_of_string src)) as [|c rs] eqn:Hrev;
    [contradiction Hext; reflexivity|].
  cbn [Path.dropSlashes].
  destruct (Ascii.eqb c Path.slash) eqn:Hc.
  { cbn [Path.extLoop] in Hext. rewrite Hc in Hext. contradiction Hext. reflexivity. }
  destruct (split_at_slash (c :: rs)) as (l & rest & H1 & H2 & H3).
  rewrite H1 in *. rewrite lastElement_app by assumption. rewrite app_nil_r.
  assert (Hl : Path.extLoop (l ++ rest) [] = Path.extLoop l []).
  { destruct H3 as [->|[r ->]]; [rewrite app_nil_r; reflexivity|].
    apply extLoop_app_slash. }
  rewrite Hl in *.
  destruct (String.eqb (string_of_list_ascii (rev l)) "") eqn:He.
  { apply String.eqb_eq in He. apply (f_equal list_ascii_of_string) in He.
    rewrite list_ascii_of_string_of_list_ascii in He. simpl in He.
    apply (f_equal (@rev ascii)) in He. rewrite rev_involutive in He. subst l.
    contradiction Hext. reflexivity. }
  rewrite list_ascii_of_string_of_list_ascii, rev_involutive.
  split; [reflexivity|]. apply Forall_rev. assumption.
Qed.

Lemma splitSlash_append (a b : string) :
  Path.splitSlash (a ++ String Path.slash b)
  = (Path.splitSlash a ++ Path.splitSlash b)%list.
Proof.
  induction a as [|c a IH]; cbn [append Path.splitSlash].
  - rewrite Ascii.eqb_refl. reflexivity.
  - destruct (Ascii.eqb c Path.slash); [rewrite IH; reflexivity|].
    rewrite IH. pose proof (splitSlash_not_nil a) as Hne.
    destruct (Path.splitSlash a) as [|h t]; [congruence|reflexivity].
Qed.

Lemma splitSlash_no_slash (b : string) :
  Forall (fun c => c <> Path.slash) (list_ascii_of_string b) ->
  Path.splitSlash b = [b].
Proof.
  induction b as [|c b IH]; cbn [list_ascii_of_string Path.splitSlash]; [reflexivity|].
  intros H. inversion H as [|c' l Hc Hl]; subst.
  apply Ascii.eqb_neq in Hc. rewrite Hc, (IH Hl). reflexivity.
Qed.

Lemma joinSlash_snoc (l : list string) (b : string) :
  Path.joinSlash (l ++ [b])
  = match l with
    | [] => b
    | _ => Path.joinSlash l ++ String Path.slash b
    end.
Proof.
  induction l as [|x l IH]; [reflexivity|].
  cbn [app]. destruct l as [|y l].
  - reflexivity.
  - change (Path.joinSlash (x :: (y :: l) ++ [b]))
      with (x ++ "/" ++ Path.joinSlash ((y :: l) ++ [b])).
    rewrite IH.
    change (Path.joinSlash (x :: y :: l)) with (x ++ "/" ++ Path.joinSlash (y :: l)).
    rewrite <- !append_assoc3. reflexivity.
Qed.

Lemma cleanStep_name (rooted : bool) (out : list string) (b : string) :
  b <> "" -> b <> "." -> b <> ".." -> Path.cleanStep rooted out b = b :: out.
Proof.
  intros H0 H1 H2. unfold Path.cleanStep.
  apply String.eqb_neq in H0, H1, H2. rewrite H0, H1, H2. reflexivity.
Qed.

(** [Clean] keeps the extension of a last element that is a name. *)
Lemma Ext_Clean_last (p b : string) (l : list string) :
  Path.splitSlash p = (l ++ [b])%list ->
  b <> "" -> b <> "." -> b <> ".." ->
  Path.Ext (Path.Clean p) = Path.Ext b.
Proof.
  intros Hsplit H0 H1 H2. unfold Path.Clean.
  destruct (String.eqb p "") eqn:Hp.
  { apply String.eqb_eq in Hp. subst p. simpl in Hsplit.
    destruct l as [|x [|y l]]; simpl in Hsplit; try discriminate.
    injection Hsplit as <-. contradiction H0. reflexivity. }
  rewrite Hsplit, fold_left_app. cbn [fold_left].
  set (out := fold_left _ l []).
  rewrite cleanStep_name by assumption.
  apply String.eqb_neq in H0.
  cbn [rev]. rewrite joinSlash_snoc.
  destruct (Strings.HasPrefix p "/").
  - destruct (rev out) as [|x t].
    + apply (Ext_after_slash "" b).
    + rewrite append_assoc3. apply Ext_after_slash.
  - destruct (rev out) as [|x t].
    + rewrite H0. reflexivity.
    + destruct (String.eqb (Path.joinSlash (x :: t) ++ String Path.slash b) "") eqn:He;
        [|apply Ext_after_slash].
      apply String.eqb_eq in He. apply (f_equal length) in He.
      rewrite length_append in He. simpl in He. lia.
Qed.

Lemma zipPath_keeps_Ext (dir src : string) :
  Path.Ext src = ".zip" \/ Path.Ext src = ".7z" ->
  Path.Ext (zipPathOf dir src) = Path.Ext src.
Proof.
  intros Hext.
  destruct (Base_keeps_Ext src) as [Hb Hns]; [destruct Hext as [-> | ->]; discriminate|].
  rewrite <- Hb in Hext |- *. unfold zipPathOf.
  set (b := Path.Base src) in *.
  assert (H0 : b <> "") by (intros ->; destruct Hext; discriminate).
  assert (H1 : b <> ".") by (intros ->; destruct Hext; discriminate).
  assert (H2 : b <> "..") by (intros ->; destruct Hext; discriminate).
  pose proof (splitSlash_no_slash b Hns) as Hsb.
  unfold Path.Join.
  destruct (String.eqb dir "") eqn:Hd; cbn [negb].
  - destruct (String.eqb b "") eqn:Hb0;
      [apply String.eqb_eq in Hb0; contradiction|]. cbn [negb].
    apply (Ext_Clean_last b b []); assumption.
  - apply (Ext_Clean_last _ b (Path.splitSlash dir)); try assumption.
    change (dir ++ "/" ++ b) with (dir ++ String Path.slash b).
    rewrite splitSlash_append, Hsb. reflexivity.
Qed.

Section SetupNoPanic.
Variable unicodeLower : string -> string.
Variable ValidString : string -> bool.
Variable ShiftJISDecode : string -> option string.

(** X17: when the extension of the source object is exactly [.zip] or [.7z],
    the downloaded file has that extension too and [NewExtractor] does not
    reach its [panic]: the first half of [run] ends with an error or goes
    on to the pipeline. *)
Theorem setup_does_not_panic_on_exact_extension (w : World) (fl : Flag.t)
    (src : string) :
  srcPath w = Some src ->
  Path.Ext src = ".zip" \/ Path.Ext src = ".7z" ->
  (forall dir, Path.Ext (zipPathOf dir src) = Path.Ext src)
  /\ forall tr msg,
       setup unicodeLower ValidString ShiftJISDecode w fl <> SetupPanic tr msg.
Proof.
  intros Hsrc Hext.
  split; [intros dir; apply zipPath_keeps_Ext; assumption|].
  intros tr msg. unfold setup. rewrite Hsrc.
  destruct (negb (nargs w =? 2)%nat); [discriminate|].
  destruct (negb (destOk w)); [discriminate|].
  destruct (negb (supportedFormat unicodeLower src)); [discriminate|].
  destruct (negb (clientOk w)); [discriminate|].
  destruct (workDir w) as [dir|]; [|discriminate].
  destruct (negb (downloadOk w)); [discriminate|].
  destruct (negb (openOk w)); [discriminate|].
  destruct (NewExtractor _ _ _ _ _ _) as [e|m|m] eqn:Hnew.
  - destruct (_ <? _); discriminate.
  - discriminate.
  - exfalso.
    apply (NewExtractor_exact_extension ValidString ShiftJISDecode
             (zipPathOf dir src) (statOk w) (archive w) (Flag.oldWindows fl)) with (msg := m).
    + rewrite zipPath_keeps_Ext by assumption. assumption.
    + assumption.
Qed.

End SetupNoPanic.

Lemma setup_does_not_panic_on_exact_extension_witness :
  Path.Ext "/data.zip" = ".zip"
  /\ Path.Ext (zipPathOf "/tmp/gcs-unzip1" "/data.zip") = ".zip"
  /\ forall tr msg,
       setup asciiOnly utf8Always noDecode (worldOf "/data.zip" dataZip)
             (flagsWith 1000 false) <> SetupPanic tr msg.
Proof.
  assert (Hext : Path.Ext "/data.zip" = ".zip") by reflexivity.
  pose proof (setup_does_not_panic_on_exact_extension asciiOnly utf8Always noDecode
                (worldOf "/data.zip" dataZip) (flagsWith 1000 false) "/data.zip"
                eq_refl (or_introl Hext)) as [H1 H2].
  split; [exact Hext|]. split; [exact (H1 "/tmp/gcs-unzip1")|exact H2].
Defined.


(** ** Where the temp file of a job lies *)

Lemma fold_cleanStep_no_dotdot (rooted : bool) (comps out : list string) :
  ~ In ".." comps ->
  fold_left (Path.cleanStep rooted) comps out
  = (rev (filter (fun c => negb (String.eqb c "" || String.eqb c ".")) comps)
     ++ out)%list.
Proof.
  revert out. induction comps as [|c comps IH]; intros out Hno; [reflexivity|].
  cbn [fold_left filter]. rewrite IH by (intros H; apply Hno; right; assumption).
  unfold Path.cleanStep.
  destruct (String.eqb c "" || String.eqb c ".") eqn:Hc; cbn [negb]; [reflexivity|].
  destruct (String.eqb c "..") eqn:Hd.
  - apply String.eqb_eq in Hd. subst c. exfalso. apply Hno. left. reflexivity.
  - cbn [rev]. rewrite <- app_assoc. reflexivity.
Qed.

Lemma joinSlash_cons_nonempty (a : string) (l : list string) :
  a <> "" -> Path.joinSlash (a :: l) <> "".
Proof.
  intros Ha. destruct l as [|x l]; [exact Ha|].
  change (Path.joinSlash (a :: x :: l)) with (a ++ "/" ++ Path.joinSlash (x :: l)).
  destruct a; [congruence|discriminate].
Qed.

Section StagedPath.
Variable e : Extractor.
Variable fl : Flag.t.
Variable archiveName : string.

(** X18: when the archive name is a plain name and the name of an entry has
    no [..] among its components, the local path of the entry is the
    archive name followed by the components of the entry's name that are
    neither empty nor [.]: it names a file below the directory of the
    archive. ([-skip-top] not in effect.) *)
Theorem staged_path_below_archive_dir (i : nat) :
  Flag.skipTop fl && topDirOnly (scan e fl archiveName) = false ->
  Forall (fun c => c <> Path.slash) (list_ascii_of_string archiveName) ->
  archiveName <> "" -> archiveName <> "." -> archiveName <> ".." ->
  ~ In ".." (Path.splitSlash (FileName e i)) ->
  jobName (jobOf e fl archiveName i)
  = Path.joinSlash
      (archiveName
       :: filter (fun c => negb (String.eqb c "" || String.eqb c "."))
                 (Path.splitSlash (FileName e i))).
Proof.
  intros Hskip Hns H0 H1 H2 Hno.
  cbn [jobName jobOf]. unfold entryPath. rewrite Hskip.
  unfold Path.Join.
  destruct (String.eqb archiveName "") eqn:Ha;
    [apply String.eqb_eq in Ha; contradiction|]. cbn [negb].
  unfold Path.Clean.
  destruct (String.eqb (archiveName ++ "/" ++ FileName e i) "") eqn:Hp.
  { apply String.eqb_eq in Hp. destruct archiveName; [congruence|discriminate]. }
  assert (Hroot : Strings.HasPrefix (archiveName ++ "/" ++ FileName e i) "/" = false).
  { destruct archiveName as [|c a]; [congruence|].
    inversion Hns as [|c' l Hc Hl]; subst. cbn [append Strings.HasPrefix].
    destruct (Ascii.eqb "/"%char c) eqn:Heq; [|reflexivity].
    apply Ascii.eqb_eq in Heq. subst c. contradiction Hc. reflexivity. }
  rewrite Hroot.
  change (archiveName ++ "/" ++ FileName e i)
    with (archiveName ++ String Path.slash (FileName e i)).
  rewrite splitSlash_append, (splitSlash_no_slash archiveName Hns).
  cbn [app fold_left]. rewrite (cleanStep_name false [] archiveName) by assumption.
  rewrite fold_cleanStep_no_dotdot by assumption.
  rewrite rev_app_distr, rev_involutive. cbn [rev app].
  destruct (String.eqb (Path.joinSlash _) "") eqn:He; [|reflexivity].
  apply String.eqb_eq in He. exfalso.
  exact (joinSlash_cons_nonempty archiveName _ H0 He).
Qed.

End StagedPath.

Lemma staged_path_below_archive_dir_witness :
  ~ In ".." (Path.splitSlash (FileName (zipOf dataZip) 2))
  /\ jobName (jobOf (zipOf dataZip) (flagsWith 1000 false) "data" 2) = "data/b/c.txt".
Proof.
  assert (Hno : ~ In ".." (Path.splitSlash (FileName (zipOf dataZip) 2))).
  { vm_compute. intros [H|[H|H]]; try discriminate; assumption. }
  split; [exact Hno|].
  exact (staged_path_below_archive_dir (zipOf dataZip) (flagsWith 1000 false) "data" 2%nat
           eq_refl
           ltac:(repeat constructor; discriminate) ltac:(discriminate)
           ltac:(discriminate) ltac:(discriminate) Hno).
Defined.
